(** * blog.js: the markdown renderer, the post loader and the navigation controller

    A shallow embedding of [src/blog/blog.js].  JavaScript strings are
    sequences of UTF-16 code units; regular expressions are embedded as an
    abstract syntax with a backtracking matcher that follows the ECMAScript
    matching discipline (priorities, greedy and lazy quantifiers, capture
    groups, multiline anchors). *)

From Stdlib Require Import List NArith ZArith Lia Bool Ascii String.
From Stdlib Require Import Permutation Sorted DecimalString DecimalNat.
Import ListNotations.

Local Open Scope N_scope.

(** ** Strings *)

Abbreviation code_unit := N (only parsing).
Abbreviation jsstring := (list N) (only parsing).

Definition chr (a : ascii) : code_unit := N_of_ascii a.
Definition js (s : string) : jsstring := map chr (list_ascii_of_string s).

(** ECMAScript LineTerminator: LF, CR, LS, PS. *)
Definition isLineTerminator (c : code_unit) : bool :=
  (c =? 10) || (c =? 13) || (c =? 8232) || (c =? 8233).

(** ECMAScript WhiteSpace: TAB, VT, FF, SP, NBSP, ZWNBSP and category Zs. *)
Definition isWhiteSpace (c : code_unit) : bool :=
  (c =? 9) || (c =? 11) || (c =? 12) || (c =? 32) || (c =? 160) ||
  (c =? 5760) || ((8192 <=? c) && (c <=? 8202)) || (c =? 8239) ||
  (c =? 8287) || (c =? 12288) || (c =? 65279).

(** The class [\s], also the set stripped by [String.prototype.trim]. *)
Definition isSpace (c : code_unit) : bool := isWhiteSpace c || isLineTerminator c.

(** The class [\d]. *)
Definition isDigit (c : code_unit) : bool := (48 <=? c) && (c <=? 57).

(** The class [.] (no [s] flag). *)
Definition isDot (c : code_unit) : bool := negb (isLineTerminator c).

Definition is_chr (a : ascii) (c : code_unit) : bool := c =? chr a.
Definition one_of (l : jsstring) (c : code_unit) : bool := existsb (N.eqb c) l.
Definition anychar (_ : code_unit) : bool := true.

Fixpoint jseqb (a b : jsstring) : bool :=
  match a, b with
  | [], [] => true
  | x :: a', y :: b' => (x =? y) && jseqb a' b'
  | _, _ => false
  end.

Fixpoint is_prefix (p s : jsstring) : bool :=
  match p, s with
  | [], _ => true
  | x :: p', y :: s' => (x =? y) && is_prefix p' s'
  | _ :: _, [] => false
  end.

Fixpoint dropWhile (p : code_unit -> bool) (s : jsstring) : jsstring :=
  match s with
  | [] => []
  | c :: s' => if p c then dropWhile p s' else s
  end.

(** [String.prototype.trim] *)
Definition trim (s : jsstring) : jsstring :=
  rev (dropWhile isSpace (rev (dropWhile isSpace s))).

(** [String.prototype.indexOf], as the split of the string around the first
    occurrence of [pat]: [Some (before, after)]. *)
Fixpoint find_first (pat : jsstring) (bef s : jsstring) : option (jsstring * jsstring) :=
  if is_prefix pat s then Some (rev bef, skipn (List.length pat) s)
  else match s with
       | [] => None
       | c :: s' => find_first pat (c :: bef) s'
       end.

(** [String.prototype.split] with a non-empty string separator: [skip]
    counts the code units of a separator still to step over, [cur] is the
    current piece, reversed. *)
Fixpoint split_loop (sep : jsstring) (s : jsstring) (skip : nat) (cur : jsstring)
  : list jsstring :=
  match s with
  | [] => [rev cur]
  | c :: s' =>
      match skip with
      | S n => split_loop sep s' n cur
      | O => if is_prefix sep s
             then rev cur :: split_loop sep s' (List.length sep - 1) []
             else split_loop sep s' 0 (c :: cur)
      end
  end.

Definition split (sep s : jsstring) : list jsstring := split_loop sep s 0 [].

(** [Array.prototype.join] *)
Fixpoint join (sep : jsstring) (l : list jsstring) : jsstring :=
  match l with
  | [] => []
  | [x] => x
  | x :: l' => x ++ sep ++ join sep l'
  end.

(** Decimal [ToString] of an array index. *)
Definition nat_to_js (n : nat) : jsstring :=
  js (NilEmpty.string_of_uint (Nat.to_uint n)).

(** ** Regular expressions *)

Inductive regex : Type :=
| Eps
| Chr (p : code_unit -> bool)
| Seq (r1 r2 : regex)
| Star (greedy : bool) (r : regex)
| Opt (r : regex)
| Group (i : nat) (r : regex)
| Bol (multiline : bool)
| Eol (multiline : bool).

(** A literal string, and [r+]. *)
Fixpoint Lit (s : jsstring) : regex :=
  match s with
  | [] => Eps
  | c :: s' => Seq (Chr (N.eqb c)) (Lit s')
  end.

Definition Plus (r : regex) : regex := Seq r (Star true r).

(** Capture groups occurring in a pattern. *)
Fixpoint groups (r : regex) : list nat :=
  match r with
  | Seq r1 r2 => groups r1 ++ groups r2
  | Star _ r1 | Opt r1 => groups r1
  | Group i r1 => i :: groups r1
  | _ => []
  end.

(** A matcher state: the code units before the current position (nearest
    first), those from it on, and the captures made so far. *)
Record mstate : Type := MState {
  before : jsstring;
  after : jsstring;
  caps : list (nat * jsstring)
}.

Definition cont := mstate -> option mstate.

Fixpoint lookup (i : nat) (cs : list (nat * jsstring)) : option jsstring :=
  match cs with
  | [] => None
  | (j, v) :: cs' => if Nat.eqb i j then Some v else lookup i cs'
  end.

Definition clear_caps (gs : list nat) (s : mstate) : mstate :=
  MState (before s) (after s)
         (filter (fun c => negb (existsb (Nat.eqb (fst c)) gs)) (caps s)).

Definition set_cap (i : nat) (v : jsstring) (s : mstate) : mstate :=
  MState (before s) (after s) ((i, v) :: caps s).

Definition progressed (s s' : mstate) : bool :=
  (List.length (after s') <? List.length (after s))%nat.

Definition at_bol (multiline : bool) (s : mstate) : bool :=
  match before s with
  | [] => true
  | c :: _ => multiline && isLineTerminator c
  end.

Definition at_eol (multiline : bool) (s : mstate) : bool :=
  match after s with
  | [] => true
  | c :: _ => multiline && isLineTerminator c
  end.

(** The repeat matcher for [r*] and [r*?]: [m] is the matcher of the body.
    An iteration that consumes nothing is rejected, so an iteration is only
    possible while input remains: [fuel] is the number of code units left. *)
Fixpoint star_loop (m : cont -> cont) (gs : list nat) (greedy : bool) (k : cont)
  (fuel : nat) (s : mstate) : option mstate :=
  match fuel with
  | O => k s
  | S n =>
      let again :=
        m (fun s' => if progressed s s' then star_loop m gs greedy k n s' else None)
          (clear_caps gs s) in
      if greedy
      then match again with Some e => Some e | None => k s end
      else match k s with Some e => Some e | None => again end
  end.

(** [rmatch r k s]: match [r] at state [s], then continue with [k];
    alternatives are tried in priority order. *)
Fixpoint rmatch (r : regex) (k : cont) (s : mstate) {struct r} : option mstate :=
  match r with
  | Eps => k s
  | Chr p =>
      match after s with
      | c :: rest => if p c then k (MState (c :: before s) rest (caps s)) else None
      | [] => None
      end
  | Seq r1 r2 => rmatch r1 (rmatch r2 k) s
  | Star greedy r1 =>
      star_loop (rmatch r1) (groups r1) greedy k (List.length (after s)) s
  | Opt r1 =>
      match rmatch r1 (fun s' => if progressed s s' then k s' else None)
                   (clear_caps (groups r1) s) with
      | Some e => Some e
      | None => k s
      end
  | Group i r1 =>
      rmatch r1
        (fun s' =>
           k (set_cap i (firstn (List.length (after s) - List.length (after s')) (after s)) s'))
        s
  | Bol ml => if at_bol ml s then k s else None
  | Eol ml => if at_eol ml s then k s else None
  end.

(** One match: the matched text, the captures, and the text following. *)
Record mresult : Type := MResult {
  m_text : jsstring;
  m_caps : list (nat * jsstring);
  m_rest : jsstring
}.

(** Match at exactly this position. *)
Definition match_here (r : regex) (bef aft : jsstring) : option mresult :=
  match rmatch r Some (MState bef aft []) with
  | Some e => Some (MResult (firstn (List.length aft - List.length (after e)) aft)
                            (caps e) (after e))
  | None => None
  end.

(** [RegExp.prototype.exec] from a position: the first position, from here
    on, at which the pattern matches; [Some (skipped, result)]. *)
Fixpoint exec_from (r : regex) (bef aft : jsstring) (skipped : jsstring)
  : option (jsstring * mresult) :=
  match match_here r bef aft with
  | Some res => Some (rev skipped, res)
  | None =>
      match aft with
      | [] => None
      | c :: aft' => exec_from r (c :: bef) aft' (c :: skipped)
      end
  end.

(** [RegExp.prototype.test] / a truthy [String.prototype.match]. *)
Definition test (r : regex) (s : jsstring) : bool :=
  match exec_from r [] s [] with Some _ => true | None => false end.

(** ** Replacement *)

(** Number of capture groups of a pattern (groups are numbered from 1). *)
Definition ncaps (r : regex) : nat := list_max (groups r).

Definition cap_text (i : nat) (cs : list (nat * jsstring)) : jsstring :=
  match lookup i cs with Some v => v | None => [] end.

Definition digit_val (c : code_unit) : nat := N.to_nat (c - 48).

(** The abstract operation GetSubstitution: expands [$$], [$&], [$`], [$']
    and [$n] / [$nn] in a replacement template.  [m] is the number of
    captures, [pre] the text before the match and [post] the text after. *)
Fixpoint GetSubstitution (m : nat) (matched pre post : jsstring)
  (cs : list (nat * jsstring)) (template : jsstring) : jsstring :=
  match template with
  | [] => []
  | c :: t =>
      if negb (c =? 36) then c :: GetSubstitution m matched pre post cs t
      else
        match t with
        | [] => [c]
        | d :: t' =>
            if d =? 36 then 36 :: GetSubstitution m matched pre post cs t'
            else if d =? 38 then matched ++ GetSubstitution m matched pre post cs t'
            else if d =? 96 then pre ++ GetSubstitution m matched pre post cs t'
            else if d =? 39 then post ++ GetSubstitution m matched pre post cs t'
            else if isDigit d then
              let one :=
                let n := digit_val d in
                if ((1 <=? n) && (n <=? m))%nat
                then cap_text n cs ++ GetSubstitution m matched pre post cs t'
                else c :: d :: GetSubstitution m matched pre post cs t' in
              match t' with
              | e :: t'' =>
                  if isDigit e then
                    let nn := (10 * digit_val d + digit_val e)%nat in
                    if (m <? nn)%nat then one
                    else if (1 <=? nn)%nat
                         then cap_text nn cs ++ GetSubstitution m matched pre post cs t''
                         else c :: d :: e :: GetSubstitution m matched pre post cs t''
                  else one
              | [] => one
              end
            else c :: GetSubstitution m matched pre post cs t
        end
  end.

(** [String.prototype.replace] with a global pattern and a replacement
    function [f] (given the text before the match and the match).  [skip]
    counts the code units of the current match still to step over.  After
    an empty match the search resumes one code unit further. *)
Fixpoint replace_loop (r : regex) (f : jsstring -> mresult -> jsstring)
  (bef aft : jsstring) (skip : nat) : jsstring :=
  match skip with
  | S n =>
      match aft with
      | c :: aft' => replace_loop r f (c :: bef) aft' n
      | [] => []
      end
  | O =>
      match match_here r bef aft with
      | Some res =>
          f (rev bef) res ++
          match aft with
          | c :: aft' =>
              match List.length (m_text res) with
              | O => c :: replace_loop r f (c :: bef) aft' 0
              | S n => replace_loop r f (c :: bef) aft' n
              end
          | [] => []
          end
      | None =>
          match aft with
          | c :: aft' => c :: replace_loop r f (c :: bef) aft' 0
          | [] => []
          end
      end
  end.

Definition replace_fn (r : regex) (f : jsstring -> mresult -> jsstring)
  (s : jsstring) : jsstring :=
  replace_loop r f [] s 0.

(** A replacement template as a replacement function. *)
Definition template (r : regex) (t : jsstring) (pre : jsstring) (res : mresult)
  : jsstring :=
  GetSubstitution (ncaps r) (m_text res) pre (m_rest res) (m_caps res) t.

Definition replace_re (r : regex) (t : jsstring) (s : jsstring) : jsstring :=
  replace_fn r (template r t) s.

(** [String.prototype.replace] with a string pattern: the first occurrence
    only; the replacement string is still a template. *)
Definition replace_str (pat repl s : jsstring) : jsstring :=
  match find_first pat [] s with
  | Some (pre, post) => pre ++ GetSubstitution 0 pat pre post [] repl ++ post
  | None => s
  end.

(** ** Exceptions and stateful callbacks *)

Inductive exn : Type := TypeError.

Inductive result (A : Type) : Type :=
| Ok (a : A)
| Throw (e : exn).
Arguments Ok {A} a.
Arguments Throw {A} e.

Definition bind {A B} (x : result A) (f : A -> result B) : result B :=
  match x with
  | Ok a => f a
  | Throw e => Throw e
  end.

Notation "x <- c ;; k" := (bind c (fun x => k))
  (at level 61, c at next level, right associativity).

(** [replace_loop] for a replacement function that reads and writes a state
    [S] and may throw. *)
Fixpoint replace_loop_m {S : Type} (r : regex)
  (f : mresult -> S -> result (jsstring * S))
  (bef aft : jsstring) (skip : nat) (st : S) : result (jsstring * S) :=
  match skip with
  | S n =>
      match aft with
      | c :: aft' => replace_loop_m r f (c :: bef) aft' n st
      | [] => Ok ([], st)
      end
  | O =>
      match match_here r bef aft with
      | Some res =>
          p <- f res st ;;
          q <- match aft with
               | c :: aft' =>
                   match List.length (m_text res) with
                   | O => q <- replace_loop_m r f (c :: bef) aft' 0%nat (snd p) ;;
                          Ok (c :: fst q, snd q)
                   | S n => replace_loop_m r f (c :: bef) aft' n (snd p)
                   end
               | [] => Ok ([], snd p)
               end ;;
          Ok (fst p ++ fst q, snd q)
      | None =>
          match aft with
          | c :: aft' =>
              q <- replace_loop_m r f (c :: bef) aft' 0%nat st ;;
              Ok (c :: fst q, snd q)
          | [] => Ok ([], st)
          end
      end
  end.

(** ** The renderer *)

Definition quot : code_unit := 34.

(** The object literal [map] of [escapeHtml]. *)
Definition escape_map : list (jsstring * jsstring) :=
  [ (js "&", js "&amp;");
    (js "<", js "&lt;");
    (js ">", js "&gt;");
    ([quot], js "&quot;");
    (js "'", js "&#039;") ].

Fixpoint get_property (key : jsstring) (o : list (jsstring * jsstring)) : option jsstring :=
  match o with
  | [] => None
  | (k, v) :: o' => if jseqb key k then Some v else get_property key o'
  end.

(** [ToString] of a property value that may be [undefined]. *)
Definition to_string (v : option jsstring) : jsstring :=
  match v with Some s => s | None => js "undefined" end.

(** The global pattern of [escapeHtml]: one of the five reserved characters
    (ampersand, less-than, greater-than, double quote, apostrophe). *)
Definition escape_re : regex := Chr (one_of (js "&<>" ++ [quot] ++ js "'")).

Definition escapeHtml (text : jsstring) : jsstring :=
  replace_fn escape_re (fun _ m => to_string (get_property (m_text m) escape_map)) text.

(** [[\s\S]] *)
Definition space_or_not (c : code_unit) : bool := isSpace c || negb (isSpace c).

(** [/```([\s\S]*?)```/g] *)
Definition fence_re : regex :=
  Seq (Lit (js "```")) (Seq (Group 1 (Star false (Chr space_or_not))) (Lit (js "```"))).

(** The headings, [/^### (.*$)/gim] and the like; the [i] flag changes
    nothing, the patterns have no letter. *)
Definition heading_re (marker : jsstring) : regex :=
  Seq (Bol true) (Seq (Lit marker) (Group 1 (Seq (Star true (Chr isDot)) (Eol true)))).
Definition h3_re : regex := heading_re (js "### ").
Definition h2_re : regex := heading_re (js "## ").
Definition h1_re : regex := heading_re (js "# ").

(** [/^---$/gm] *)
Definition hr_re : regex := Seq (Bol true) (Seq (Lit (js "---")) (Eol true)).

(** [/\*\*(.*?)\*\*/g] and [/\*(.*?)\*/g] *)
Definition bold_re : regex :=
  Seq (Lit (js "**")) (Seq (Group 1 (Star false (Chr isDot))) (Lit (js "**"))).
Definition italic_re : regex :=
  Seq (Lit (js "*")) (Seq (Group 1 (Star false (Chr isDot))) (Lit (js "*"))).

(** [/`([^`]+)`/g] *)
Definition not_backtick (c : code_unit) : bool := negb (c =? 96).
Definition inline_code_re : regex :=
  Seq (Lit (js "`")) (Seq (Group 1 (Plus (Chr not_backtick))) (Lit (js "`"))).

(** [/^\* (.+)$/gm] and [/^\d+\. (.+)$/gm] *)
Definition bullet_re : regex :=
  Seq (Bol true) (Seq (Lit (js "* ")) (Seq (Group 1 (Plus (Chr isDot))) (Eol true))).
Definition numbered_re : regex :=
  Seq (Bol true)
      (Seq (Plus (Chr isDigit))
           (Seq (Lit (js ". ")) (Seq (Group 1 (Plus (Chr isDot))) (Eol true)))).

(** [/^<[h|l|h|u|o]/] and [/^__CODE_BLOCK_/] *)
Definition block_tag_re : regex :=
  Seq (Bol false) (Seq (Lit (js "<")) (Chr (one_of (js "h|l|h|u|o")))).
Definition placeholder_re : regex :=
  Seq (Bol false) (Lit (js "__CODE_BLOCK_")).

(** [/(<li>.*<\/li>\n?)+/g] *)
Definition list_run_re : regex :=
  Plus (Group 1 (Seq (Lit (js "<li>"))
                     (Seq (Star true (Chr isDot))
                          (Seq (Lit (js "</li>")) (Opt (Chr (N.eqb 10))))))).

(** The state of the fence callback: [codeBlocks] and [codeIndex]. *)
Record fences : Type := Fences {
  codeBlocks : list jsstring;
  codeIndex : nat
}.

Definition placeholder (i : nat) : jsstring :=
  js "__CODE_BLOCK_" ++ nat_to_js i ++ js "__".

Definition code_block (code : jsstring) : jsstring :=
  js "<pre><code>" ++ escapeHtml (trim code) ++ js "</code></pre>".

(** The callback [(match, code) => { codeBlocks.push(...); return ... }];
    [code.trim()] throws when [code] is [undefined]. *)
Definition fence_callback (m : mresult) (st : fences) : result (jsstring * fences) :=
  match lookup 1 (m_caps m) with
  | None => Throw TypeError
  | Some code =>
      Ok (placeholder (codeIndex st),
          Fences (codeBlocks st ++ [code_block code]) (S (codeIndex st)))
  end.

Definition extract_fences (markdown : jsstring) : result (jsstring * fences) :=
  replace_loop_m fence_re fence_callback [] markdown 0 (Fences [] 0).

(** The callback of [.map(para => ...)]. *)
Definition wrap_para (para : jsstring) : jsstring :=
  if test block_tag_re para then para
  else if test placeholder_re para then para
  else match trim para with
       | _ :: _ => js "<p>" ++ para ++ js "</p>"
       | [] => []
       end.

(** The chain of replacements up to [.join('\n')]. *)
Definition headings (s : jsstring) : jsstring :=
  replace_re h1_re (js "<h1>$1</h1>")
    (replace_re h2_re (js "<h2>$1</h2>")
       (replace_re h3_re (js "<h3>$1</h3>") s)).

Definition inline (s : jsstring) : jsstring :=
  replace_re inline_code_re (js "<code>$1</code>")
    (replace_re italic_re (js "<em>$1</em>")
       (replace_re bold_re (js "<strong>$1</strong>") s)).

Definition list_items (s : jsstring) : jsstring :=
  replace_re numbered_re (js "<li>$1</li>")
    (replace_re bullet_re (js "<li>$1</li>") s).

Definition paragraphs (s : jsstring) : jsstring :=
  join (js (String (ascii_of_nat 10) EmptyString))
       (map wrap_para (split [10; 10] s)).

Definition process (s : jsstring) : jsstring :=
  paragraphs (list_items (inline (replace_re hr_re (js "<hr>") (headings s)))).

(** [codeBlocks.forEach((block, i) => ...)] *)
Fixpoint restore (blocks : list jsstring) (i : nat) (html : jsstring) : jsstring :=
  match blocks with
  | [] => html
  | block :: blocks' => restore blocks' (S i) (replace_str (placeholder i) block html)
  end.

Definition wrap_lists (html : jsstring) : jsstring :=
  replace_fn list_run_re (fun _ m => js "<ul>" ++ m_text m ++ js "</ul>") html.

Definition markdownToHtml (markdown : jsstring) : result jsstring :=
  p <- extract_fences markdown ;;
  Ok (wrap_lists (restore (codeBlocks (snd p)) 0 (process (fst p)))).

Definition nl : string := String (ascii_of_nat 10) EmptyString.

(** ** Dates *)

Local Open Scope Z_scope.

(** A JavaScript number as far as the comparator needs it: an integer, or
    [None] for [NaN]. *)
Definition number := option Z.

Definition is_leap (y : Z) : bool :=
  ((y mod 4 =? 0) && negb (y mod 100 =? 0)) || (y mod 400 =? 0).

Definition days_in_month (y m : Z) : Z :=
  if m =? 2 then (if is_leap y then 29 else 28)
  else if (m =? 4) || (m =? 6) || (m =? 9) || (m =? 11) then 30
  else 31.

(** ECMAScript DayFromYear: the day number of January 1st of year [y]. *)
Definition DayFromYear (y : Z) : Z :=
  365 * (y - 1970) + (y - 1969) / 4 - (y - 1901) / 100 + (y - 1601) / 400.

Fixpoint days_before (y : Z) (m : nat) : Z :=
  match m with
  | O => 0
  | S m' => days_before y m' + days_in_month y (Z.of_nat m)
  end.

(** The time value, in milliseconds since the epoch, of midnight UTC of a
    calendar day. *)
Definition time_of (y m d : Z) : Z :=
  (DayFromYear y + days_before y (Z.to_nat (m - 1)) + (d - 1)) * 86400000.

Definition digit (c : code_unit) : option Z :=
  if isDigit c then Some (Z.of_N c - 48) else None.

Definition number_of (ds : list code_unit) : option Z :=
  fold_left (fun acc c =>
               match acc, digit c with
               | Some n, Some v => Some (10 * n + v)
               | _, _ => None
               end) ds (Some 0).

(** The year, month and day of a string in the date-only form [YYYY-MM-DD]
    of the date-time string format, when they name a day of the calendar. *)
Definition calendar (dateStr : jsstring) : option (Z * Z * Z) :=
  match dateStr with
  | [y1; y2; y3; y4; s1; m1; m2; s2; d1; d2] =>
      match number_of [y1; y2; y3; y4], number_of [m1; m2], number_of [d1; d2] with
      | Some y, Some m, Some d =>
          if ((s1 =? 45) && (s2 =? 45))%N && (1 <=? m) && (m <=? 12)
             && (1 <=? d) && (d <=? days_in_month y m)
          then Some (y, m, d)
          else None
      | _, _, _ => None
      end
  | _ => None
  end.

(** [new Date(dateStr)] for the date-only form, read as UTC; any other
    string is given [NaN] here (its value is left to the implementation). *)
Definition Date (dateStr : jsstring) : number :=
  match calendar dateStr with
  | Some (y, m, d) => Some (time_of y m d)
  | None => None
  end.

(** Subtraction of two numbers. *)
Definition minus (a b : number) : number :=
  match a, b with
  | Some x, Some y => Some (x - y)
  | _, _ => None
  end.

(** ** Time values as local dates *)

Definition msPerDay : Z := 86400000.

(** ECMAScript Day(t). *)
Definition Day (t : Z) : Z := t / msPerDay.

(** ECMAScript YearFromTime: the largest year whose first day is not after
    [t].  The search starts at a year that is not after the answer and
    steps forward. *)
Fixpoint year_search (fuel : nat) (y day : Z) : Z :=
  match fuel with
  | O => y
  | S n => if DayFromYear (y + 1) <=? day then year_search n (y + 1) day else y
  end.

Definition YearFromTime (t : Z) : Z :=
  let day := Day t in
  year_search (Z.to_nat (Z.abs day / 365 + 2))
              (1970 + (if 0 <=? day then day / 366 else day / 365)) day.

Definition DayWithinYear (t : Z) : Z := Day t - DayFromYear (YearFromTime t).

Definition InLeapYear (t : Z) : Z := if is_leap (YearFromTime t) then 1 else 0.

(** ECMAScript MonthFromTime (January is 0) and DateFromTime. *)
Definition MonthFromTime (t : Z) : Z :=
  let d := DayWithinYear t in
  let l := InLeapYear t in
  if d <? 31 then 0
  else if d <? 59 + l then 1
  else if d <? 90 + l then 2
  else if d <? 120 + l then 3
  else if d <? 151 + l then 4
  else if d <? 181 + l then 5
  else if d <? 212 + l then 6
  else if d <? 243 + l then 7
  else if d <? 273 + l then 8
  else if d <? 304 + l then 9
  else if d <? 334 + l then 10
  else 11.

Definition DateFromTime (t : Z) : Z :=
  let d := DayWithinYear t in
  let l := InLeapYear t in
  match MonthFromTime t with
  | 0 => d + 1
  | 1 => d - 30
  | 2 => d - 58 - l
  | 3 => d - 89 - l
  | 4 => d - 119 - l
  | 5 => d - 150 - l
  | 6 => d - 180 - l
  | 7 => d - 211 - l
  | 8 => d - 242 - l
  | 9 => d - 272 - l
  | 10 => d - 303 - l
  | _ => d - 333 - l
  end.

(** [formatDate]: [new Date(dateStr).toLocaleDateString('en-US', { year:
    'numeric', month: 'long', day: 'numeric' })].  The date is shown in the
    local time zone: [tza] is LocalTZA, the offset of local time from UTC at
    a time value, and [fmt] is the formatter of the locale, which is given
    the year, the month and the day of the local time (the only fields the
    options ask for).  An invalid date is shown as [Invalid Date]. *)
Definition formatDate (tza : Z -> Z) (fmt : Z -> Z -> Z -> jsstring)
  (dateStr : jsstring) : jsstring :=
  match Date dateStr with
  | None => js "Invalid Date"
  | Some t =>
      let local := t + tza t in
      fmt (YearFromTime local) (MonthFromTime local) (DateFromTime local)
  end.

(** ** Array.prototype.sort *)

Section Sort.
Context {A : Type}.
Variable comparefn : A -> A -> number.

  (** SortCompare: a [NaN] from the comparator counts as [+0]. *)
Definition SortCompare (x y : A) : Z :=
    match comparefn x y with
    | Some v => v
    | None => 0
    end.

  (** The sort is stable: an element goes before the first one it does not
      have to follow. *)
Fixpoint insert (x : A) (l : list A) : list A :=
    match l with
    | [] => [x]
    | y :: l' => if SortCompare x y <=? 0 then x :: l else y :: insert x l'
    end.

Fixpoint sort (l : list A) : list A :=
    match l with
    | [] => []
    | x :: l' => insert x (sort l')
    end.
End Sort.

(** ** The registry, the loader and the controller *)

Record post : Type := Post {
  title : jsstring;
  filename : jsstring;
  date : jsstring;
  description : jsstring
}.

Definition blogPosts : list post :=
  [ Post (js "Building a Type-Safe Redis Client in OCaml")
         (js "building-redis-client-ocaml.md")
         (js "2025-08-27")
         (js "Exploring OCaml's type system by building a native Redis client with compile-time protocol correctness.");
    Post (js "Welcome to My Blog")
         (js "welcome-to-my-blog.md")
         (js "2025-08-27")
         (js "My first blog post introducing what you can expect from this blog.") ].

(** What the element [#blog-posts] shows: the list of posts (one
    [.blog-item] per entry, in this order), a rendered post inside
    [<article>] under the back button, or [<p>Error loading post.</p>]. *)
Inductive content : Type :=
| PostList (items : list post)
| Article (html : jsstring)
| ErrorMessage.

(** The page: the global array [blogPosts] and the container. *)
Record page : Type := Page {
  registry : list post;
  container : content
}.

(** The comparator [(a, b) => new Date(b.date) - new Date(a.date)]. *)
Definition newest_first (a b : post) : number :=
  minus (Date (date b)) (Date (date a)).

(** [blogPosts.sort(...)] sorts the array itself and returns it: the list
    shown and the registry are the same array. *)
Definition loadBlogPosts (pg : page) : page :=
  let sortedPosts := sort newest_first (registry pg) in
  Page sortedPosts (PostList sortedPosts).

(** The outcome of [fetch(url)] followed by [response.text()]: the promise
    of [fetch] rejects (network error), or resolves to a response with some
    status, whose body is read ([Some]) or not ([None]: [text()] rejects). *)
Inductive fetched : Type :=
| Rejected
| Resolved (status : N) (body : option jsstring).

Definition content_store := jsstring -> fetched.

Definition loadPost (fetch : content_store) (p : post) (pg : page) : page :=
  match fetch (js "posts/" ++ filename p) with
  | Resolved _ (Some markdown) =>
      match markdownToHtml markdown with
      | Ok html => Page (registry pg) (Article html)
      | Throw _ => Page (registry pg) ErrorMessage
      end
  | _ => Page (registry pg) ErrorMessage
  end.

(** [p.filename.replace('.md', '')] *)
Definition slug (file : jsstring) : jsstring := replace_str (js ".md") [] file.

(** [Array.prototype.find] is [List.find]; [hash] is [window.location.hash]. *)
Definition checkForDirectLink (fetch : content_store) (hash : jsstring) (pg : page)
  : page :=
  match skipn 1 hash with
  | (_ :: _) as h =>
      match find (fun p => jseqb (slug (filename p)) h) (registry pg) with
      | Some p => loadPost fetch p pg
      | None => loadBlogPosts pg
      end
  | [] => loadBlogPosts pg
  end.

(** [window.location.hash] for a URL fragment: empty when the URL has no
    fragment or an empty one. *)
Definition location_hash (fragment : option jsstring) : jsstring :=
  match fragment with
  | Some ((_ :: _) as f) => js "#" ++ f
  | _ => []
  end.

(** The events the script listens to. *)
Inductive event : Type :=
| DOMContentLoaded (fragment : option jsstring)
| Popstate (fragment : option jsstring)
| ClickItem (p : post)
| ClickBack.

Definition handle (fetch : content_store) (pg : page) (e : event) : page :=
  match e with
  | DOMContentLoaded fragment | Popstate fragment =>
      checkForDirectLink fetch (location_hash fragment) pg
  | ClickItem p => loadPost fetch p pg
  | ClickBack => loadBlogPosts pg
  end.

Definition run (fetch : content_store) (pg : page) (es : list event) : page :=
  fold_left (handle fetch) es pg.

(** * The vocabulary of the properties *)

(** ** The registry and its dates *)

(** The file name has [.md] as its suffix and nowhere else. *)
Definition extension_only (file : jsstring) : bool :=
  match find_first (js ".md") [] file with
  | Some (_, []) => true
  | _ => false
  end.

(** Two registry entries whose file names differ and both end in [.md]. *)
Definition colliding_registry : list post :=
  [ Post (js "A") (js "a.md.md") (js "2025-08-27") (js "first");
    Post (js "B") (js ".mda.md") (js "2025-08-01") (js "second") ].

(** An entry whose date is a calendar date [YYYY-MM-DD]. *)
Definition dated (p : post) : Prop := Date (date p) <> None.

(** The time value of the date of an entry. *)
Definition time (p : post) : Z :=
  match Date (date p) with
  | Some t => t
  | None => 0
  end.

(** The order of the list view. *)
Definition newer_or_same (a b : post) : Prop := time b <= time a.

(** A year, a month and a day of that month. *)
Definition valid_day (c : Z * Z * Z) : Prop :=
  let '(y, m, d) := c in 1 <= m <= 12 /\ 1 <= d <= days_in_month y m.

(** The order of the calendar: by year, then month, then day. *)
Definition earlier (a b : Z * Z * Z) : Prop :=
  let '(y, m, d) := a in
  let '(y', m', d') := b in
  y < y' \/ (y = y' /\ (m < m' \/ (m = m' /\ d < d'))).

Definition days_in_year (y : Z) : Z := if is_leap y then 366 else 365.

(** The day before a day of the calendar. *)
Definition prev_day (c : Z * Z * Z) : Z * Z * Z :=
  let '(y, m, d) := c in
  if 1 <? d then (y, m, d - 1)
  else if 1 <? m then (y, m - 1, days_in_month y (m - 1))
  else (y - 1, 12, 31).

(** The pattern of the locale en-US for a long month, a numeric day and a
    numeric year: the name of the month, the day, a comma, the year. *)
Definition month_name (m : Z) : jsstring :=
  nth (Z.to_nat m)
      (map js ["January"; "February"; "March"; "April"; "May"; "June"; "July";
               "August"; "September"; "October"; "November"; "December"]%string)
      [].

Definition z_to_js (n : Z) : jsstring := nat_to_js (Z.to_nat n).

Definition en_US_long (y m d : Z) : jsstring :=
  month_name m ++ js " " ++ z_to_js d ++ js ", " ++ z_to_js y.

(** Two entries with the dates of the specification's example. *)
Definition august_1st : post :=
  Post (js "Older") (js "older.md") (js "2025-08-01") (js "the older post").

Definition august_27th : post :=
  Post (js "Newer") (js "newer.md") (js "2025-08-27") (js "the newer post").

Local Open Scope N_scope.

(** ** Repeats of a character class *)

(** The repeat matcher over a single character class, as a recursion on the
    input: greedy takes the longest run and gives back one code unit at a
    time; lazy extends only when the continuation fails. *)
Fixpoint greedy_chars (p : code_unit -> bool) (k : cont) (bef aft : jsstring)
  (cs : list (nat * jsstring)) : option mstate :=
  match aft with
  | c :: aft' =>
      if p c
      then match greedy_chars p k (c :: bef) aft' cs with
           | Some e => Some e
           | None => k (MState bef aft cs)
           end
      else k (MState bef aft cs)
  | [] => k (MState bef aft cs)
  end.

Fixpoint lazy_chars (p : code_unit -> bool) (k : cont) (bef aft : jsstring)
  (cs : list (nat * jsstring)) : option mstate :=
  match k (MState bef aft cs) with
  | Some e => Some e
  | None =>
      match aft with
      | c :: aft' => if p c then lazy_chars p k (c :: bef) aft' cs else None
      | [] => None
      end
  end.

(** ** Texts without markdown, and escaping *)

(** The patterns applied to the markdown text, in order. *)
Definition patterns : list regex :=
  [ fence_re; h3_re; h2_re; h1_re; hr_re; bold_re; italic_re; inline_code_re;
    bullet_re; numbered_re ].

(** No pattern matches anywhere: neither in the markdown text nor, for the
    list grouping, in its paragraphs. *)
Definition unmatched (markdown : jsstring) : bool :=
  forallb (fun r => negb (test r markdown)) patterns
  && negb (test list_run_re (paragraphs markdown)).

(** The entity of a reserved character; any other code unit is kept. *)
Definition escape_char (c : code_unit) : jsstring :=
  if c =? 38 then js "&amp;"
  else if c =? 60 then js "&lt;"
  else if c =? 62 then js "&gt;"
  else if c =? 34 then js "&quot;"
  else if c =? 39 then js "&#039;"
  else [c].

(** ** Where a pattern can match *)

(** A window: the code unit before a position, if any, and the one at it. *)
Definition window := option code_unit -> code_unit -> bool.

(** No position of [s] has a window that passes [h]; [prev] is the code
    unit before [s]. *)
Fixpoint clean (h : window) (prev : option code_unit) (s : jsstring) : bool :=
  match s with
  | [] => true
  | c :: s' => negb (h prev c) && clean h (Some c) s'
  end.

(** The code unit before the position that follows [s]. *)
Definition last_of (prev : option code_unit) (s : jsstring) : option code_unit :=
  match rev s with
  | c :: _ => Some c
  | [] => prev
  end.

(** A pattern that can only match where the window passes [h]. *)
Definition guarded (r : regex) (h : window) : Prop :=
  (forall bef c aft, h (hd_error bef) c = false -> match_here r bef (c :: aft) = None)
  /\ (forall bef, match_here r bef [] = None).

(** The windows of the patterns. *)
Definition opens_with (a : code_unit) : window := fun _ c => c =? a.

Definition line_start (prev : option code_unit) : bool :=
  match prev with
  | None => true
  | Some c => isLineTerminator c
  end.

Definition line_opens_with (q : code_unit -> bool) : window :=
  fun prev c => line_start prev && q c.

(** Two code units in a row. *)
Definition opens_with_pair (a b : code_unit) : window :=
  fun prev c =>
    match prev with
    | Some p => (p =? a) && (c =? b)
    | None => false
    end.

(** The list pattern opens with [<li>]: a less-than sign, then [l]. *)
Definition tag_li : window :=
  fun prev c =>
    match prev with
    | Some p => (p =? 60) && (c =? 108)
    | None => false
    end.

(** A run of [p] stops here: at the end of the text or at a code unit
    that [p] rejects. *)
Definition stops (p : code_unit -> bool) (rest : jsstring) : Prop :=
  match rest with
  | c :: _ => p c = false
  | [] => True
  end.

(** An opening literal, a lazy run captured as group 1, a closing literal. *)
Definition delimited (opn : jsstring) (p : code_unit -> bool) (cls : jsstring) : regex :=
  Seq (Lit opn) (Seq (Group 1 (Star false (Chr p))) (Lit cls)).

(** ** Fences *)

(** The specification's description of fence extraction, to be compared
    with [extract_fences]: scan for the blocks delimited by triple
    backticks, each one closed by the first triple backtick after its
    opening; replace the span by the placeholder of its index and record the
    contents in order. *)
Fixpoint spec_scan_fences (fuel : nat) (s : jsstring) (i : nat)
  : jsstring * list jsstring :=
  match fuel with
  | O => (s, [])
  | S n =>
      if is_prefix (js "```") s then
        match find_first (js "```") [] (skipn 3 s) with
        | Some (code, rest) =>
            let r := spec_scan_fences n rest (S i) in
            (placeholder i ++ fst r, code :: snd r)
        | None => (s, [])
        end
      else
        match s with
        | [] => ([], [])
        | c :: s' => let r := spec_scan_fences n s' i in (c :: fst r, snd r)
        end
  end.

Definition spec_fences (markdown : jsstring) : jsstring * list jsstring :=
  spec_scan_fences (S (List.length markdown)) markdown 0.

(** ** Lines, paragraphs and headings *)

(** A line: no line terminator in it. *)
Definition one_line (s : jsstring) : Prop :=
  Forall (fun c => isLineTerminator c = false) s.

(** No less-than sign directly followed by [l]: no [<li>] in the text. *)
Definition no_li_tag (s : jsstring) : bool := clean tag_li None s.

(** A single paragraph that is neither blank nor taken for a block. *)
Definition plain_paragraph (text : jsstring) : bool :=
  negb (test block_tag_re text) && negb (test placeholder_re text)
  && match trim text with [] => false | _ :: _ => true end
  && forallb (fun c => negb (c =? 10)) text.

(** A text is a sequence of lines, each ended by a line terminator, and a
    last line. *)
Fixpoint unlines (segs : list (jsstring * code_unit)) (last : jsstring) : jsstring :=
  match segs with
  | [] => last
  | (l, t) :: segs' => l ++ t :: unlines segs' last
  end.

Fixpoint lines_of (s : jsstring) : list (jsstring * code_unit) * jsstring :=
  match s with
  | [] => ([], [])
  | c :: s' =>
      if isLineTerminator c then (([], c) :: fst (lines_of s'), snd (lines_of s'))
      else match fst (lines_of s') with
           | [] => ([], c :: snd (lines_of s'))
           | (l, t) :: segs => ((c :: l, t) :: segs, snd (lines_of s'))
           end
  end.

Definition line_ended (lt : jsstring * code_unit) : Prop :=
  one_line (fst lt) /\ isLineTerminator (snd lt) = true.

Definition map_lines (f : jsstring -> jsstring) (segs : list (jsstring * code_unit))
  : list (jsstring * code_unit) :=
  map (fun lt => (f (fst lt), snd lt)) segs.

(** What a heading stage does to a line: [35 :: marker'] is the marker,
    [opn] and [cls] are the tags. *)
Definition heading_tag (marker' opn cls l : jsstring) : jsstring :=
  if is_prefix (35 :: marker') l
  then opn ++ skipn (List.length (35 :: marker')) l ++ cls
  else l.

(** A line, as the specification reads the headings: the longest marker
    first; the marker is stripped and the rest of the line is the content. *)
Definition heading_line (l : jsstring) : jsstring :=
  if is_prefix (js "### ") l then js "<h3>" ++ skipn 4 l ++ js "</h3>"
  else if is_prefix (js "## ") l then js "<h2>" ++ skipn 3 l ++ js "</h2>"
  else if is_prefix (js "# ") l then js "<h1>" ++ skipn 2 l ++ js "</h1>"
  else l.

Definition h3_tag : jsstring -> jsstring := heading_tag (js "## ") (js "<h3>") (js "</h3>").

Definition h2_tag : jsstring -> jsstring := heading_tag (js "# ") (js "<h2>") (js "</h2>").

Definition h1_tag : jsstring -> jsstring := heading_tag (js " ") (js "<h1>") (js "</h1>").

(** ** List items *)

(** A list-item element, and lines of them, each ended by a line feed. *)
Definition li (t : jsstring) : jsstring := js "<li>" ++ t ++ js "</li>".

Definition li_lines (ts : list jsstring) : jsstring :=
  flat_map (fun t => li t ++ [10]) ts.

(** One iteration of the list pattern. *)
Definition item_re : regex :=
  Group 1 (Seq (Lit (js "<li>"))
               (Seq (Star true (Chr isDot))
                    (Seq (Lit (js "</li>")) (Opt (Chr (N.eqb 10)))))).

(** The continuation [k], at this position, whatever the captures are,
    ends the match with [final] left over. *)
Definition accepts (k : cont) (bef rest final : jsstring) : Prop :=
  forall cs, exists e, k (MState bef rest cs) = Some e /\ after e = final.

(** A text as an alternation: before each run of list-item lines a text
    without a list-item tag, and such a text at the end. *)
Definition run_block : Type := (jsstring * (jsstring * list jsstring))%type.

Fixpoint runs_text (blocks : list run_block) (post : jsstring) : jsstring :=
  match blocks with
  | [] => post
  | (pre, (t, ts)) :: blocks' => pre ++ li_lines (t :: ts) ++ runs_text blocks' post
  end.

Fixpoint runs_grouped (blocks : list run_block) (post : jsstring) : jsstring :=
  match blocks with
  | [] => post
  | (pre, (t, ts)) :: blocks' =>
      pre ++ js "<ul>" ++ li_lines (t :: ts) ++ js "</ul>" ++ runs_grouped blocks' post
  end.

(** The texts between the runs have no list-item tag; the elements of a
    run are lines. *)
Definition run_block_ok (b : run_block) : Prop :=
  no_li_tag (fst b) = true /\ one_line (fst (snd b)) /\ Forall one_line (snd (snd b)).

(** The runs are maximal: there is text between two of them. *)
Definition separated (blocks : list run_block) : Prop :=
  Forall (fun b => fst b <> []) (tl blocks).

(** A list item of the source text: its marker and its text. *)
Inductive list_marker : Type :=
| Bullet
| Numbered (digits : jsstring).

Definition item : Type := (list_marker * jsstring)%type.

(** The source line of an item, its line after the bullet stage, and its
    line after the numbered stage. *)
Definition item_line (it : item) : jsstring :=
  match fst it with
  | Bullet => js "* " ++ snd it
  | Numbered ds => ds ++ js ". " ++ snd it
  end.

Definition item_bulleted (it : item) : jsstring :=
  match fst it with
  | Bullet => li (snd it)
  | Numbered ds => ds ++ js ". " ++ snd it
  end.

Definition item_element (it : item) : jsstring := li (snd it).

(** An item as the list stage needs it: its text is not empty and has no
    line terminator; a number is a non-empty run of digits. *)
Definition item_line_ok (it : item) : Prop :=
  snd it <> [] /\
  one_line (snd it) /\
  match fst it with
  | Bullet => True
  | Numbered ds => ds <> [] /\ Forall (fun c => isDigit c = true) ds
  end.

(** An item that the inline stage leaves alone as well: its text has no
    asterisk and no backtick either. *)
Definition item_ok (it : item) : Prop :=
  snd it <> [] /\
  Forall (fun c => isLineTerminator c = false /\ c <> 42 /\ c <> 96) (snd it) /\
  match fst it with
  | Bullet => True
  | Numbered ds => ds <> [] /\ Forall (fun c => isDigit c = true) ds
  end.

(** Lines, one per element, separated by line feeds. *)
Definition doc {A} (g : A -> jsstring) (items : list A) (last : A) : jsstring :=
  flat_map (fun a => g a ++ [10]) items ++ g last.

(** ** Blocks of a text *)

(** A block between blank lines: no blank line inside, and no line feed at
    its end (which would make the blank line after it start earlier). *)
Definition block_text (p : jsstring) : Prop :=
  clean (opens_with_pair 10 10) None p = true /\ last_of None p <> Some 10.

(** What the rule stage does to a line. *)
Definition hr_line (l : jsstring) : jsstring :=
  if jseqb l (js "---") then js "<hr>" else l.

(** ** Occurrences *)

(** [String.prototype.includes]: the text [w] occurs in [s]. *)
Fixpoint occurs (w s : jsstring) : bool :=
  is_prefix w s || match s with [] => false | _ :: s' => occurs w s' end.

(** ** Paragraphs, block by block *)

(** A block of the text after the paragraph stage, written on the
    characters of the block and not through the patterns, to be compared
    with [wrap_para]: a block that starts with a less-than sign and one of
    [h], [l], [u], [o] or the bar (a heading or list tag), or with the
    placeholder name, is left as it is; a block of white space is dropped;
    any other block is put inside a paragraph tag, its text unchanged. *)
Definition starts_with_block_tag (b : jsstring) : bool :=
  match b with
  | a :: c :: _ => (a =? 60) && one_of (js "hluo|") c
  | _ => false
  end.

Definition literal_paragraph (b : jsstring) : jsstring :=
  if starts_with_block_tag b || is_prefix (js "__CODE_BLOCK_") b then b
  else if forallb isSpace b then []
  else js "<p>" ++ b ++ js "</p>".

(** ** Extensions and content stores *)



(** ** Texts with fences *)

(** A text in which the fences are set apart: a code unit of the text, or
    the fence of index [i] with its content. *)
Inductive piece : Type :=
| Plain (c : code_unit)
| Fence (i : nat) (code : jsstring).

Definition plain (s : jsstring) : list piece := map Plain s.

(** The text, each fence written by [tok]. *)
Definition fill (tok : nat -> jsstring -> jsstring) (x : list piece) : jsstring :=
  flat_map (fun p => match p with Plain c => [c] | Fence i code => tok i code end) x.

Definition fences_of (x : list piece) : list (nat * jsstring) :=
  flat_map (fun p => match p with Plain _ => [] | Fence i code => [(i, code)] end) x.

(** The three ways a fence is written: in the source, as its placeholder,
    and as its block. *)
Definition as_source (_ : nat) (code : jsstring) : jsstring :=
  js "```" ++ code ++ js "```".
Definition as_placeholder (i : nat) (_ : jsstring) : jsstring := placeholder i.
Definition as_block (_ : nat) (code : jsstring) : jsstring := code_block code.

(** The text of the placeholders, up to the index. *)
Definition placeholder_name : jsstring := js "__CODE_BLOCK_".

(** A stage edits the text around the fences: it replaces parts of the
    plain text by tags, which are not empty and have no code unit of the
    placeholder name, and it may drop plain text at the end. *)
Inductive edits : list piece -> list piece -> Prop :=
| edits_nil : edits [] []
| edits_keep p x x' : edits x x' -> edits (p :: x) (p :: x')
| edits_tag m tag x x' :
    tag <> [] -> Forall (fun c => one_of placeholder_name c = false) tag ->
    edits x x' -> edits (plain m ++ x) (plain tag ++ x')
| edits_drop m : edits (plain m) [].

(** The code units of a placeholder: those of its name, and digits. *)
Definition name_unit (c : code_unit) : bool := one_of placeholder_name c || isDigit c.

(** A position next to a code unit that is not one of a placeholder, or at
    an end of the text. *)
Definition outside_name (u v : jsstring) : Prop :=
  match v with c :: _ => name_unit c = false | [] => True end \/
  match rev u with c :: _ => name_unit c = false | [] => True end.

(** What a stage keeps: the fences, in their order, and the absence of the
    placeholder name from the text, however the fences are written. *)
Definition carried (x x' : list piece) : Prop :=
  fences_of x' = fences_of x /\
  forall tok a, occurs placeholder_name (a ++ fill tok x) = false ->
                occurs placeholder_name (a ++ fill tok x') = false.

(** ** Dollar signs in a block *)

(** The code units that make a replacement pattern of a dollar sign before
    them, when the pattern is a string: [$$], [$&], [$`] and [$']. *)
Definition after_dollar (d : code_unit) : bool :=
  (d =? 36) || (d =? 38) || (d =? 96) || (d =? 39).

(** A replacement text without a pattern: it stands for itself. *)
Fixpoint inert (t : jsstring) : bool :=
  match t with
  | [] => true
  | c :: t' =>
      negb ((c =? 36) && match t' with d :: _ => after_dollar d | [] => false end)
      && inert t'
  end.

(** The content of a fence has no dollar sign directly followed by a
    dollar sign, a backtick or one of the five reserved characters (whose
    entities start with an ampersand). *)
Definition makes_pattern (d : code_unit) : bool :=
  (d =? 36) || (d =? 96) || one_of (js "&<>" ++ [quot] ++ js "'") d.

Fixpoint no_dollar_pattern (s : jsstring) : bool :=
  match s with
  | [] => true
  | c :: s' =>
      negb ((c =? 36) && match s' with d :: _ => makes_pattern d | [] => false end)
      && no_dollar_pattern s'
  end.

(** ** List items and blocks in the output *)

(** The text [u] before a position ends a list item: it ends with
    [</li>], or with [</li>] and a line feed. *)
Definition item_end (u v : jsstring) : Prop :=
  is_prefix (rev (js "</li>")) (rev u) = true \/
  is_prefix (10 :: rev (js "</li>")) (rev u) = true.

(** The text made of the segments, with a block after each segment but
    the last. *)
Fixpoint interleave (segs blocks : list jsstring) : jsstring :=
  match segs with
  | [] => []
  | s :: segs' =>
      match blocks with
      | [] => s
      | b :: blocks' => s ++ b ++ interleave segs' blocks'
      end
  end.

(** The block of a fence, as the output has it: the content, trimmed and
    with its reserved characters escaped, inside the tags. *)
Definition fenced_block (code : jsstring) : jsstring :=
  js "<pre><code>" ++ flat_map escape_char (trim code) ++ js "</code></pre>".

Local Open Scope Z_scope.

(** * Properties *)

(** ** Strings *)

Lemma jseqb_eq (a b : jsstring) : jseqb a b = true <-> a = b.
Proof.
  revert b; induction a as [|x a IH]; intros [|y b]; simpl; split; try easy.
  - intros H. apply andb_prop in H as [Hx Hb].
    apply N.eqb_eq in Hx. apply IH in Hb. now subst.
  - intros H. injection H as -> ->. rewrite N.eqb_refl. now apply IH.
Qed.

Lemma jseqb_neq (a b : jsstring) : jseqb a b = false <-> a <> b.
Proof.
  rewrite <- jseqb_eq. destruct (jseqb a b); split; congruence.
Qed.

Lemma is_prefix_app (p s : jsstring) : is_prefix p (p ++ s) = true.
Proof. induction p as [|c p IH]; simpl; [easy|]. now rewrite N.eqb_refl. Qed.

Lemma is_prefix_spec (p s : jsstring) :
  is_prefix p s = true -> s = p ++ skipn (List.length p) s.
Proof.
  revert s; induction p as [|c p IH]; intros s H; simpl; [easy|].
  destruct s as [|d s]; simpl in H; [easy|].
  apply andb_prop in H as [Hc Hp]. apply N.eqb_eq in Hc. subst d.
  simpl. f_equal. now apply IH.
Qed.

Lemma is_prefix_split (p s : jsstring) :
  is_prefix p s = true -> exists rest, s = p ++ rest.
Proof. intros H. eexists. now apply is_prefix_spec. Qed.

Lemma skipn_app_exact {A} (a b : list A) : skipn (List.length a) (a ++ b) = b.
Proof. induction a as [|x a IH]; [reflexivity|exact IH]. Qed.

(** [find_first] splits the string around an occurrence of the pattern. *)
Lemma find_first_spec (pat bef s pre post : jsstring) :
  find_first pat bef s = Some (pre, post) ->
  rev bef ++ s = pre ++ pat ++ post.
Proof.
  revert bef; induction s as [|c s IH]; intros bef; simpl.
  - destruct (is_prefix pat []) eqn:E; [|easy].
    intros H; injection H as <- <-.
    apply is_prefix_spec in E. now rewrite <- E.
  - destruct (is_prefix pat (c :: s)) eqn:E.
    + intros H; injection H as <- <-.
      apply is_prefix_spec in E. now rewrite <- E.
    + intros H. apply IH in H. simpl in H. now rewrite <- app_assoc in H.
Qed.

(** ** Slugs and deep links *)

Lemma slug_stem (file : jsstring) :
  extension_only file = true -> file = slug file ++ js ".md".
Proof.
  unfold extension_only, slug, replace_str.
  destruct (find_first (js ".md") [] file) as [[pre post]|] eqn:E; [|easy].
  destruct post; [|easy]. intros _.
  apply find_first_spec in E. simpl in E. rewrite E. simpl.
  now rewrite !app_nil_r.
Qed.

Lemma slug_injective (f1 f2 : jsstring) :
  extension_only f1 = true -> extension_only f2 = true ->
  slug f1 = slug f2 -> f1 = f2.
Proof.
  intros H1 H2 E. rewrite (slug_stem f1 H1), (slug_stem f2 H2). now rewrite E.
Qed.

(** C9, as stated, fails: two distinct file names, both with the extension
    [.md], have the same slug, because [replace] removes the first
    occurrence of [.md], wherever it is. *)
Lemma slug_not_injective :
  NoDup (map filename colliding_registry) /\
  ~ NoDup (map slug (map filename colliding_registry)).
Proof.
  split.
  - repeat constructor; simpl; intuition; discriminate.
  - intros H. inversion H as [|x l Hin _]; subst. apply Hin. now left.
Qed.

(** C9 (amended): in a registry whose file names are unique and contain
    [.md] only as their final suffix, the slugs are unique. *)
Theorem slug_unique_in_registry (posts : list post) :
  Forall (fun p => extension_only (filename p) = true) posts ->
  NoDup (map filename posts) ->
  NoDup (map slug (map filename posts)).
Proof.
  induction posts as [|p posts IH]; simpl; intros Hext Hnd; [constructor|].
  inversion Hext as [|? ? Hp Hposts]; subst.
  inversion Hnd as [|? ? Hnotin Hnd']; subst.
  constructor; [|now apply IH].
  intros Hin. apply Hnotin.
  rewrite map_map in Hin. apply in_map_iff in Hin as [q [Hq Hinq]].
  apply in_map_iff. exists q. split; [|easy].
  apply slug_injective; [| |easy].
  - rewrite Forall_forall in Hposts. now apply Hposts.
  - easy.
Qed.

Lemma slug_unique_in_registry_witness :
  NoDup (map slug (map filename blogPosts)).
Proof.
  apply (slug_unique_in_registry blogPosts).
  - repeat constructor.
  - repeat constructor; simpl; intuition; discriminate.
Defined.




(** ** Sorting *)

Section SortFacts.
Context {A : Type}.
Variable comparefn : A -> A -> number.

Lemma insert_perm (x : A) (l : list A) :
    Permutation (x :: l) (insert comparefn x l).
Proof.
    induction l as [|y l IH]; simpl; [reflexivity|].
    destruct (SortCompare comparefn x y <=? 0); [reflexivity|].
    rewrite perm_swap. now constructor.
Qed.

Lemma sort_perm (l : list A) : Permutation l (sort comparefn l).
Proof.
    induction l as [|x l IH]; simpl; [constructor|].
    rewrite <- insert_perm. now constructor.
Qed.

  (** A comparator that orders by a key, largest first, on the elements
      that satisfy [valid]. *)
Variable key : A -> Z.
Variable valid : A -> Prop.
Hypothesis comparefn_key :
    forall x y, valid x -> valid y -> SortCompare comparefn x y = key y - key x.

Let descending (a b : A) : Prop := key b <= key a.

Lemma insert_sorted (x : A) (l : list A) :
    valid x -> Forall valid l ->
    StronglySorted descending l -> StronglySorted descending (insert comparefn x l).
Proof.
    intros Hx. induction l as [|y l IH]; simpl; intros Hl Hs.
    - repeat constructor.
    - inversion Hl as [|? ? Hy Hl']; subst.
      inversion Hs as [|? ? Hs' Hall]; subst.
      rewrite (comparefn_key x y Hx Hy).
      destruct (key y - key x <=? 0) eqn:E.
      + apply Z.leb_le in E. constructor; [easy|].
        constructor; [unfold descending; lia|].
        eapply Forall_impl; [|exact Hall]. unfold descending. intros; lia.
      + apply Z.leb_gt in E. constructor; [now apply IH|].
        eapply Permutation_Forall; [apply insert_perm|].
        constructor; [unfold descending; lia|easy].
Qed.

Lemma sort_sorted (l : list A) :
    Forall valid l -> StronglySorted descending (sort comparefn l).
Proof.
    induction l as [|x l IH]; simpl; intros Hl; [constructor|].
    inversion Hl; subst. apply insert_sorted; [easy| |now apply IH].
    eapply Permutation_Forall; [apply sort_perm|easy].
Qed.

  (** Sorting a sorted array changes nothing. *)
Lemma sort_fixed (l : list A) :
    Forall valid l -> StronglySorted descending l -> sort comparefn l = l.
Proof.
    induction l as [|x l IH]; simpl; intros Hl Hs; [reflexivity|].
    inversion Hl as [|? ? Hx Hl']; subst.
    inversion Hs as [|? ? Hs' Hall]; subst.
    rewrite (IH Hl' Hs'). destruct l as [|y l]; [reflexivity|]. simpl.
    inversion Hl'; subst. inversion Hall; subst.
    rewrite (comparefn_key x y) by easy.
    replace (key y - key x <=? 0) with true; [reflexivity|].
    symmetry. apply Z.leb_le. unfold descending in *. lia.
Qed.
End SortFacts.

(** *** Time values follow the calendar *)

Lemma DayFromYear_next (y : Z) : DayFromYear (y + 1) = DayFromYear y + days_in_year y.
Proof.
  unfold DayFromYear, days_in_year, is_leap.
  destruct (y mod 4 =? 0) eqn:E4; destruct (y mod 100 =? 0) eqn:E100;
    destruct (y mod 400 =? 0) eqn:E400; cbn [andb orb negb];
    rewrite ?Z.eqb_eq, ?Z.eqb_neq in *; Z.to_euclidean_division_equations; lia.
Qed.

Lemma DayFromYear_mono (y y' : Z) : y <= y' -> DayFromYear y <= DayFromYear y'.
Proof. unfold DayFromYear. intros H. Z.to_euclidean_division_equations. lia. Qed.

Lemma days_in_month_bounds (y m : Z) : 28 <= days_in_month y m <= 31.
Proof.
  unfold days_in_month.
  destruct (m =? 2); [destruct (is_leap y); lia|].
  destruct ((m =? 4) || (m =? 6) || (m =? 9) || (m =? 11)); lia.
Qed.

Lemma days_before_mono (y : Z) (k k' : nat) :
  (k <= k')%nat -> days_before y k <= days_before y k'.
Proof.
  induction 1 as [|k' _ IH]; [lia|].
  cbn [days_before]. pose proof (days_in_month_bounds y (Z.of_nat (S k'))). lia.
Qed.

Lemma days_before_year (y : Z) : days_before y 12 = days_in_year y.
Proof.
  unfold days_in_year. cbn. unfold days_in_month. cbn. destruct (is_leap y); reflexivity.
Qed.

Lemma days_before_month (y m : Z) :
  1 <= m -> days_before y (Z.to_nat m) = days_before y (Z.to_nat (m - 1)) + days_in_month y m.
Proof.
  intros H. replace (Z.to_nat m) with (S (Z.to_nat (m - 1))) by lia.
  cbn [days_before]. do 2 f_equal. lia.
Qed.

(** An earlier day of the calendar has a smaller time value. *)
Lemma time_of_earlier (y m d y' m' d' : Z) :
  valid_day (y, m, d) -> valid_day (y', m', d') -> earlier (y, m, d) (y', m', d') ->
  time_of y m d < time_of y' m' d'.
Proof.
  unfold valid_day, earlier, time_of.
  intros [Hm Hd] [Hm' Hd'] H.
  pose proof (days_before_month y m (proj1 Hm)) as Hmonth.
  assert (days_before y (Z.to_nat (m - 1)) + d
          <= days_before y (Z.to_nat m)) by lia.
  destruct H as [H|[<- [H|[<- H]]]].
  - pose proof (days_before_mono y (Z.to_nat m) 12 ltac:(lia)).
    pose proof (days_before_year y).
    pose proof (DayFromYear_next y).
    pose proof (DayFromYear_mono (y + 1) y' ltac:(lia)).
    pose proof (days_before_mono y' 0 (Z.to_nat (m' - 1)) ltac:(lia)).
    cbn [days_before] in *. lia.
  - pose proof (days_before_mono y (Z.to_nat m) (Z.to_nat (m' - 1)) ltac:(lia)). lia.
  - lia.
Qed.

Lemma earlier_total (a b : Z * Z * Z) : earlier a b \/ a = b \/ earlier b a.
Proof.
  destruct a as [[y m] d], b as [[y' m'] d']. unfold earlier.
  destruct (Z.lt_trichotomy y y') as [?|[->|?]]; [lia| |lia].
  destruct (Z.lt_trichotomy m m') as [?|[->|?]]; [lia| |lia].
  destruct (Z.lt_trichotomy d d') as [?|[->|?]]; [lia| |lia].
  right. now left.
Qed.

Lemma calendar_valid (dateStr : jsstring) (c : Z * Z * Z) :
  calendar dateStr = Some c -> valid_day c.
Proof.
  unfold calendar.
  do 10 (destruct dateStr as [|? dateStr]; [discriminate|]).
  destruct dateStr; [|discriminate].
  destruct (number_of _) as [y|]; [|discriminate].
  destruct (number_of _) as [m|]; [|discriminate].
  destruct (number_of _) as [d|]; [|discriminate].
  match goal with |- (if ?b then _ else _) = _ -> _ => destruct b eqn:E end;
    [|discriminate].
  intros [= <-]. repeat (apply andb_prop in E as [E ?]).
  unfold valid_day. rewrite !Z.leb_le in *. lia.
Qed.

Lemma newest_first_time (a b : post) :
  dated a -> dated b -> SortCompare newest_first a b = time b - time a.
Proof.
  unfold dated, SortCompare, newest_first, time, minus.
  destruct (Date (date a)), (Date (date b)); easy.
Qed.

(** Newer or the same: not of an earlier day of the calendar. *)
Lemma newer_or_same_calendar (a b : post) (ca cb : Z * Z * Z) :
  calendar (date a) = Some ca -> calendar (date b) = Some cb ->
  (newer_or_same a b <-> ~ earlier ca cb).
Proof.
  intros Ha Hb. unfold newer_or_same, time, Date. rewrite Ha, Hb.
  pose proof (calendar_valid _ _ Ha) as Va. pose proof (calendar_valid _ _ Hb) as Vb.
  destruct ca as [[y m] d], cb as [[y' m'] d'].
  split.
  - intros Hle He. pose proof (time_of_earlier _ _ _ _ _ _ Va Vb He). lia.
  - intros Hne. destruct (earlier_total (y, m, d) (y', m', d')) as [H|[H|H]].
    + contradiction.
    + injection H as -> -> ->. lia.
    + pose proof (time_of_earlier _ _ _ _ _ _ Vb Va H). lia.
Qed.

Lemma sorted_registry_newest_first (posts : list post) :
  Forall dated posts -> StronglySorted newer_or_same (sort newest_first posts).
Proof. apply (sort_sorted newest_first time dated newest_first_time). Qed.

Lemma sorted_registry_fixed (posts : list post) :
  Forall dated posts -> StronglySorted newer_or_same posts ->
  sort newest_first posts = posts.
Proof. apply (sort_fixed newest_first time dated newest_first_time). Qed.

Lemma sort_dated (posts : list post) :
  Forall dated posts -> Forall dated (sort newest_first posts).
Proof. apply Permutation_Forall, sort_perm. Qed.

(** ** The registry under the events *)

Lemma loadPost_registry fetch p pg : registry (loadPost fetch p pg) = registry pg.
Proof.
  unfold loadPost. destruct (fetch _) as [|status [markdown|]]; [easy| |easy].
  now destruct (markdownToHtml markdown).
Qed.

Lemma loadPost_container fetch p pg :
  forall items, container (loadPost fetch p pg) <> PostList items.
Proof.
  intros items. unfold loadPost.
  destruct (fetch _) as [|status [markdown|]]; [easy| |easy].
  now destruct (markdownToHtml markdown).
Qed.

(** Every handler either leaves the registry alone and shows no list, or
    sorts the registry and shows it. *)
Lemma handle_cases fetch pg e :
  (registry (handle fetch pg e) = registry pg /\
   forall items, container (handle fetch pg e) <> PostList items) \/
  handle fetch pg e = loadBlogPosts pg.
Proof.
  assert (Hcheck : forall hash,
    (registry (checkForDirectLink fetch hash pg) = registry pg /\
     forall items, container (checkForDirectLink fetch hash pg) <> PostList items) \/
    checkForDirectLink fetch hash pg = loadBlogPosts pg).
  { intros hash. unfold checkForDirectLink.
    destruct (skipn 1 hash) as [|c h]; [now right|].
    destruct (find _ _) as [p|]; [left|now right].
    split; [apply loadPost_registry|apply loadPost_container]. }
  destruct e as [fragment|fragment|p|]; simpl.
  - apply Hcheck.
  - apply Hcheck.
  - left. split; [apply loadPost_registry|apply loadPost_container].
  - now right.
Qed.

(** Once the registry is sorted, no event changes it. *)
Lemma run_sorted_registry fetch es pg :
  Forall dated (registry pg) -> StronglySorted newer_or_same (registry pg) ->
  registry (run fetch pg es) = registry pg.
Proof.
  revert pg. induction es as [|e es IH]; intros pg Hd Hs; [reflexivity|].
  unfold run in *. simpl.
  assert (E : registry (handle fetch pg e) = registry pg).
  { destruct (handle_cases fetch pg e) as [[H _]|H]; [easy|].
    rewrite H. simpl. now apply sorted_registry_fixed. }
  rewrite IH; rewrite E; easy.
Qed.

(** While the events run, the registry is a permutation of the original
    one, and a list on display is the registry, sorted. *)
Lemma run_invariant fetch es pg :
  Forall dated (registry pg) ->
  Permutation (registry pg) (registry (run fetch pg es)) /\
  (es <> [] -> forall items,
     container (run fetch pg es) = PostList items ->
     items = registry (run fetch pg es) /\ StronglySorted newer_or_same items).
Proof.
  intros Hd. induction es as [|e es IH] using rev_ind; [easy|].
  unfold run in *. rewrite fold_left_app. simpl.
  destruct IH as [Hperm _].
  set (pg' := fold_left (handle fetch) es pg) in *.
  assert (Hd' : Forall dated (registry pg'))
    by (eapply Permutation_Forall; [exact Hperm|easy]).
  destruct (handle_cases fetch pg' e) as [[Hreg Hcont]|Hload].
  - rewrite Hreg. split; [easy|]. intros _ items Hitems. now apply Hcont in Hitems.
  - rewrite Hload. simpl. split.
    + rewrite Hperm. apply sort_perm.
    + intros _ items Hitems. injection Hitems as <-.
      split; [reflexivity|now apply sorted_registry_newest_first].
Qed.

(** C6: after any event, a list on display holds the registry entries
    ordered by date, newest first: no entry comes before one of a later day
    of the calendar; two posts dated 2025-08-27 and 2025-08-01 are shown in
    this order. *)
Theorem list_view_newest_first (fetch : content_store) (pg : page)
  (es : list event) (items : list post) :
  Forall dated (registry pg) ->
  es <> [] ->
  container (run fetch pg es) = PostList items ->
  Permutation (registry pg) items /\
  StronglySorted newer_or_same items /\
  (forall a b ca cb,
      calendar (date a) = Some ca -> calendar (date b) = Some cb ->
      (newer_or_same a b <-> ~ earlier ca cb)) /\
  (forall a b, date a = js "2025-08-27" -> date b = js "2025-08-01" ->
               Permutation [a; b] items -> items = [a; b]).
Proof.
  intros Hd Hes Hitems.
  destruct (run_invariant fetch es pg Hd) as [Hperm Hshown].
  destruct (Hshown Hes items Hitems) as [Hreg Hsorted].
  split; [now rewrite Hreg|]. split; [easy|].
  split; [exact newer_or_same_calendar|].
  intros a b Ha Hb Hab.
  apply Permutation_length_2_inv in Hab as [->| ->]; [reflexivity|].
  exfalso. inversion Hsorted as [|? ? _ Hall]; subst.
  inversion Hall as [|? ? Hba _]; subst.
  unfold newer_or_same, time in Hba. rewrite Ha, Hb in Hba.
  vm_compute in Hba. now apply Hba.
Qed.

Lemma list_view_newest_first_witness :
  container (run (fun _ => Rejected) (Page [august_1st; august_27th] (PostList []))
                 [DOMContentLoaded None])
  = PostList [august_27th; august_1st] /\
  StronglySorted newer_or_same [august_27th; august_1st].
Proof.
  split; [reflexivity|].
  refine (proj1 (proj2 (list_view_newest_first (fun _ => Rejected)
            (Page [august_1st; august_27th] (PostList []))
            [DOMContentLoaded None] [august_27th; august_1st] _ _ eq_refl))).
  - repeat constructor; discriminate.
  - discriminate.
Defined.

(** C10: [loadBlogPosts] sorts the global array itself: the list shown is
    the registry, the registry holds the same entries as before, newest
    first, and stays in this order under all later events. *)
Theorem loadBlogPosts_sorts_in_place (fetch : content_store) (pg : page) :
  Forall dated (registry pg) ->
  registry (loadBlogPosts pg) = sort newest_first (registry pg) /\
  container (loadBlogPosts pg) = PostList (registry (loadBlogPosts pg)) /\
  Permutation (registry pg) (registry (loadBlogPosts pg)) /\
  StronglySorted newer_or_same (registry (loadBlogPosts pg)) /\
  (forall es, registry (run fetch (loadBlogPosts pg) es) = registry (loadBlogPosts pg)).
Proof.
  intros Hd. simpl.
  repeat split.
  - apply sort_perm.
  - now apply sorted_registry_newest_first.
  - intros es. apply (run_sorted_registry fetch es (loadBlogPosts pg)); simpl.
    + now apply sort_dated.
    + now apply sorted_registry_newest_first.
Qed.

Lemma loadBlogPosts_sorts_in_place_witness :
  registry (loadBlogPosts (Page [august_1st; august_27th] (PostList [])))
  = [august_27th; august_1st] /\
  forall es,
    registry (run (fun _ => Rejected)
                  (loadBlogPosts (Page [august_1st; august_27th] (PostList []))) es)
    = registry (loadBlogPosts (Page [august_1st; august_27th] (PostList []))).
Proof.
  split; [reflexivity|].
  refine (proj2 (proj2 (proj2 (proj2 (loadBlogPosts_sorts_in_place (fun _ => Rejected)
            (Page [august_1st; august_27th] (PostList [])) _))))).
  repeat constructor; discriminate.
Defined.

(** ** The loader *)

(** C4 fails for a response with an error status: [loadPost] shows the
    error message when [fetch] or [text()] rejects, but it never looks
    at the status, and renders the body of a 404 response as a post. *)
Theorem loadPost_ignores_status (p : post) (pg : page) :
  container (loadPost (fun _ => Rejected) p pg) = ErrorMessage /\
  (forall status, container (loadPost (fun _ => Resolved status None) p pg) = ErrorMessage) /\
  container (loadPost (fun _ => Resolved 404 (Some (js "Not Found"))) p pg)
  = Article (js "<p>Not Found</p>") /\
  (forall status body,
      loadPost (fun _ => Resolved status (Some body)) p pg
      = loadPost (fun _ => Resolved 200 (Some body)) p pg).
Proof. repeat split. Qed.

(** ** The matcher *)

Local Open Scope N_scope.
#[local] Arguments N.eqb : simpl never.

Lemma clear_caps_nil (s : mstate) : clear_caps [] s = s.
Proof.
  destruct s as [bef aft cs]. unfold clear_caps. simpl. f_equal.
  induction cs as [|c cs IH]; simpl; congruence.
Qed.

Lemma rmatch_Lit (l : jsstring) (k : cont) (bef aft : jsstring) cs :
  rmatch (Lit l) k (MState bef (l ++ aft) cs) = k (MState (rev l ++ bef) aft cs).
Proof.
  revert bef. induction l as [|c l IH]; intros bef; simpl; [reflexivity|].
  rewrite N.eqb_refl, IH. now rewrite <- app_assoc.
Qed.

Lemma rmatch_Lit_fail (l : jsstring) (k : cont) (s : mstate) :
  is_prefix l (after s) = false -> rmatch (Lit l) k s = None.
Proof.
  destruct s as [bef aft cs]. simpl. revert bef aft.
  induction l as [|c l IH]; intros bef aft; simpl; [discriminate|].
  destruct aft as [|d aft]; [reflexivity|].
  destruct (c =? d) eqn:E; simpl; [|reflexivity].
  intros H. now apply IH.
Qed.

Lemma star_greedy_chars p k n bef aft cs :
  (List.length aft <= n)%nat ->
  star_loop (rmatch (Chr p)) [] true k n (MState bef aft cs)
  = greedy_chars p k bef aft cs.
Proof.
  revert bef aft. induction n as [|n IH]; intros bef aft Hn.
  - destruct aft; [reflexivity|simpl in Hn; lia].
  - cbn [star_loop]. rewrite clear_caps_nil.
    destruct aft as [|c aft]; [reflexivity|].
    cbn [rmatch after before caps greedy_chars].
    destruct (p c); [|reflexivity].
    unfold progressed. cbn [after].
    replace (List.length aft <? List.length (c :: aft))%nat with true
      by (symmetry; apply Nat.ltb_lt; simpl; lia).
    rewrite IH by (simpl in Hn; lia). reflexivity.
Qed.

Lemma star_lazy_chars p k n bef aft cs :
  (List.length aft <= n)%nat ->
  star_loop (rmatch (Chr p)) [] false k n (MState bef aft cs)
  = lazy_chars p k bef aft cs.
Proof.
  revert bef aft. induction n as [|n IH]; intros bef aft Hn.
  - destruct aft; [|simpl in Hn; lia]. simpl.
    now destruct (k _).
  - cbn [star_loop]. rewrite clear_caps_nil.
    destruct aft as [|c aft].
    + simpl. now destruct (k _).
    + cbn [rmatch after before caps lazy_chars].
      destruct (k _); [reflexivity|].
      destruct (p c); [|reflexivity].
      unfold progressed. cbn [after].
      replace (List.length aft <? List.length (c :: aft))%nat with true
        by (symmetry; apply Nat.ltb_lt; simpl; lia).
      rewrite IH by (simpl in Hn; lia). reflexivity.
Qed.

Lemma rmatch_star_greedy p k bef aft cs :
  rmatch (Star true (Chr p)) k (MState bef aft cs) = greedy_chars p k bef aft cs.
Proof. simpl. now apply star_greedy_chars. Qed.

Lemma rmatch_star_lazy p k bef aft cs :
  rmatch (Star false (Chr p)) k (MState bef aft cs) = lazy_chars p k bef aft cs.
Proof. simpl. now apply star_lazy_chars. Qed.

(** The defining equations of the matcher. *)
Lemma rmatch_Seq r1 r2 k s : rmatch (Seq r1 r2) k s = rmatch r1 (rmatch r2 k) s.
Proof. reflexivity. Qed.

Lemma rmatch_Group i r k s :
  rmatch (Group i r) k s
  = rmatch r (fun s' => k (set_cap i (firstn (List.length (after s) - List.length (after s'))
                                            (after s)) s')) s.
Proof. reflexivity. Qed.

Lemma rmatch_Bol ml k s : rmatch (Bol ml) k s = if at_bol ml s then k s else None.
Proof. reflexivity. Qed.

Lemma rmatch_Eol ml k s : rmatch (Eol ml) k s = if at_eol ml s then k s else None.
Proof. reflexivity. Qed.

Lemma rmatch_Chr p k bef c aft cs :
  rmatch (Chr p) k (MState bef (c :: aft) cs)
  = if p c then k (MState (c :: bef) aft cs) else None.
Proof. reflexivity. Qed.

Lemma rmatch_Chr_nil p k bef cs : rmatch (Chr p) k (MState bef [] cs) = None.
Proof. reflexivity. Qed.

Lemma rmatch_Opt r k s :
  rmatch (Opt r) k s
  = match rmatch r (fun s' => if progressed s s' then k s' else None)
                 (clear_caps (groups r) s) with
    | Some e => Some e
    | None => k s
    end.
Proof. reflexivity. Qed.

(** A lazy or greedy run ends in a call of the continuation. *)
Lemma lazy_chars_continues p k bef aft cs e :
  lazy_chars p k bef aft cs = Some e ->
  exists bef' aft', k (MState bef' aft' cs) = Some e.
Proof.
  revert bef. induction aft as [|c aft IH]; intros bef; simpl.
  - destruct (k _) eqn:E; [|discriminate]. intros H; injection H as <-. eauto.
  - destruct (k _) eqn:E.
    + intros H; injection H as <-. eauto.
    + destruct (p c); [|discriminate]. apply IH.
Qed.

(** ** Replacement without a match *)

Lemma exec_from_none_here r bef aft sk :
  exec_from r bef aft sk = None -> match_here r bef aft = None.
Proof.
  destruct aft; simpl; destruct (match_here r bef _); congruence.
Qed.

Lemma replace_loop_unmatched r f bef aft sk :
  exec_from r bef aft sk = None -> replace_loop r f bef aft 0 = aft.
Proof.
  revert bef sk. induction aft as [|c aft IH]; intros bef sk H.
  - apply exec_from_none_here in H. simpl. now rewrite H.
  - pose proof (exec_from_none_here _ _ _ _ H) as Hm.
    simpl in H. rewrite Hm in H. simpl. rewrite Hm. f_equal. eauto.
Qed.

Lemma replace_fn_unmatched r f s : test r s = false -> replace_fn r f s = s.
Proof.
  unfold test, replace_fn. destruct (exec_from r [] s []) eqn:E; [discriminate|].
  intros _. now apply replace_loop_unmatched with (sk := []).
Qed.

Lemma replace_re_unmatched r t s : test r s = false -> replace_re r t s = s.
Proof. apply replace_fn_unmatched. Qed.

Lemma replace_loop_m_unmatched {S} r (f : mresult -> S -> result (jsstring * S))
  bef aft sk st :
  exec_from r bef aft sk = None -> replace_loop_m r f bef aft 0 st = Ok (aft, st).
Proof.
  revert bef sk. induction aft as [|c aft IH]; intros bef sk H.
  - apply exec_from_none_here in H. simpl. now rewrite H.
  - pose proof (exec_from_none_here _ _ _ _ H) as Hm.
    simpl in H. rewrite Hm in H. simpl. rewrite Hm.
    now rewrite (IH _ _ H).
Qed.

(** ** Totality of the renderer *)

Lemma rmatch_Lit_inv (l : jsstring) (k : cont) (s e : mstate) :
  rmatch (Lit l) k s = Some e ->
  exists aft', after s = l ++ aft' /\
               k (MState (rev l ++ before s) aft' (caps s)) = Some e.
Proof.
  destruct (is_prefix l (after s)) eqn:E.
  - apply is_prefix_spec in E. destruct s as [bef aft cs]. simpl in *.
    rewrite E at 1. rewrite rmatch_Lit. eauto.
  - rewrite rmatch_Lit_fail by easy. discriminate.
Qed.

(** Whenever the fence pattern matches, its group has captured a string:
    [code] is never [undefined] in the callback. *)
Lemma fence_capture (bef aft : jsstring) (res : mresult) :
  match_here fence_re bef aft = Some res ->
  exists code, lookup 1 (m_caps res) = Some code.
Proof.
  unfold match_here.
  destruct (rmatch fence_re Some (MState bef aft [])) as [e|] eqn:E; [|discriminate].
  intros H; injection H as <-. cbn [m_caps].
  unfold fence_re in E. cbn [rmatch] in E.
  change (rmatch (Lit (js "```")) (fun s1 =>
            star_loop (rmatch (Chr space_or_not)) [] false
              (fun s' => rmatch (Lit (js "```")) Some
                           (set_cap 1 (firstn (List.length (after s1) - List.length (after s'))
                                              (after s1)) s'))
              (List.length (after s1)) s1) (MState bef aft []) = Some e) in E.
  apply rmatch_Lit_inv in E as (aft1 & _ & E). cbn [after before caps] in E.
  rewrite star_lazy_chars in E by reflexivity.
  apply lazy_chars_continues in E as (bef' & aft' & E).
  apply rmatch_Lit_inv in E as (aft2 & _ & E).
  injection E as <-. cbn. eauto.
Qed.

Lemma fence_callback_ok (m : mresult) (st : fences) (code : jsstring) :
  lookup 1 (m_caps m) = Some code ->
  fence_callback m st
  = Ok (placeholder (codeIndex st),
        Fences (codeBlocks st ++ [code_block code]) (S (codeIndex st))).
Proof. unfold fence_callback. now intros ->. Qed.

Lemma extract_loop_total (aft bef : jsstring) (skip : nat) (st : fences) :
  exists out st', replace_loop_m fence_re fence_callback bef aft skip st = Ok (out, st').
Proof.
  revert bef skip st. induction aft as [|c aft IH]; intros bef skip st.
  - destruct skip as [|n]; cbn [replace_loop_m]; [|eauto].
    destruct (match_here fence_re bef []) as [res|] eqn:E; [|eauto].
    apply fence_capture in E as [code E].
    rewrite (fence_callback_ok _ _ _ E). cbn. eauto.
  - destruct skip as [|n]; cbn [replace_loop_m]; [|apply IH].
    destruct (match_here fence_re bef (c :: aft)) as [res|] eqn:E.
    + apply fence_capture in E as [code E].
      rewrite (fence_callback_ok _ _ _ E). cbn [bind fst snd].
      destruct (List.length (m_text res)) as [|n].
      * destruct (IH (c :: bef) 0%nat
                    (Fences (codeBlocks st ++ [code_block code]) (S (codeIndex st))))
          as (out & st' & ->).
        cbn. eauto.
      * destruct (IH (c :: bef) n
                    (Fences (codeBlocks st ++ [code_block code]) (S (codeIndex st))))
          as (out & st' & ->).
        cbn. eauto.
    + destruct (IH (c :: bef) 0%nat st) as (out & st' & ->). cbn. eauto.
Qed.

Lemma markdownToHtml_total (markdown : jsstring) :
  exists html, markdownToHtml markdown = Ok html.
Proof.
  unfold markdownToHtml, extract_fences.
  destruct (extract_loop_total markdown [] 0 (Fences [] 0)) as (out & st' & ->).
  cbn. eauto.
Qed.

Lemma unmatched_renders_paragraphs (markdown : jsstring) :
  unmatched markdown = true -> markdownToHtml markdown = Ok (paragraphs markdown).
Proof.
  unfold unmatched, patterns. cbn [forallb].
  rewrite !andb_true_iff, !negb_true_iff.
  intros ((Hfence & Hh3 & Hh2 & Hh1 & Hhr & Hb & Hi & Hc & Hbu & Hn & _) & Hl).
  unfold markdownToHtml, extract_fences.
  unfold test in Hfence.
  destruct (exec_from fence_re [] markdown []) eqn:E; [discriminate|].
  rewrite (replace_loop_m_unmatched _ _ _ _ _ _ E). cbn [bind fst snd codeBlocks restore].
  unfold process, headings, inline, list_items.
  rewrite (replace_re_unmatched h3_re), (replace_re_unmatched h2_re),
    (replace_re_unmatched h1_re), (replace_re_unmatched hr_re),
    (replace_re_unmatched bold_re), (replace_re_unmatched italic_re),
    (replace_re_unmatched inline_code_re), (replace_re_unmatched bullet_re),
    (replace_re_unmatched numbered_re) by assumption.
  unfold wrap_lists. now rewrite replace_fn_unmatched.
Qed.

(** ** Escaping *)

Lemma S_minus_self (n : nat) : (S n - n = 1)%nat.
Proof. lia. Qed.

Lemma match_here_Chr p bef c aft :
  match_here (Chr p) bef (c :: aft)
  = if p c then Some (MResult [c] [] aft) else None.
Proof.
  unfold match_here. cbn [rmatch after before caps].
  destruct (p c); [|reflexivity]. cbn [after caps].
  change (List.length (c :: aft)) with (S (List.length aft)).
  now rewrite S_minus_self.
Qed.

Lemma match_here_Chr_nil p bef : match_here (Chr p) bef [] = None.
Proof. reflexivity. Qed.

Lemma escape_callback (c : code_unit) :
  one_of (js "&<>" ++ [quot] ++ js "'") c = true ->
  to_string (get_property [c] escape_map) = escape_char c.
Proof.
  unfold escape_char, escape_map, quot. cbn.
  destruct (c =? 38) eqn:E38; [reflexivity|].
  destruct (c =? 60) eqn:E60; [reflexivity|].
  destruct (c =? 62) eqn:E62; [reflexivity|].
  destruct (c =? 34) eqn:E34; [reflexivity|].
  destruct (c =? 39) eqn:E39; [reflexivity|].
  discriminate.
Qed.

Lemma escape_char_other (c : code_unit) :
  one_of (js "&<>" ++ [quot] ++ js "'") c = false -> escape_char c = [c].
Proof.
  unfold escape_char, quot. cbn.
  destruct (c =? 38); [discriminate|].
  destruct (c =? 60); [discriminate|].
  destruct (c =? 62); [discriminate|].
  destruct (c =? 34); [discriminate|].
  destruct (c =? 39); [discriminate|].
  reflexivity.
Qed.

(** [escapeHtml] replaces each code unit on its own, in one pass. *)
Lemma escapeHtml_flat_map (text : jsstring) :
  escapeHtml text = flat_map escape_char text.
Proof.
  unfold escapeHtml, replace_fn.
  enough (H : forall bef,
             replace_loop escape_re
               (fun _ m => to_string (get_property (m_text m) escape_map)) bef text 0
             = flat_map escape_char text) by apply H.
  induction text as [|c text IH]; intros bef; [reflexivity|].
  cbn [replace_loop flat_map]. unfold escape_re at 1. rewrite match_here_Chr.
  destruct (one_of _ c) eqn:E.
  - cbn [m_text List.length]. rewrite (escape_callback c E). now rewrite IH.
  - rewrite (escape_char_other c E). cbn. now rewrite IH.
Qed.

Lemma escape_char_Forall (P : code_unit -> Prop) (c : code_unit) :
  Forall P (js "&amp;&lt;&gt;&quot;&#039;") -> P c -> Forall P (escape_char c).
Proof.
  intros HP Hc. unfold escape_char.
  rewrite Forall_forall in HP.
  repeat match goal with
         | |- context [if ?b then _ else _] => destruct b
         end;
    try (apply Forall_forall; intros x Hx; apply HP;
         vm_compute in Hx; vm_compute; tauto).
  now repeat constructor.
Qed.

(** What the entities are made of stays out of the escaped text, if it was
    not in the text. *)
Lemma escapeHtml_Forall (P : code_unit -> Prop) (text : jsstring) :
  Forall P (js "&amp;&lt;&gt;&quot;&#039;") -> Forall P text ->
  Forall P (escapeHtml text).
Proof.
  intros HP Ht. rewrite escapeHtml_flat_map.
  induction Ht as [|c text Hc Ht IH]; simpl; [constructor|].
  apply Forall_app. split; [now apply escape_char_Forall|easy].
Qed.

(** The escaped text has no reserved character but the ampersand of the
    entities; in particular no tag can start in it. *)
Lemma escapeHtml_no_lt (text : jsstring) :
  Forall (fun c => c <> 60) (escapeHtml text).
Proof.
  rewrite escapeHtml_flat_map.
  induction text as [|c text IH]; simpl; [constructor|].
  apply Forall_app. split; [|easy].
  unfold escape_char.
  destruct (c =? 38); [repeat constructor; discriminate|].
  destruct (c =? 60) eqn:E; [repeat constructor; discriminate|].
  destruct (c =? 62); [repeat constructor; discriminate|].
  destruct (c =? 34); [repeat constructor; discriminate|].
  destruct (c =? 39); [repeat constructor; discriminate|].
  repeat constructor. now apply N.eqb_neq.
Qed.

Lemma dropWhile_Forall (P : code_unit -> Prop) p (s : jsstring) :
  Forall P s -> Forall P (dropWhile p s).
Proof.
  induction 1 as [|c s Hc Hs IH]; simpl; [constructor|].
  destruct (p c); [easy|now constructor].
Qed.

Lemma trim_Forall (P : code_unit -> Prop) (s : jsstring) :
  Forall P s -> Forall P (trim s).
Proof.
  intros H. unfold trim.
  apply Forall_rev, dropWhile_Forall, Forall_rev, dropWhile_Forall, H.
Qed.

(** A template without a dollar sign stands for itself. *)
Lemma GetSubstitution_plain m matched pre post cs (t : jsstring) :
  Forall (fun c => c <> 36) t -> GetSubstitution m matched pre post cs t = t.
Proof.
  induction 1 as [|c t Hc Ht IH]; [reflexivity|].
  cbn [GetSubstitution].
  apply N.eqb_neq in Hc. rewrite Hc. cbn [negb]. now rewrite IH.
Qed.

(** ** Replacement at a match *)

Lemma firstn_app_minus {A} (xs ys : list A) :
  firstn (List.length (xs ++ ys) - List.length ys) (xs ++ ys) = xs.
Proof.
  rewrite length_app.
  replace (List.length xs + List.length ys - List.length ys)%nat
    with (List.length xs + 0)%nat by lia.
  rewrite firstn_app_2. simpl. apply app_nil_r.
Qed.

Lemma firstn_app_minus3 {A} (a b c r : list A) :
  firstn (List.length (a ++ b ++ c ++ r) - List.length r) (a ++ b ++ c ++ r)
  = a ++ b ++ c.
Proof.
  rewrite (app_assoc b c r), (app_assoc a (b ++ c) r), firstn_app_minus.
  reflexivity.
Qed.

Lemma firstn_app_minus4 {A} (a b c : list A) (d : A) (r : list A) :
  firstn (List.length (a ++ b ++ c ++ d :: r) - List.length r) (a ++ b ++ c ++ d :: r)
  = a ++ b ++ c ++ [d].
Proof.
  replace (a ++ b ++ c ++ d :: r) with ((a ++ b ++ c ++ [d]) ++ r)
    by (now rewrite <- !app_assoc).
  apply firstn_app_minus.
Qed.

Lemma replace_loop_skip r f (xs bef aft : jsstring) :
  replace_loop r f bef (xs ++ aft) (List.length xs)
  = replace_loop r f (rev xs ++ bef) aft 0.
Proof.
  revert bef. induction xs as [|c xs IH]; intros bef; [reflexivity|].
  cbn [app List.length replace_loop]. rewrite IH.
  cbn [rev]. now rewrite <- app_assoc.
Qed.

Lemma replace_loop_match r f (bef txt aft : jsstring) (res : mresult) :
  txt <> [] ->
  match_here r bef (txt ++ aft) = Some res ->
  m_text res = txt ->
  replace_loop r f bef (txt ++ aft) 0
  = f (rev bef) res ++ replace_loop r f (rev txt ++ bef) aft 0.
Proof.
  intros Hne Hm Htxt. destruct txt as [|c xs]; [congruence|].
  cbn [app replace_loop]. cbn [app] in Hm. rewrite Hm, Htxt.
  cbn [List.length]. rewrite replace_loop_skip.
  cbn [rev]. now rewrite <- app_assoc.
Qed.

Lemma replace_loop_m_skip {S} r (f : mresult -> S -> result (jsstring * S))
  (xs bef aft : jsstring) (st : S) :
  replace_loop_m r f bef (xs ++ aft) (List.length xs) st
  = replace_loop_m r f (rev xs ++ bef) aft 0 st.
Proof.
  revert bef. induction xs as [|c xs IH]; intros bef; [reflexivity|].
  cbn [app List.length replace_loop_m]. rewrite IH.
  cbn [rev]. now rewrite <- app_assoc.
Qed.

Lemma replace_loop_m_match {S} r (f : mresult -> S -> result (jsstring * S))
  (bef txt aft : jsstring) (res : mresult) (st st' : S) (out : jsstring) :
  txt <> [] ->
  match_here r bef (txt ++ aft) = Some res ->
  m_text res = txt ->
  f res st = Ok (out, st') ->
  replace_loop_m r f bef (txt ++ aft) 0 st
  = (q <- replace_loop_m r f (rev txt ++ bef) aft 0 st' ;;
     Ok (out ++ fst q, snd q)).
Proof.
  intros Hne Hm Htxt Hf. destruct txt as [|c xs]; [congruence|].
  cbn [app replace_loop_m]. cbn [app] in Hm. rewrite Hm, Htxt, Hf.
  cbn [List.length bind fst snd]. rewrite replace_loop_m_skip.
  cbn [rev]. now rewrite <- app_assoc.
Qed.

(** ** Positions where a pattern cannot match *)

Lemma match_here_Lit_first (l : jsstring) (r : regex) (bef aft : jsstring) :
  is_prefix l aft = false -> match_here (Seq (Lit l) r) bef aft = None.
Proof.
  intros H. unfold match_here. cbn [rmatch].
  now rewrite rmatch_Lit_fail.
Qed.

Lemma match_here_Bol_first (r : regex) (bef aft : jsstring) :
  at_bol true (MState bef aft []) = false ->
  match_here (Seq (Bol true) r) bef aft = None.
Proof. intros H. unfold match_here. cbn [rmatch]. now rewrite H. Qed.

Lemma match_here_Bol_Lit (l : jsstring) (r : regex) (bef aft : jsstring) :
  is_prefix l aft = false ->
  match_here (Seq (Bol true) (Seq (Lit l) r)) bef aft = None.
Proof.
  intros H. unfold match_here. cbn [rmatch].
  destruct (at_bol true _); [|reflexivity].
  now rewrite rmatch_Lit_fail.
Qed.

Lemma clean_app h prev (a b : jsstring) :
  clean h prev (a ++ b) = clean h prev a && clean h (last_of prev a) b.
Proof.
  revert prev. induction a as [|c a IH]; intros prev; [reflexivity|].
  cbn [app clean]. rewrite IH, andb_assoc. f_equal. f_equal.
  unfold last_of. cbn [rev].
  destruct (rev a) as [|d ra]; reflexivity.
Qed.

(** Code units that never open a match. *)
Lemma clean_by_current h (ok : code_unit -> bool) prev (s : jsstring) :
  (forall p c, ok c = true -> h p c = false) ->
  Forall (fun c => ok c = true) s -> clean h prev s = true.
Proof.
  intros Hh Hs. revert prev.
  induction Hs as [|c s Hc Hs IH]; intros prev; [reflexivity|].
  cbn [clean]. now rewrite (Hh prev c Hc), IH.
Qed.

(** Code units after which no match opens. *)
Lemma clean_by_previous h (safe : code_unit -> bool) prev (s : jsstring) :
  (forall p c, safe p = true -> h (Some p) c = false) ->
  Forall (fun c => safe c = true) s ->
  match s with c :: _ => h prev c = false | [] => True end ->
  clean h prev s = true.
Proof.
  intros Hh Hs. revert prev.
  induction Hs as [|c s Hc Hs IH]; intros prev Hfirst; [reflexivity|].
  cbn [clean]. rewrite Hfirst. cbn [negb andb].
  apply IH. destruct s; [easy|]. now apply Hh.
Qed.

Lemma replace_loop_clean r f h (bef aft : jsstring) :
  guarded r h -> clean h (hd_error bef) aft = true ->
  replace_loop r f bef aft 0 = aft.
Proof.
  intros [Hc Hnil]. revert bef.
  induction aft as [|c aft IH]; intros bef H.
  - cbn. now rewrite Hnil.
  - cbn [clean] in H. apply andb_prop in H as [H1 H2].
    apply negb_true_iff in H1.
    cbn [replace_loop]. rewrite (Hc _ _ _ H1). f_equal. now apply IH.
Qed.

Lemma replace_re_clean r t h (s : jsstring) :
  guarded r h -> clean h None s = true -> replace_re r t s = s.
Proof. intros Hg Hc. now apply (replace_loop_clean r _ h [] s). Qed.

Lemma replace_loop_m_clean {S} r (f : mresult -> S -> result (jsstring * S)) h
  (bef aft : jsstring) (st : S) :
  guarded r h -> clean h (hd_error bef) aft = true ->
  replace_loop_m r f bef aft 0 st = Ok (aft, st).
Proof.
  intros [Hc Hnil]. revert bef.
  induction aft as [|c aft IH]; intros bef H.
  - cbn. now rewrite Hnil.
  - cbn [clean] in H. apply andb_prop in H as [H1 H2].
    apply negb_true_iff in H1.
    cbn [replace_loop_m]. rewrite (Hc _ _ _ H1).
    rewrite IH by easy. reflexivity.
Qed.

Lemma at_bol_line_start bef aft cs :
  at_bol true (MState bef aft cs) = line_start (hd_error bef).
Proof. now destruct bef. Qed.

Lemma guarded_Lit_first (a : code_unit) (l : jsstring) (r : regex) :
  guarded (Seq (Lit (a :: l)) r) (opens_with a).
Proof.
  split.
  - intros bef c aft H. apply match_here_Lit_first. cbn.
    unfold opens_with in H. rewrite N.eqb_sym in H. now rewrite H.
  - intros bef. now apply match_here_Lit_first.
Qed.

Lemma guarded_Bol_Lit (a : code_unit) (l : jsstring) (r : regex) :
  guarded (Seq (Bol true) (Seq (Lit (a :: l)) r)) (line_opens_with (N.eqb a)).
Proof.
  split.
  - intros bef c aft H. unfold line_opens_with in H.
    apply andb_false_iff in H as [H|H].
    + apply match_here_Bol_first. now rewrite at_bol_line_start.
    + apply match_here_Bol_Lit. cbn. now rewrite H.
  - intros bef. now apply match_here_Bol_Lit.
Qed.

Lemma guarded_Bol_Chr (q : code_unit -> bool) (r1 r2 : regex) :
  guarded (Seq (Bol true) (Seq (Seq (Chr q) r1) r2)) (line_opens_with q).
Proof.
  split.
  - intros bef c aft H. unfold line_opens_with in H. unfold match_here.
    cbn [rmatch after]. rewrite at_bol_line_start.
    apply andb_false_iff in H as [->| ->]; [reflexivity|].
    now destruct (line_start _).
  - intros bef. unfold match_here. cbn [rmatch after].
    now destruct (at_bol true _).
Qed.

Lemma guarded_fence : guarded fence_re (opens_with 96).
Proof. exact (guarded_Lit_first 96 [96; 96] _). Qed.

Lemma guarded_heading (marker : jsstring) :
  guarded (heading_re (35 :: marker)) (line_opens_with (N.eqb 35)).
Proof. apply guarded_Bol_Lit. Qed.

Lemma guarded_hr : guarded hr_re (line_opens_with (N.eqb 45)).
Proof. exact (guarded_Bol_Lit 45 [45; 45] _). Qed.

Lemma guarded_bold : guarded bold_re (opens_with 42).
Proof. exact (guarded_Lit_first 42 [42] _). Qed.

Lemma guarded_italic : guarded italic_re (opens_with 42).
Proof. exact (guarded_Lit_first 42 [] _). Qed.

Lemma guarded_inline_code : guarded inline_code_re (opens_with 96).
Proof. exact (guarded_Lit_first 96 [] _). Qed.

Lemma guarded_bullet : guarded bullet_re (line_opens_with (N.eqb 42)).
Proof. exact (guarded_Bol_Lit 42 [32] _). Qed.

Lemma guarded_numbered : guarded numbered_re (line_opens_with isDigit).
Proof. apply guarded_Bol_Chr. Qed.

Lemma match_here_list_run (bef aft : jsstring) :
  is_prefix (js "<li>") aft = false -> match_here list_run_re bef aft = None.
Proof.
  intros H. unfold match_here, list_run_re, Plus. cbn [rmatch].
  now rewrite rmatch_Lit_fail.
Qed.

Lemma replace_loop_no_li f prev (bef aft : jsstring) :
  clean tag_li prev aft = true -> replace_loop list_run_re f bef aft 0 = aft.
Proof.
  revert prev bef. induction aft as [|c aft IH]; intros prev bef H.
  - cbn [replace_loop]. now rewrite match_here_list_run.
  - cbn [clean] in H. apply andb_prop in H as [_ H].
    cbn [replace_loop]. rewrite match_here_list_run.
    + f_equal. now apply (IH (Some c)).
    + destruct aft as [|d aft]; cbn; [now rewrite andb_false_r|].
      cbn [clean tag_li] in H. apply andb_prop in H as [H _].
      apply negb_true_iff in H.
      rewrite (N.eqb_sym 60 c), (N.eqb_sym 108 d).
      destruct (c =? 60); [|reflexivity]. cbn in H. now rewrite H.
Qed.

Lemma wrap_lists_no_li (html : jsstring) :
  clean tag_li None html = true -> wrap_lists html = html.
Proof. apply replace_loop_no_li. Qed.

Lemma clean_cons h prev c (s : jsstring) :
  h prev c = false -> clean h (Some c) s = true -> clean h prev (c :: s) = true.
Proof. intros H1 H2. cbn [clean]. now rewrite H1, H2. Qed.

Lemma tag_li_not_l prev c : (c =? 108) = false -> tag_li prev c = false.
Proof. intros H. destruct prev; cbn; [|reflexivity]. now rewrite H, andb_false_r. Qed.

Lemma tag_li_not_lt p c : (p =? 60) = false -> tag_li (Some p) c = false.
Proof. intros H. cbn. now rewrite H. Qed.

(** Text without a less-than sign, between two tags, has no [<li>]. *)
Lemma clean_tag_li_between (a b text : jsstring) (prev : option code_unit) :
  clean tag_li prev a = true ->
  (forall p, last_of prev a = Some p -> (p =? 60) = false) ->
  Forall (fun c => c <> 60) text ->
  (forall p, clean tag_li p b = true) ->
  clean tag_li prev (a ++ text ++ b) = true.
Proof.
  intros Ha Hlast Htext Hb.
  rewrite !clean_app, Ha, Hb, andb_true_r. cbn [andb].
  apply clean_by_previous with (safe := fun c => negb (c =? 60)).
  - intros p c Hp. apply tag_li_not_lt. now apply negb_true_iff.
  - eapply Forall_impl; [|exact Htext]. intros c Hc.
    apply negb_true_iff. now apply N.eqb_neq.
  - destruct text as [|c text]; [easy|].
    destruct (last_of prev a) as [p|] eqn:E; [|reflexivity].
    apply tag_li_not_lt. now apply Hlast.
Qed.

Lemma Forall_forallb {A} (p : A -> bool) (P : A -> Prop) (l : list A) :
  (forall x, p x = true -> P x) -> forallb p l = true -> Forall P l.
Proof.
  intros H Hl. apply Forall_forall. intros x Hx.
  apply H. rewrite forallb_forall in Hl. now apply Hl.
Qed.

Lemma no_char_closed (a : code_unit) (l : jsstring) :
  forallb (fun c => negb (c =? a)) l = true -> Forall (fun c => c <> a) l.
Proof.
  apply Forall_forallb. intros x Hx. apply N.eqb_neq. now apply negb_true_iff.
Qed.

(** ** Delimited spans: fences, bold, italic *)

Lemma lazy_chars_now p k bef aft cs e :
  k (MState bef aft cs) = Some e -> lazy_chars p k bef aft cs = Some e.
Proof. intros H. destruct aft; cbn [lazy_chars]; now rewrite H. Qed.

Lemma lazy_chars_skip p k (bef xs rest : jsstring) cs :
  Forall (fun c => p c = true) xs ->
  (forall pre c post, xs = pre ++ c :: post ->
     k (MState (rev pre ++ bef) (c :: post ++ rest) cs) = None) ->
  lazy_chars p k bef (xs ++ rest) cs = lazy_chars p k (rev xs ++ bef) rest cs.
Proof.
  intros Hp. revert bef. induction Hp as [|c xs Hc Hxs IH]; intros bef Hk; [reflexivity|].
  cbn [app lazy_chars].
  pose proof (Hk [] c xs eq_refl) as H0. cbn [rev app] in H0.
  rewrite H0, Hc.
  rewrite IH.
  - cbn [rev]. now rewrite <- app_assoc.
  - intros pre d post ->.
    specialize (Hk (c :: pre) d post eq_refl).
    cbn [rev] in Hk. now rewrite <- app_assoc in Hk.
Qed.

Lemma delimited_match (opn cls body rest bef : jsstring) p (c0 : code_unit) (cl : jsstring) :
  cls = c0 :: cl ->
  Forall (fun c => p c = true /\ c <> c0) body ->
  match_here (delimited opn p cls) bef (opn ++ body ++ cls ++ rest)
  = Some (MResult (opn ++ body ++ cls) [(1%nat, body)] rest).
Proof.
  intros Hcls Hbody. unfold match_here, delimited.
  rewrite rmatch_Seq, rmatch_Lit, rmatch_Seq, rmatch_Group, rmatch_star_lazy.
  cbn [after before caps].
  rewrite lazy_chars_skip.
  - erewrite lazy_chars_now.
    2:{ unfold set_cap. cbn [after before caps]. rewrite rmatch_Lit. reflexivity. }
    cbn [after caps]. f_equal. f_equal.
    + rewrite !app_assoc. rewrite firstn_app_minus. now rewrite <- !app_assoc.
    + f_equal. f_equal. apply firstn_app_minus.
  - eapply Forall_impl; [|exact Hbody]. now intros c [Hc _].
  - intros pre c post ->. unfold set_cap. cbn [after before caps].
    apply rmatch_Lit_fail. cbn [after]. rewrite Hcls. cbn [is_prefix].
    apply Forall_app in Hbody as [_ Hbody]. inversion Hbody as [|? ? [_ Hc] _]; subst.
    apply N.eqb_neq in Hc. rewrite N.eqb_sym in Hc. now rewrite Hc.
Qed.

Lemma fence_match (code rest bef : jsstring) :
  Forall (fun c => c <> 96) code ->
  match_here fence_re bef (js "```" ++ code ++ js "```" ++ rest)
  = Some (MResult (js "```" ++ code ++ js "```") [(1%nat, code)] rest).
Proof.
  intros H. apply (delimited_match (js "```") (js "```") code rest bef space_or_not 96 [96; 96]).
  - reflexivity.
  - eapply Forall_impl; [|exact H]. intros c Hc. split; [|easy].
    unfold space_or_not. now destruct (isSpace c).
Qed.

(** ** A fenced block on its own *)

Lemma extract_single_fence (code : jsstring) :
  Forall (fun c => c <> 96) code ->
  extract_fences (js "```" ++ code ++ js "```")
  = Ok (placeholder 0%nat, Fences [code_block code] 1%nat).
Proof.
  intros H. unfold extract_fences.
  pose proof (fence_match code [] [] H) as Hm.
  rewrite app_assoc. rewrite <- (app_nil_r ((js "```" ++ code) ++ js "```")).
  erewrite replace_loop_m_match.
  - cbn [replace_loop_m]. rewrite (proj2 guarded_fence). cbn [bind fst snd].
    rewrite app_nil_r. reflexivity.
  - discriminate.
  - rewrite <- !app_assoc. exact Hm.
  - cbn [m_text]. now rewrite <- app_assoc.
  - reflexivity.
Qed.

Lemma process_placeholder_0 : process (placeholder 0%nat) = placeholder 0%nat.
Proof. vm_compute. reflexivity. Qed.

Lemma restore_single (block : jsstring) :
  Forall (fun c => c <> 36) block ->
  restore [block] 0%nat (placeholder 0%nat) = block.
Proof.
  intros H. cbn [restore]. unfold replace_str.
  replace (find_first (placeholder 0%nat) [] (placeholder 0%nat)) with (Some (@nil code_unit, @nil code_unit))
    by (vm_compute; reflexivity).
  rewrite GetSubstitution_plain by easy. now rewrite app_nil_r.
Qed.

Lemma code_block_no_dollar (code : jsstring) :
  Forall (fun c => c <> 36) code -> Forall (fun c => c <> 36) (code_block code).
Proof.
  intros H. unfold code_block. rewrite !Forall_app. repeat split.
  - apply no_char_closed. vm_compute. reflexivity.
  - apply escapeHtml_Forall; [|now apply trim_Forall].
    apply no_char_closed. vm_compute. reflexivity.
  - apply no_char_closed. vm_compute. reflexivity.
Qed.

Lemma code_block_no_li (code : jsstring) :
  clean tag_li None (code_block code) = true.
Proof.
  unfold code_block. apply clean_tag_li_between.
  - vm_compute. reflexivity.
  - intros p Hp. vm_compute in Hp. injection Hp as <-. reflexivity.
  - apply escapeHtml_no_lt.
  - intros p. apply clean_cons; [now apply tag_li_not_l|].
    vm_compute. reflexivity.
Qed.

(** ** The fences of any text *)

Lemma find_first_none (pat bef s : jsstring) :
  find_first pat bef s = None -> forall a b, s = a ++ b -> is_prefix pat b = false.
Proof.
  revert bef. induction s as [|c s IH]; intros bef H a b Hs.
  - destruct a; [|discriminate]. cbn in Hs. subst b. cbn [find_first] in H.
    destruct (is_prefix pat []); [discriminate|reflexivity].
  - cbn [find_first] in H. destruct (is_prefix pat (c :: s)) eqn:E; [discriminate|].
    destruct a as [|x a]; cbn in Hs.
    + now subst b.
    + injection Hs as _ Hs. exact (IH _ H a b Hs).
Qed.

Lemma find_first_none_from (pat bef bef' a b : jsstring) :
  find_first pat bef (a ++ b) = None -> find_first pat bef' b = None.
Proof.
  revert bef. induction a as [|x a IH]; intros bef; cbn [app].
  - revert bef bef'. induction b as [|c b IHb]; intros bef bef'; cbn [find_first];
      destruct (is_prefix pat _); try discriminate; [reflexivity|]. apply IHb.
  - cbn [find_first]. destruct (is_prefix pat _); [discriminate|]. apply IH.
Qed.

(** [find_first] finds the first occurrence. *)
Lemma find_first_minimal (pat bef s pre post : jsstring) :
  find_first pat bef s = Some (pre, post) ->
  exists body,
    pre = rev bef ++ body /\ s = body ++ pat ++ post /\
    forall a c b, body = a ++ c :: b -> is_prefix pat (c :: b ++ pat ++ post) = false.
Proof.
  revert bef. induction s as [|c s IH]; intros bef; cbn [find_first].
  - destruct (is_prefix pat []) eqn:E; [|discriminate].
    intros [= <- <-]. exists []. rewrite app_nil_r. repeat split.
    + now apply is_prefix_spec in E.
    + intros a c b H. now destruct a.
  - destruct (is_prefix pat (c :: s)) eqn:E.
    + intros [= <- <-]. exists []. rewrite app_nil_r. repeat split.
      * now apply is_prefix_spec in E.
      * intros a x b H. now destruct a.
    + intros H. apply IH in H as (body & -> & Hs & Hmin).
      exists (c :: body). cbn [rev]. rewrite <- app_assoc. repeat split.
      * cbn [app]. now rewrite Hs.
      * intros a x b Hsplit. destruct a as [|y a]; cbn [app] in Hsplit.
        -- injection Hsplit as <- <-. now rewrite <- Hs.
        -- injection Hsplit as _ Hsplit. now apply (Hmin a).
Qed.

(** A span closed by the first occurrence of the closing delimiter. *)
Lemma delimited_match_first (opn cls body rest bef : jsstring) p :
  Forall (fun c => p c = true) body ->
  (forall a c b, body = a ++ c :: b -> is_prefix cls (c :: b ++ cls ++ rest) = false) ->
  match_here (delimited opn p cls) bef (opn ++ body ++ cls ++ rest)
  = Some (MResult (opn ++ body ++ cls) [(1%nat, body)] rest).
Proof.
  intros Hbody Hfirst. unfold match_here, delimited.
  rewrite rmatch_Seq, rmatch_Lit, rmatch_Seq, rmatch_Group, rmatch_star_lazy.
  cbn [after before caps].
  rewrite lazy_chars_skip.
  - erewrite lazy_chars_now.
    2:{ unfold set_cap. cbn [after before caps]. rewrite rmatch_Lit. reflexivity. }
    cbn [after caps]. f_equal. f_equal.
    + rewrite !app_assoc. rewrite firstn_app_minus. now rewrite <- !app_assoc.
    + f_equal. f_equal. apply firstn_app_minus.
  - exact Hbody.
  - intros pre c post ->. unfold set_cap. cbn [after before caps].
    apply rmatch_Lit_fail. cbn [after]. now apply (Hfirst pre).
Qed.

Lemma space_or_not_all (s : jsstring) : Forall (fun c => space_or_not c = true) s.
Proof. apply Forall_forall. intros c _. unfold space_or_not. now destruct (isSpace c). Qed.

(** A lazy run whose continuation fails everywhere. *)
Lemma lazy_chars_none p k (bef xs : jsstring) cs :
  (forall pre post, xs = pre ++ post -> k (MState (rev pre ++ bef) post cs) = None) ->
  lazy_chars p k bef xs cs = None.
Proof.
  revert bef. induction xs as [|c xs IH]; intros bef Hk; cbn [lazy_chars].
  - pose proof (Hk [] [] eq_refl) as H0. cbn [rev app] in H0. now rewrite H0.
  - pose proof (Hk [] (c :: xs) eq_refl) as H0. cbn [rev app] in H0. rewrite H0.
    destruct (p c); [|reflexivity].
    apply IH. intros pre post ->. specialize (Hk (c :: pre) post eq_refl).
    cbn [rev] in Hk. now rewrite <- app_assoc in Hk.
Qed.

(** An opening fence without a closing one after it. *)
Lemma fence_no_close (bef s : jsstring) :
  find_first (js "```") [] (skipn 3 s) = None -> match_here fence_re bef s = None.
Proof.
  intros H. unfold match_here, fence_re. rewrite rmatch_Seq.
  destruct (is_prefix (js "```") s) eqn:E; [|now rewrite rmatch_Lit_fail].
  apply is_prefix_spec in E. change (List.length (js "```")) with 3%nat in E.
  rewrite E. rewrite rmatch_Lit, rmatch_Seq, rmatch_Group, rmatch_star_lazy.
  cbn [after before caps].
  rewrite lazy_chars_none; [reflexivity|].
  intros pre post Hsplit. apply rmatch_Lit_fail. cbn [set_cap after].
  exact (find_first_none _ _ _ H pre post Hsplit).
Qed.

Lemma no_fence_tail (c : code_unit) (s : jsstring) :
  find_first (js "```") [] (skipn 3 (c :: s)) = None ->
  find_first (js "```") [] (skipn 3 s) = None.
Proof.
  change (skipn 3 (c :: s)) with (skipn 2 s).
  rewrite <- (firstn_skipn 1 (skipn 2 s)), skipn_skipn.
  apply find_first_none_from.
Qed.

Lemma extract_loop_no_fence (s bef : jsstring) (st : fences) :
  find_first (js "```") [] (skipn 3 s) = None ->
  replace_loop_m fence_re fence_callback bef s 0 st = Ok (s, st).
Proof.
  revert bef. induction s as [|c s IH]; intros bef H; cbn [replace_loop_m];
    rewrite (fence_no_close _ _ H); [reflexivity|].
  rewrite IH; [reflexivity|]. eapply no_fence_tail; exact H.
Qed.

(** The replacement loop of [extract_fences] computes the scan. *)
Lemma extract_loop_scan (fuel : nat) (s bef : jsstring) (st : fences) :
  (List.length s < fuel)%nat ->
  replace_loop_m fence_re fence_callback bef s 0 st
  = Ok (fst (spec_scan_fences fuel s (codeIndex st)),
        Fences (codeBlocks st
                ++ map code_block (snd (spec_scan_fences fuel s (codeIndex st))))
               (codeIndex st
                + List.length (snd (spec_scan_fences fuel s (codeIndex st))))).
Proof.
  revert s bef st. induction fuel as [|n IH]; intros s bef st Hlen; [lia|].
  cbn [spec_scan_fences].
  destruct (is_prefix (js "```") s) eqn:E.
  - destruct (find_first (js "```") [] (skipn 3 s)) as [[code rest]|] eqn:F.
    + apply find_first_minimal in F as (body & Hpre & Hs3 & Hmin).
      cbn [rev app] in Hpre. subst code.
      apply is_prefix_spec in E. change (List.length (js "```")) with 3%nat in E.
      rewrite Hs3 in E.
      pose proof (delimited_match_first (js "```") (js "```") body rest bef space_or_not
                    (space_or_not_all body) Hmin) as Hm.
      change (delimited (js "```") space_or_not (js "```")) with fence_re in Hm.
      assert (Hrest : (List.length rest < n)%nat).
      { rewrite E in Hlen. rewrite !length_app in Hlen.
        change (List.length (js "```")) with 3%nat in Hlen. lia. }
      rewrite E.
      replace (js "```" ++ body ++ js "```" ++ rest)
        with ((js "```" ++ body ++ js "```") ++ rest) by (now rewrite <- !app_assoc).
      rewrite (replace_loop_m_match fence_re fence_callback bef
                 (js "```" ++ body ++ js "```") rest
                 (MResult (js "```" ++ body ++ js "```") [(1%nat, body)] rest) st
                 (Fences (codeBlocks st ++ [code_block body]) (S (codeIndex st)))
                 (placeholder (codeIndex st))).
      * rewrite (IH rest _ _ Hrest). cbn [bind fst snd codeBlocks codeIndex List.length map].
        rewrite <- app_assoc. cbn [app]. now rewrite Nat.add_succ_r.
      * discriminate.
      * rewrite <- Hm. now rewrite <- !app_assoc.
      * reflexivity.
      * now apply fence_callback_ok.
    + rewrite extract_loop_no_fence by exact F. cbn [fst snd map List.length].
      rewrite app_nil_r, Nat.add_0_r. now destruct st.
  - destruct s as [|c s].
    + cbn [replace_loop_m]. rewrite (proj2 guarded_fence). cbn [fst snd map List.length].
      rewrite app_nil_r, Nat.add_0_r. now destruct st.
    + cbn [replace_loop_m].
      assert (Hm : match_here fence_re bef (c :: s) = None).
      { unfold match_here, fence_re. rewrite rmatch_Seq. now rewrite rmatch_Lit_fail. }
      rewrite Hm. rewrite (IH s _ _ ltac:(cbn [List.length] in Hlen; lia)).
      reflexivity.
Qed.

(** Fence extraction refines the specification's scan: for every text, the
    blocks recorded are the contents found by the scan, each one trimmed,
    escaped and wrapped in [<pre><code>], and the text is the scan's text
    with a placeholder in the place of each block. *)
Lemma extract_fences_scan (markdown : jsstring) :
  extract_fences markdown
  = Ok (fst (spec_fences markdown),
        Fences (map code_block (snd (spec_fences markdown)))
               (List.length (snd (spec_fences markdown)))).
Proof.
  unfold extract_fences, spec_fences.
  rewrite (extract_loop_scan (S (List.length markdown)) markdown [] (Fences [] 0)
             (Nat.lt_succ_diag_r _)).
  reflexivity.
Qed.

(** The blocks are kept apart from the text while the other stages run. *)
Lemma markdownToHtml_fences (markdown : jsstring) :
  markdownToHtml markdown
  = Ok (wrap_lists
          (restore (map code_block (snd (spec_fences markdown))) 0
                   (process (fst (spec_fences markdown))))).
Proof. unfold markdownToHtml. now rewrite extract_fences_scan. Qed.

(** C1, as stated, fails: the code trims the content of a fence, so the
    blanks around it are not reproduced. *)
Lemma fence_content_is_trimmed :
  markdownToHtml (js "``` a ```") = Ok (js "<pre><code>a</code></pre>") /\
  js "<pre><code>a</code></pre>" <> js "<pre><code> a </code></pre>".
Proof. split; [vm_compute; reflexivity|discriminate]. Qed.

(** A fence on its own, with neither a backtick nor a dollar sign in it. *)
Lemma single_fence_rendered (code : jsstring) :
  Forall (fun c => c <> 96) code ->
  Forall (fun c => c <> 36) code ->
  markdownToHtml (js "```" ++ code ++ js "```")
  = Ok (js "<pre><code>" ++ flat_map escape_char (trim code) ++ js "</code></pre>").
Proof.
  intros Htick Hdollar. unfold markdownToHtml.
  rewrite (extract_single_fence code Htick). cbn [bind fst snd codeBlocks].
  rewrite process_placeholder_0.
  rewrite restore_single by now apply code_block_no_dollar.
  rewrite wrap_lists_no_li by apply code_block_no_li.
  unfold code_block. now rewrite escapeHtml_flat_map.
Qed.

(** ** Paragraphs *)

Lemma split_loop_no_newline (s cur : jsstring) :
  Forall (fun c => c <> 10) s -> split_loop [10; 10] s 0 cur = [rev cur ++ s].
Proof.
  intros H. revert cur. induction H as [|c s Hc Hs IH]; intros cur.
  - cbn. now rewrite app_nil_r.
  - cbn [split_loop is_prefix].
    apply N.eqb_neq in Hc. rewrite N.eqb_sym in Hc. rewrite Hc. cbn [andb].
    rewrite IH. cbn [rev]. now rewrite <- app_assoc.
Qed.

(** A text without a line feed is one paragraph. *)
Lemma paragraphs_single (s : jsstring) :
  Forall (fun c => c <> 10) s -> paragraphs s = wrap_para s.
Proof.
  intros H. unfold paragraphs, split. now rewrite split_loop_no_newline.
Qed.

Lemma exec_from_Bos (r : regex) (bef aft sk : jsstring) :
  bef <> [] -> exec_from (Seq (Bol false) r) bef aft sk = None.
Proof.
  revert bef sk. induction aft as [|c aft IH]; intros bef sk H;
    cbn [exec_from]; unfold match_here; rewrite rmatch_Seq, rmatch_Bol;
    destruct bef as [|b bef]; try congruence; cbn [at_bol before andb].
  - reflexivity.
  - now apply IH.
Qed.

(** A pattern anchored at the start of the string is tried there only. *)
Lemma test_Bos (r : regex) (s : jsstring) :
  test (Seq (Bol false) r) s
  = match match_here (Seq (Bol false) r) [] s with Some _ => true | None => false end.
Proof.
  unfold test. destruct s as [|c s]; cbn [exec_from];
    destruct (match_here _ [] _); try reflexivity.
  now rewrite exec_from_Bos.
Qed.

Lemma block_tag_test (a c : code_unit) (s : jsstring) :
  test block_tag_re (a :: c :: s) = (60 =? a) && one_of (js "h|l|h|u|o") c.
Proof.
  unfold block_tag_re. rewrite test_Bos. unfold match_here.
  rewrite rmatch_Seq, rmatch_Bol. cbn [at_bol before].
  change (Lit (js "<")) with (Seq (Chr (N.eqb 60)) Eps).
  rewrite !rmatch_Seq, rmatch_Chr.
  destruct (60 =? a); [|reflexivity].
  cbn [rmatch after before caps andb].
  now destruct (one_of _ c).
Qed.

Lemma placeholder_test (s : jsstring) :
  test placeholder_re s = is_prefix (js "__CODE_BLOCK_") s.
Proof.
  unfold placeholder_re. rewrite test_Bos. unfold match_here.
  rewrite rmatch_Seq, rmatch_Bol. cbn [at_bol before].
  destruct (is_prefix (js "__CODE_BLOCK_") s) eqn:E.
  - apply is_prefix_spec in E. rewrite E at 1. now rewrite rmatch_Lit.
  - now rewrite rmatch_Lit_fail.
Qed.

Lemma dropWhile_In p (c : code_unit) (s : jsstring) :
  In c s -> p c = false -> In c (dropWhile p s).
Proof.
  intros Hin Hp. induction s as [|d s IH]; [easy|]. cbn [dropWhile].
  destruct (p d) eqn:E; [|easy].
  destruct Hin as [->|Hin]; [congruence|now apply IH].
Qed.

(** A text with a code unit that is no blank is not empty once trimmed. *)
Lemma trim_In (c : code_unit) (s : jsstring) :
  In c s -> isSpace c = false -> In c (trim s).
Proof.
  intros Hin Hc. unfold trim.
  apply in_rev. rewrite rev_involutive.
  apply dropWhile_In; [|easy]. apply -> in_rev.
  now apply dropWhile_In.
Qed.

(** A paragraph that starts with a tag other than a block tag is wrapped. *)
Lemma wrap_para_tag (c : code_unit) (s : jsstring) :
  one_of (js "h|l|h|u|o") c = false ->
  wrap_para (60 :: c :: s) = js "<p>" ++ 60 :: c :: s ++ js "</p>".
Proof.
  intros H. unfold wrap_para.
  rewrite block_tag_test, H, andb_false_r, placeholder_test.
  change (is_prefix (js "__CODE_BLOCK_") (60 :: c :: s)) with false.
  pose proof (trim_In 60 (60 :: c :: s) (or_introl eq_refl) eq_refl) as Hin.
  destruct (trim (60 :: c :: s)); [easy|reflexivity].
Qed.

Lemma wrap_para_block (c : code_unit) (s : jsstring) :
  one_of (js "h|l|h|u|o") c = true -> wrap_para (60 :: c :: s) = 60 :: c :: s.
Proof.
  intros H. unfold wrap_para. now rewrite block_tag_test, H.
Qed.

(** ** Templates *)

Lemma template_h3 matched pre post cs :
  GetSubstitution 1 matched pre post cs (js "<h3>$1</h3>")
  = js "<h3>" ++ cap_text 1 cs ++ js "</h3>".
Proof. reflexivity. Qed.

Lemma template_h2 matched pre post cs :
  GetSubstitution 1 matched pre post cs (js "<h2>$1</h2>")
  = js "<h2>" ++ cap_text 1 cs ++ js "</h2>".
Proof. reflexivity. Qed.

Lemma template_h1 matched pre post cs :
  GetSubstitution 1 matched pre post cs (js "<h1>$1</h1>")
  = js "<h1>" ++ cap_text 1 cs ++ js "</h1>".
Proof. reflexivity. Qed.

Lemma template_code matched pre post cs :
  GetSubstitution 1 matched pre post cs (js "<code>$1</code>")
  = js "<code>" ++ cap_text 1 cs ++ js "</code>".
Proof. reflexivity. Qed.

Lemma template_li matched pre post cs :
  GetSubstitution 1 matched pre post cs (js "<li>$1</li>")
  = js "<li>" ++ cap_text 1 cs ++ js "</li>".
Proof. reflexivity. Qed.

(** ** Greedy runs *)

Lemma greedy_chars_app p k (bef xs tail : jsstring) cs e :
  Forall (fun c => p c = true) xs ->
  greedy_chars p k (rev xs ++ bef) tail cs = Some e ->
  greedy_chars p k bef (xs ++ tail) cs = Some e.
Proof.
  intros Hxs. revert bef. induction Hxs as [|c xs Hc Hxs IH]; intros bef H; [easy|].
  cbn [app greedy_chars]. rewrite Hc. rewrite IH; [reflexivity|].
  cbn [rev] in H. now rewrite <- app_assoc in H.
Qed.

Lemma greedy_chars_stop p k (bef rest : jsstring) cs :
  stops p rest -> greedy_chars p k bef rest cs = k (MState bef rest cs).
Proof.
  intros H. destruct rest as [|c rest]; [reflexivity|].
  cbn in H. cbn [greedy_chars]. now rewrite H.
Qed.

(** The longest run, when the continuation accepts it. *)
Lemma greedy_chars_all p k (bef xs rest : jsstring) cs e :
  Forall (fun c => p c = true) xs -> stops p rest ->
  k (MState (rev xs ++ bef) rest cs) = Some e ->
  greedy_chars p k bef (xs ++ rest) cs = Some e.
Proof.
  intros Hxs Hrest Hk. apply greedy_chars_app; [easy|].
  now rewrite greedy_chars_stop.
Qed.

(** The run gives back [ys], one code unit at a time, when the continuation
    rejects every longer run. *)
Lemma greedy_chars_giveback p k (bef ys rest : jsstring) cs :
  Forall (fun c => p c = true) ys -> stops p rest ->
  (forall pre c post, ys = pre ++ c :: post ->
     k (MState (rev (pre ++ [c]) ++ bef) (post ++ rest) cs) = None) ->
  greedy_chars p k bef (ys ++ rest) cs = k (MState bef (ys ++ rest) cs).
Proof.
  intros Hys Hrest. revert bef.
  induction Hys as [|c ys Hc Hys IH]; intros bef Hk.
  - now apply greedy_chars_stop.
  - cbn [app greedy_chars]. rewrite Hc. rewrite IH.
    + pose proof (Hk [] c ys eq_refl) as H0. cbn [app rev] in H0. now rewrite H0.
    + intros pre d post ->.
      pose proof (Hk (c :: pre) d post eq_refl) as H0.
      cbn [app rev] in H0. rewrite <- app_assoc in H0. exact H0.
Qed.

(** ** Patterns that open with two fixed code units *)

Lemma clean_pair_prefix (a b : code_unit) (l : jsstring) prev c (aft : jsstring) :
  clean (opens_with_pair a b) prev (c :: aft) = true ->
  is_prefix (a :: b :: l) (c :: aft) = false.
Proof.
  cbn [clean]. intros H. apply andb_prop in H as [_ H].
  cbn [is_prefix]. destruct aft as [|d aft]; [apply andb_false_r|].
  cbn [clean opens_with_pair] in H. apply andb_prop in H as [H _].
  apply negb_true_iff in H.
  rewrite (N.eqb_sym a c), (N.eqb_sym b d).
  destruct (c =? a); [|reflexivity]. cbn [andb] in *. now rewrite H.
Qed.

Lemma replace_loop_m_clean_pair {S} r (f : mresult -> S -> result (jsstring * S))
  (a b : code_unit) (l : jsstring) prev (bef aft : jsstring) (st : S) :
  (forall bef aft, is_prefix (a :: b :: l) aft = false -> match_here r bef aft = None) ->
  clean (opens_with_pair a b) prev aft = true ->
  replace_loop_m r f bef aft 0 st = Ok (aft, st).
Proof.
  intros Hr. revert prev bef. induction aft as [|c aft IH]; intros prev bef H.
  - cbn [replace_loop_m]. now rewrite Hr.
  - cbn [replace_loop_m]. rewrite Hr by (eapply clean_pair_prefix; exact H).
    cbn [clean] in H. apply andb_prop in H as [_ H].
    now rewrite (IH (Some c)).
Qed.

Lemma extract_fences_none (s : jsstring) :
  clean (opens_with_pair 96 96) None s = true ->
  extract_fences s = Ok (s, Fences [] 0).
Proof.
  intros H. unfold extract_fences.
  apply (replace_loop_m_clean_pair fence_re _ 96 96 [96] None); [|easy].
  intros bef aft Hp. now apply match_here_Lit_first.
Qed.

Lemma last_of_In prev (s : jsstring) :
  s <> [] -> exists p, last_of prev s = Some p /\ In p s.
Proof.
  intros H. unfold last_of. destruct (rev s) as [|p rs] eqn:E.
  - apply (f_equal (@rev code_unit)) in E. rewrite rev_involutive in E. now subst.
  - exists p. split; [reflexivity|]. apply in_rev. rewrite E. now left.
Qed.

Lemma last_of_cases prev (s : jsstring) :
  last_of prev s = prev \/ exists p, last_of prev s = Some p /\ In p s.
Proof.
  destruct s as [|c s]; [now left|right]. now apply last_of_In.
Qed.

Lemma clean_change_prev h prev prev' (s : jsstring) :
  match s with c :: _ => h prev' c = false | [] => True end ->
  clean h prev s = true -> clean h prev' s = true.
Proof.
  destruct s as [|c s]; [easy|]. cbn [clean]. intros -> H.
  apply andb_prop in H as [_ H]. now rewrite H.
Qed.

Lemma one_line_no_newline (s : jsstring) :
  one_line s -> Forall (fun c => c <> 10) s.
Proof.
  apply Forall_impl. intros c Hc ->. discriminate.
Qed.

Lemma one_line_app (a b : jsstring) : one_line a -> one_line b -> one_line (a ++ b).
Proof. intros Ha Hb. apply Forall_app. now split. Qed.

Lemma one_line_closed (s : jsstring) :
  forallb (fun c => negb (isLineTerminator c)) s = true -> one_line s.
Proof. apply Forall_forallb. intros c Hc. now apply negb_true_iff. Qed.

(** Inside a line, a pattern anchored at a line start can only match at
    the start. *)
Lemma clean_line q prev (s : jsstring) :
  one_line s ->
  match s with c :: _ => line_opens_with q prev c = false | [] => True end ->
  clean (line_opens_with q) prev s = true.
Proof.
  intros Hs Hfirst.
  apply clean_by_previous with (safe := fun c => negb (isLineTerminator c)).
  - intros p c Hp. unfold line_opens_with. cbn [line_start].
    apply negb_true_iff in Hp. now rewrite Hp.
  - eapply Forall_impl; [|exact Hs]. intros c Hc. now rewrite Hc.
  - exact Hfirst.
Qed.

(** ** Inline code *)

Lemma inline_code_match (bef s rest : jsstring) :
  s <> [] -> Forall (fun c => c <> 96) s ->
  match_here inline_code_re bef (js "`" ++ s ++ js "`" ++ rest)
  = Some (MResult (js "`" ++ s ++ js "`") [(1%nat, s)] rest).
Proof.
  intros Hne Hs. destruct s as [|c s]; [easy|].
  inversion Hs as [|? ? Hc Hs']; subst.
  unfold match_here, inline_code_re, Plus.
  rewrite rmatch_Seq, rmatch_Lit, rmatch_Seq, rmatch_Group, rmatch_Seq.
  cbn [after before caps app]. rewrite rmatch_Chr.
  unfold not_backtick at 1. apply N.eqb_neq in Hc. rewrite Hc. cbn [negb].
  rewrite rmatch_star_greedy.
  rewrite (greedy_chars_all not_backtick _ _ s (js "`" ++ rest) _
             (MState (rev (js "`") ++ rev s ++ c :: rev (js "`") ++ bef) rest
                     [(1%nat, c :: s)])).
  - cbn [after caps]. f_equal. f_equal.
    exact (firstn_app_minus3 (js "`") (c :: s) (js "`") rest).
  - eapply Forall_impl; [|exact Hs']. intros d Hd. unfold not_backtick.
    apply negb_true_iff. now apply N.eqb_neq.
  - reflexivity.
  - unfold set_cap. cbn [after before caps]. rewrite rmatch_Lit.
    f_equal. f_equal. f_equal. f_equal.
    exact (firstn_app_minus (c :: s) (js "`" ++ rest)).
Qed.

(** ** Stages that leave a text alone *)

(** A pattern anchored at a line start finds nothing in a line that does not
    start as the pattern does. *)
Lemma anchored_stage_identity r q t (text : jsstring) :
  guarded r (line_opens_with q) ->
  one_line text ->
  match text with c :: _ => q c = false | [] => True end ->
  replace_re r t text = text.
Proof.
  intros Hg Hl Hfirst. apply (replace_re_clean r t (line_opens_with q)); [easy|].
  apply clean_line; [easy|]. destruct text as [|c text]; [easy|].
  unfold line_opens_with. now rewrite Hfirst.
Qed.

Lemma headings_identity (text : jsstring) :
  one_line text ->
  match text with c :: _ => (35 =? c) = false | [] => True end ->
  headings text = text.
Proof.
  intros Hl Hfirst. unfold headings.
  rewrite (anchored_stage_identity h3_re (N.eqb 35));
    [|exact (guarded_heading (js "## "))|easy|easy].
  rewrite (anchored_stage_identity h2_re (N.eqb 35));
    [|exact (guarded_heading (js "# "))|easy|easy].
  now rewrite (anchored_stage_identity h1_re (N.eqb 35));
    [|exact (guarded_heading (js " "))|easy|easy].
Qed.

Lemma hr_identity (text : jsstring) :
  one_line text ->
  match text with c :: _ => (45 =? c) = false | [] => True end ->
  replace_re hr_re (js "<hr>") text = text.
Proof.
  intros Hl Hfirst.
  now apply (anchored_stage_identity hr_re (N.eqb 45)); [exact guarded_hr| |].
Qed.

Lemma list_items_identity (text : jsstring) :
  one_line text ->
  match text with c :: _ => (42 =? c) = false /\ isDigit c = false | [] => True end ->
  list_items text = text.
Proof.
  intros Hl Hfirst. unfold list_items.
  rewrite (anchored_stage_identity bullet_re (N.eqb 42));
    [|exact guarded_bullet|easy|destruct text; easy].
  now rewrite (anchored_stage_identity numbered_re isDigit);
    [|exact guarded_numbered|easy|destruct text; easy].
Qed.

Lemma no_char_clean (a : code_unit) prev (text : jsstring) :
  Forall (fun c => c <> a) text -> clean (opens_with a) prev text = true.
Proof.
  intros H. apply clean_by_current with (ok := fun c => negb (c =? a)).
  - intros p c Hc. unfold opens_with. now apply negb_true_iff.
  - eapply Forall_impl; [|exact H]. intros c Hc.
    apply negb_true_iff. now apply N.eqb_neq.
Qed.

Lemma emphasis_identity (text : jsstring) :
  Forall (fun c => c <> 42) text ->
  replace_re italic_re (js "<em>$1</em>")
    (replace_re bold_re (js "<strong>$1</strong>") text) = text.
Proof.
  intros H.
  rewrite (replace_re_clean bold_re _ (opens_with 42));
    [|exact guarded_bold|now apply no_char_clean].
  now rewrite (replace_re_clean italic_re _ (opens_with 42));
    [|exact guarded_italic|now apply no_char_clean].
Qed.

Lemma clean_tag_li_around (a b text : jsstring) (x y : code_unit) (b' : jsstring) :
  clean tag_li None a = true ->
  last_of None a = Some x -> (x =? 60) = false ->
  no_li_tag text = true ->
  b = y :: b' -> (y =? 108) = false -> clean tag_li (Some y) b' = true ->
  clean tag_li None (a ++ text ++ b) = true.
Proof.
  intros Ha Hx Hx60 Htext -> Hy Hb.
  rewrite !clean_app, Ha, Hx. cbn [andb].
  apply andb_true_intro. split.
  - apply (clean_change_prev tag_li None); [|exact Htext].
    destruct text; [easy|]. now apply tag_li_not_lt.
  - apply clean_cons; [now apply tag_li_not_l|easy].
Qed.

(** An inline code span on its own: its content is copied as it is. *)
Lemma inline_code_rendered (s : jsstring) :
  s <> [] ->
  Forall (fun c => c <> 96 /\ c <> 42 /\ isLineTerminator c = false) s ->
  no_li_tag s = true ->
  markdownToHtml (js "`" ++ s ++ js "`")
  = Ok (js "<p><code>" ++ s ++ js "</code></p>").
Proof.
  intros Hne Hs Hli.
  assert (Htick : Forall (fun c => c <> 96) s)
    by (eapply Forall_impl; [|exact Hs]; now intros c (H1 & H2 & H3)).
  assert (Hstar : Forall (fun c => c <> 42) s)
    by (eapply Forall_impl; [|exact Hs]; now intros c (H1 & H2 & H3)).
  assert (Hline : one_line s)
    by (eapply Forall_impl; [|exact Hs]; now intros c (H1 & H2 & H3)).
  assert (Hline1 : one_line (js "`" ++ s ++ js "`")).
  { repeat apply one_line_app; try easy; now apply one_line_closed. }
  assert (Hline2 : one_line (js "<code>" ++ s ++ js "</code>")).
  { repeat apply one_line_app; try easy; now apply one_line_closed. }
  unfold markdownToHtml.
  rewrite extract_fences_none.
  2:{ rewrite !clean_app. apply andb_true_intro. split; [reflexivity|].
      apply andb_true_intro. split.
      - apply clean_by_current with (ok := fun c => negb (c =? 96)).
        + intros p c Hc. apply negb_true_iff in Hc.
          destruct p; cbn; [|reflexivity]. now rewrite Hc, andb_false_r.
        + eapply Forall_impl; [|exact Htick]. intros c Hc.
          apply negb_true_iff. now apply N.eqb_neq.
      - destruct (last_of_In (last_of None (js "`")) s Hne) as (p & -> & Hp).
        rewrite Forall_forall in Htick. apply Htick in Hp.
        apply N.eqb_neq in Hp. cbn. now rewrite Hp. }
  cbn [bind fst snd codeBlocks restore]. unfold process.
  rewrite (headings_identity (js "`" ++ s ++ js "`") Hline1) by reflexivity.
  rewrite (hr_identity (js "`" ++ s ++ js "`") Hline1) by reflexivity.
  unfold inline. rewrite (emphasis_identity (js "`" ++ s ++ js "`")).
  2:{ rewrite !Forall_app. repeat split; try easy; now apply no_char_closed. }
  assert (Hcode : replace_re inline_code_re (js "<code>$1</code>") (js "`" ++ s ++ js "`")
                  = js "<code>" ++ s ++ js "</code>").
  { unfold replace_re, replace_fn.
    rewrite <- (app_nil_r (js "`" ++ s ++ js "`")).
    erewrite replace_loop_match;
      [| |rewrite <- !app_assoc; apply inline_code_match; easy|reflexivity].
    - cbn [replace_loop]. rewrite (proj2 guarded_inline_code), app_nil_r.
      unfold template. cbn [m_text m_caps m_rest].
      change (ncaps inline_code_re) with 1%nat. now rewrite template_code.
    - discriminate. }
  rewrite Hcode.
  rewrite (list_items_identity (js "<code>" ++ s ++ js "</code>") Hline2) by now split.
  rewrite (paragraphs_single (js "<code>" ++ s ++ js "</code>"))
    by (apply one_line_no_newline; exact Hline2).
  assert (Hwrap : wrap_para (js "<code>" ++ s ++ js "</code>")
                  = js "<p><code>" ++ s ++ js "</code></p>").
  { etransitivity;
      [exact (wrap_para_tag 99 (js "ode>" ++ s ++ js "</code>") eq_refl)|].
    change (js "<p><code>" ++ (s ++ js "</code>") ++ js "</p>"
            = js "<p><code>" ++ s ++ js "</code></p>").
    now rewrite <- app_assoc. }
  rewrite Hwrap.
  rewrite (wrap_lists_no_li (js "<p><code>" ++ s ++ js "</code></p>")); [reflexivity|].
  now apply (clean_tag_li_around _ _ _ 62 60 (js "/code></p>")).
Qed.

(** ** Prose *)

Lemma prose_rendered (text : jsstring) :
  unmatched text = true -> plain_paragraph text = true ->
  markdownToHtml text = Ok (js "<p>" ++ text ++ js "</p>").
Proof.
  intros Hu Hp. rewrite (unmatched_renders_paragraphs text Hu).
  unfold plain_paragraph in Hp. rewrite !andb_true_iff, !negb_true_iff in Hp.
  destruct Hp as (((Hb & Hc) & Ht) & Hn).
  rewrite (paragraphs_single text) by (now apply no_char_closed).
  unfold wrap_para. rewrite Hb, Hc. now destruct (trim text).
Qed.

(** ** Texts as lines *)

Lemma unlines_lines_of (s : jsstring) :
  unlines (fst (lines_of s)) (snd (lines_of s)) = s.
Proof.
  induction s as [|c s IH]; [reflexivity|]. cbn [lines_of].
  destruct (isLineTerminator c).
  - cbn. now rewrite IH.
  - destruct (fst (lines_of s)) as [|[l t] segs]; cbn in *; now rewrite IH.
Qed.

Lemma lines_of_ended (s : jsstring) :
  Forall line_ended (fst (lines_of s)) /\ one_line (snd (lines_of s)).
Proof.
  induction s as [|c s [IH1 IH2]]; [split; constructor|]. cbn [lines_of].
  destruct (isLineTerminator c) eqn:E.
  - cbn. split; [|easy]. constructor; [|easy]. split; [constructor|easy].
  - destruct (fst (lines_of s)) as [|[l t] segs]; cbn in *.
    + split; [constructor|now constructor].
    + inversion IH1 as [|? ? [Hl Ht] Hsegs]; subst. cbn in *.
      split; [|easy]. constructor; [|easy]. split; [now constructor|easy].
Qed.

(** ** Headings, line by line *)

Lemma groups_Lit (l : jsstring) : groups (Lit l) = [].
Proof. induction l as [|c l IH]; [reflexivity|]. cbn. exact IH. Qed.

Lemma ncaps_heading (marker : jsstring) : ncaps (heading_re marker) = 1%nat.
Proof. unfold ncaps, heading_re. cbn [groups]. now rewrite groups_Lit. Qed.

(** A marker without a line terminator cannot reach over the end of a line. *)
Lemma is_prefix_app_stop (marker l rest : jsstring) :
  one_line marker -> stops isDot rest ->
  is_prefix marker (l ++ rest) = is_prefix marker l.
Proof.
  intros Hm Hrest. revert l. induction Hm as [|m marker Hm0 Hm IH]; intros l; [reflexivity|].
  destruct l as [|c l]; cbn [app is_prefix].
  - destruct rest as [|t rest]; [reflexivity|]. cbn in Hrest.
    unfold isDot in Hrest. apply negb_false_iff in Hrest.
    destruct (m =? t) eqn:E; [|reflexivity].
    apply N.eqb_eq in E. congruence.
  - now rewrite IH.
Qed.

Lemma replace_loop_clean_app r f h (bef l rest : jsstring) :
  (forall bef c aft, h (hd_error bef) c = false -> match_here r bef (c :: aft) = None) ->
  clean h (hd_error bef) l = true ->
  replace_loop r f bef (l ++ rest) 0 = l ++ replace_loop r f (rev l ++ bef) rest 0.
Proof.
  intros Hg. revert bef. induction l as [|c l IH]; intros bef H; [reflexivity|].
  cbn [clean] in H. apply andb_prop in H as [H1 H2]. apply negb_true_iff in H1.
  cbn [app replace_loop]. rewrite (Hg _ _ _ H1). f_equal.
  rewrite (IH (c :: bef)) by easy. cbn [rev]. now rewrite <- app_assoc.
Qed.

Lemma at_eol_stops (bef rest : jsstring) cs :
  stops isDot rest -> at_eol true (MState bef rest cs) = true.
Proof.
  intros H. destruct rest as [|t rest]; [reflexivity|]. cbn in *.
  unfold isDot in H. now apply negb_false_iff in H.
Qed.

(** The heading pattern at the start of a line that has the marker. *)
Lemma heading_match (marker title rest bef : jsstring) :
  line_start (hd_error bef) = true ->
  one_line title -> stops isDot rest ->
  match_here (heading_re marker) bef (marker ++ title ++ rest)
  = Some (MResult (marker ++ title) [(1%nat, title)] rest).
Proof.
  intros Hbol Htitle Hrest. unfold match_here, heading_re.
  rewrite rmatch_Seq, rmatch_Bol, at_bol_line_start, Hbol.
  rewrite rmatch_Seq, rmatch_Lit, rmatch_Group, rmatch_Seq, rmatch_star_greedy.
  cbn [after before caps].
  rewrite (greedy_chars_all isDot _ _ title rest _
             (MState (rev title ++ rev marker ++ bef) rest [(1%nat, title)])).
  - cbn [after caps]. f_equal. f_equal.
    rewrite (app_assoc marker title rest). apply firstn_app_minus.
  - eapply Forall_impl; [|exact Htitle]. intros c Hc. unfold isDot. now rewrite Hc.
  - exact Hrest.
  - rewrite rmatch_Eol.
    assert (Heol : at_eol true (MState (rev title ++ rev marker ++ bef) rest []) = true).
    { destruct rest as [|t rest]; [reflexivity|]. cbn in *.
      unfold isDot in Hrest. now apply negb_false_iff in Hrest. }
    rewrite Heol. unfold set_cap. cbn [after before caps].
    f_equal. f_equal. f_equal. f_equal. apply firstn_app_minus.
Qed.

Lemma heading_no_prefix (marker bef aft : jsstring) :
  is_prefix marker aft = false -> match_here (heading_re marker) bef aft = None.
Proof. apply match_here_Bol_Lit. Qed.

Section HeadingStage.
Variable marker' : jsstring.
Variables opn cls tmpl : jsstring.
Let marker := 35 :: marker'.
Hypothesis marker_line : one_line marker.
Hypothesis tmpl_tag :
  forall matched pre post cs,
    GetSubstitution 1 matched pre post cs tmpl = opn ++ cap_text 1 cs ++ cls.

Let f := template (heading_re marker) tmpl.

Lemma heading_stage_terminator (bef : jsstring) (t : code_unit) (rest : jsstring) :
  isLineTerminator t = true ->
  replace_loop (heading_re marker) f bef (t :: rest) 0
  = t :: replace_loop (heading_re marker) f (t :: bef) rest 0.
Proof.
  intros Ht. cbn [replace_loop].
  rewrite (proj1 (guarded_heading marker')); [reflexivity|].
  unfold line_opens_with. destruct (35 =? t) eqn:E; [|apply andb_false_r].
  apply N.eqb_eq in E. subst t. discriminate.
Qed.

Lemma heading_stage_end (bef : jsstring) :
  replace_loop (heading_re marker) f bef [] 0 = [].
Proof. cbn [replace_loop]. now rewrite (proj2 (guarded_heading marker')). Qed.

Lemma heading_stage_line (bef l rest : jsstring) :
  line_start (hd_error bef) = true ->
  one_line l -> stops isDot rest ->
  exists bef',
    replace_loop (heading_re marker) f bef (l ++ rest) 0
    = heading_tag marker' opn cls l ++ replace_loop (heading_re marker) f bef' rest 0.
Proof.
  intros Hbol Hl Hrest. unfold heading_tag. fold marker.
  destruct (is_prefix marker l) eqn:E.
  - apply is_prefix_split in E as [title ->].
    rewrite skipn_app_exact.
    assert (Htitle : one_line title) by now apply Forall_app in Hl.
    exists (rev (marker ++ title) ++ bef).
    rewrite (replace_loop_match _ _ bef (marker ++ title) rest
               (MResult (marker ++ title) [(1%nat, title)] rest)).
    + unfold f, template. cbn [m_text m_caps m_rest].
      rewrite ncaps_heading, tmpl_tag. cbn [cap_text lookup Nat.eqb].
      now rewrite <- !app_assoc.
    + discriminate.
    + rewrite <- app_assoc. now apply heading_match.
    + reflexivity.
  - exists (rev l ++ bef).
    destruct l as [|c l]; [reflexivity|].
    inversion Hl as [|? ? Hc Hl']; subst.
    cbn [app replace_loop].
    rewrite (heading_no_prefix marker bef (c :: l ++ rest)).
    2:{ change (c :: l ++ rest) with ((c :: l) ++ rest).
        now rewrite is_prefix_app_stop. }
    f_equal.
    rewrite (replace_loop_clean_app _ _ (line_opens_with (N.eqb 35)) (c :: bef) l rest).
    + cbn [rev]. now rewrite <- app_assoc.
    + exact (proj1 (guarded_heading marker')).
    + apply clean_line; [easy|]. destruct l; [easy|].
      unfold line_opens_with. cbn [hd_error line_start]. now rewrite Hc.
Qed.

Lemma heading_stage_lines (segs : list (jsstring * code_unit)) (last bef : jsstring) :
  Forall line_ended segs -> one_line last ->
  line_start (hd_error bef) = true ->
  replace_loop (heading_re marker) f bef (unlines segs last) 0
  = unlines (map_lines (heading_tag marker' opn cls) segs) (heading_tag marker' opn cls last).
Proof.
  intros Hsegs Hlast. revert bef.
  induction Hsegs as [|[l t] segs [Hl Ht] Hsegs IH]; intros bef Hbol; cbn [unlines map_lines map fst snd].
  - destruct (heading_stage_line bef last [] Hbol Hlast I) as [bef' H].
    rewrite app_nil_r in H. rewrite H, heading_stage_end. apply app_nil_r.
  - cbn in Hl, Ht.
    destruct (heading_stage_line bef l (t :: unlines segs last) Hbol Hl) as [bef' H].
    { cbn. unfold isDot. now rewrite Ht. }
    rewrite H, heading_stage_terminator by easy.
    f_equal. f_equal. apply IH. cbn. exact Ht.
Qed.

Lemma heading_tag_line (l : jsstring) :
  one_line opn -> one_line cls -> one_line l -> one_line (heading_tag marker' opn cls l).
Proof.
  intros Ho Hc Hl. unfold heading_tag. fold marker. destruct (is_prefix marker l); [|easy].
  repeat apply one_line_app; try easy.
  rewrite <- (firstn_skipn (List.length marker) l) in Hl.
  now apply Forall_app in Hl.
Qed.
End HeadingStage.

Lemma h3_stage_lines segs last :
  Forall line_ended segs -> one_line last ->
  replace_re h3_re (js "<h3>$1</h3>") (unlines segs last)
  = unlines (map_lines h3_tag segs) (h3_tag last).
Proof.
  intros Hs Hl.
  exact (heading_stage_lines (js "## ") (js "<h3>") (js "</h3>") (js "<h3>$1</h3>")
           (one_line_closed (js "### ") eq_refl) template_h3 segs last [] Hs Hl eq_refl).
Qed.

Lemma h2_stage_lines segs last :
  Forall line_ended segs -> one_line last ->
  replace_re h2_re (js "<h2>$1</h2>") (unlines segs last)
  = unlines (map_lines h2_tag segs) (h2_tag last).
Proof.
  intros Hs Hl.
  exact (heading_stage_lines (js "# ") (js "<h2>") (js "</h2>") (js "<h2>$1</h2>")
           (one_line_closed (js "## ") eq_refl) template_h2 segs last [] Hs Hl eq_refl).
Qed.

Lemma h1_stage_lines segs last :
  Forall line_ended segs -> one_line last ->
  replace_re h1_re (js "<h1>$1</h1>") (unlines segs last)
  = unlines (map_lines h1_tag segs) (h1_tag last).
Proof.
  intros Hs Hl.
  exact (heading_stage_lines (js " ") (js "<h1>") (js "</h1>") (js "<h1>$1</h1>")
           (one_line_closed (js "# ") eq_refl) template_h1 segs last [] Hs Hl eq_refl).
Qed.

Lemma map_lines_ended f segs :
  (forall l, one_line l -> one_line (f l)) ->
  Forall line_ended segs -> Forall line_ended (map_lines f segs).
Proof.
  intros Hf Hs. induction Hs as [|[l t] segs [Hl Ht] Hs IH]; [constructor|].
  constructor; [|exact IH]. split; [now apply Hf|easy].
Qed.

Lemma map_lines_map_lines f g segs :
  map_lines g (map_lines f segs) = map_lines (fun l => g (f l)) segs.
Proof. unfold map_lines. rewrite map_map. reflexivity. Qed.

Lemma map_lines_ext f g segs :
  (forall l, f l = g l) -> map_lines f segs = map_lines g segs.
Proof. intros H. unfold map_lines. apply map_ext. intros [l t]. cbn. now rewrite H. Qed.

Lemma h3_tag_line l : one_line l -> one_line (h3_tag l).
Proof. apply heading_tag_line; now apply one_line_closed. Qed.

Lemma h2_tag_line l : one_line l -> one_line (h2_tag l).
Proof. apply heading_tag_line; now apply one_line_closed. Qed.

(** The three stages, in the order of the code, agree with the longest
    marker: a line tagged by one stage is left alone by the next ones. *)
Lemma heading_line_stages (l : jsstring) : h1_tag (h2_tag (h3_tag l)) = heading_line l.
Proof.
  unfold h1_tag, h2_tag, h3_tag, heading_tag, heading_line.
  change (35 :: js "## ") with (js "### ").
  change (35 :: js "# ") with (js "## ").
  change (35 :: js " ") with (js "# ").
  destruct (is_prefix (js "### ") l) eqn:E3; [reflexivity|].
  destruct (is_prefix (js "## ") l) eqn:E2; [reflexivity|].
  destruct (is_prefix (js "# ") l) eqn:E1; reflexivity.
Qed.

Lemma headings_lines segs last :
  Forall line_ended segs -> one_line last ->
  headings (unlines segs last)
  = unlines (map_lines heading_line segs) (heading_line last).
Proof.
  intros Hs Hl. unfold headings.
  rewrite (h3_stage_lines segs last Hs Hl).
  rewrite (h2_stage_lines (map_lines h3_tag segs) (h3_tag last))
    by (try apply map_lines_ended; auto using h3_tag_line).
  rewrite (h1_stage_lines (map_lines h2_tag (map_lines h3_tag segs)) (h2_tag (h3_tag last)))
    by (repeat apply map_lines_ended; auto using h3_tag_line, h2_tag_line).
  rewrite !map_lines_map_lines, heading_line_stages.
  f_equal. apply map_lines_ext. intros l. apply heading_line_stages.
Qed.

(** A level-3 heading on its own, from the source text to the output. *)
Lemma heading_rendered (title : jsstring) :
  Forall (fun c => c <> 96 /\ c <> 42 /\ isLineTerminator c = false) title ->
  no_li_tag title = true ->
  markdownToHtml (js "### " ++ title) = Ok (js "<h3>" ++ title ++ js "</h3>").
Proof.
  intros Ht Hli.
  assert (Htick : Forall (fun c => c <> 96) title)
    by (eapply Forall_impl; [|exact Ht]; now intros c (H1 & H2 & H3)).
  assert (Hstar : Forall (fun c => c <> 42) title)
    by (eapply Forall_impl; [|exact Ht]; now intros c (H1 & H2 & H3)).
  assert (Hline : one_line title)
    by (eapply Forall_impl; [|exact Ht]; now intros c (H1 & H2 & H3)).
  assert (Hline1 : one_line (js "### " ++ title)).
  { apply one_line_app; [now apply one_line_closed|easy]. }
  assert (Hline2 : one_line (js "<h3>" ++ title ++ js "</h3>")).
  { repeat apply one_line_app; try easy; now apply one_line_closed. }
  unfold markdownToHtml.
  rewrite extract_fences_none.
  2:{ apply clean_by_current with (ok := fun c => negb (c =? 96)).
      - intros p c Hc. apply negb_true_iff in Hc.
        destruct p; cbn; [|reflexivity]. now rewrite Hc, andb_false_r.
      - apply Forall_app. split.
        + apply (Forall_forallb (fun c => negb (c =? 96))); [easy|reflexivity].
        + eapply Forall_impl; [|exact Htick]. intros c Hc.
          apply negb_true_iff. now apply N.eqb_neq. }
  cbn [bind fst snd codeBlocks restore]. unfold process.
  assert (Hh : headings (js "### " ++ title) = js "<h3>" ++ title ++ js "</h3>")
    by exact (headings_lines [] (js "### " ++ title) (Forall_nil _) Hline1).
  rewrite Hh.
  rewrite (hr_identity (js "<h3>" ++ title ++ js "</h3>") Hline2) by reflexivity.
  unfold inline. rewrite (emphasis_identity (js "<h3>" ++ title ++ js "</h3>")).
  2:{ rewrite !Forall_app. repeat split; try easy; now apply no_char_closed. }
  rewrite (replace_re_clean inline_code_re (js "<code>$1</code>") (opens_with 96)
             (js "<h3>" ++ title ++ js "</h3>") guarded_inline_code).
  2:{ apply no_char_clean. rewrite !Forall_app.
      repeat split; try easy; now apply no_char_closed. }
  rewrite (list_items_identity (js "<h3>" ++ title ++ js "</h3>") Hline2) by now split.
  rewrite (paragraphs_single (js "<h3>" ++ title ++ js "</h3>"))
    by (apply one_line_no_newline; exact Hline2).
  assert (Hwrap : wrap_para (js "<h3>" ++ title ++ js "</h3>")
                  = js "<h3>" ++ title ++ js "</h3>")
    by exact (wrap_para_block 104 (js "3>" ++ title ++ js "</h3>") eq_refl).
  rewrite Hwrap.
  rewrite (wrap_lists_no_li (js "<h3>" ++ title ++ js "</h3>")); [reflexivity|].
  now apply (clean_tag_li_around _ _ _ 62 60 (js "/h3>")).
Qed.

(** C7: the heading stage tags every line by its longest marker; a line
    that starts with [### ] becomes the level-3 heading of the rest of the
    line, whatever the rest is, and no level-1 or level-2 heading. *)
Theorem heading_longest_prefix :
  (forall s,
      headings s
      = unlines (map_lines heading_line (fst (lines_of s)))
                (heading_line (snd (lines_of s)))) /\
  (forall title,
      heading_line (js "### " ++ title) = js "<h3>" ++ title ++ js "</h3>") /\
  (forall title,
      one_line title ->
      headings (js "### " ++ title) = js "<h3>" ++ title ++ js "</h3>") /\
  (forall title,
      Forall (fun c => c <> 96 /\ c <> 42 /\ isLineTerminator c = false) title ->
      no_li_tag title = true ->
      markdownToHtml (js "### " ++ title) = Ok (js "<h3>" ++ title ++ js "</h3>")) /\
  markdownToHtml (js "### Title") = Ok (js "<h3>Title</h3>").
Proof.
  split; [|split; [|split; [|split; [exact heading_rendered|]]]].
  - intros s. rewrite <- (unlines_lines_of s) at 1.
    apply headings_lines; apply lines_of_ended.
  - intros title. reflexivity.
  - intros title Hl.
    exact (headings_lines [] (js "### " ++ title) (Forall_nil _)
             (one_line_app _ _ (one_line_closed (js "### ") eq_refl) Hl)).
  - vm_compute. reflexivity.
Qed.

Lemma heading_longest_prefix_witness :
  headings (js ("### a" ++ nl ++ "## b" ++ nl ++ "# c" ++ nl ++ "#### d"))
  = js ("<h3>a</h3>" ++ nl ++ "<h2>b</h2>" ++ nl ++ "<h1>c</h1>" ++ nl ++ "#### d") /\
  headings (js "### # not level 1") = js "<h3># not level 1</h3>" /\
  markdownToHtml (js "### a < b") = Ok (js "<h3>a < b</h3>").
Proof.
  split; [|split].
  - rewrite (proj1 heading_longest_prefix). vm_compute. reflexivity.
  - apply (proj1 (proj2 (proj2 heading_longest_prefix)) (js "# not level 1")).
    apply (Forall_forallb (fun c => negb (isLineTerminator c))).
    + intros c Hc. now apply negb_true_iff.
    + vm_compute. reflexivity.
  - apply (proj1 (proj2 (proj2 (proj2 heading_longest_prefix))) (js "a < b")).
    + apply (Forall_forallb
               (fun c => negb (c =? 96) && negb (c =? 42) && negb (isLineTerminator c))).
      * intros c Hc. rewrite !andb_true_iff, !negb_true_iff in Hc.
        destruct Hc as ((H1 & H2) & H3).
        repeat split; [now apply N.eqb_neq|now apply N.eqb_neq|easy].
      * vm_compute. reflexivity.
    + vm_compute. reflexivity.
Defined.

(** ** Runs of list items *)

Lemma progressed_shorter (s s' : mstate) :
  (List.length (after s') < List.length (after s))%nat -> progressed s s' = true.
Proof. intros H. unfold progressed. now apply Nat.ltb_lt. Qed.

Lemma item_no_prefix (k : cont) (s : mstate) :
  is_prefix (js "<li>") (after s) = false -> rmatch item_re k s = None.
Proof.
  intros H. unfold item_re. rewrite rmatch_Group, rmatch_Seq.
  now apply rmatch_Lit_fail.
Qed.

Lemma closing_tag_suffix (pre : jsstring) (c : code_unit) (post tail : jsstring) :
  js "</li>" = pre ++ c :: post ->
  is_prefix (js "<li>") tail = false ->
  stops isDot tail ->
  is_prefix (js "</li>") (post ++ tail) = false.
Proof.
  intros H Htail Hstop.
  do 5 (destruct pre as [|? pre];
        [injection H as <- <-; try reflexivity|
         cbn in H; injection H as <- H]).
  - destruct tail as [|d tail]; [reflexivity|].
    cbn in Hstop. unfold isDot in Hstop. apply negb_false_iff in Hstop.
    change (is_prefix (js "</li>") ([] ++ d :: tail))
      with ((60 =? d) && is_prefix (js "/li>") tail).
    destruct (60 =? d) eqn:E; [|reflexivity].
    apply N.eqb_eq in E. subst d. discriminate.
  - now destruct pre.
Qed.

(** The greedy run of an item takes the text up to the closing tag that
    ends the line. *)
Lemma item_greedy (R : regex) (k : cont) (bef t tail : jsstring) cs e :
  one_line t -> stops isDot tail -> is_prefix (js "<li>") tail = false ->
  rmatch (Seq (Lit (js "</li>")) R) k (MState (rev t ++ bef) (js "</li>" ++ tail) cs)
  = Some e ->
  greedy_chars isDot (rmatch (Seq (Lit (js "</li>")) R) k) bef
               (t ++ js "</li>" ++ tail) cs = Some e.
Proof.
  intros Ht Hstop Htail Hk.
  apply greedy_chars_app.
  - eapply Forall_impl; [|exact Ht]. intros c Hc. unfold isDot. now rewrite Hc.
  - rewrite greedy_chars_giveback; [exact Hk| |exact Hstop|].
    + now apply (Forall_forallb isDot).
    + intros pre c post H. rewrite rmatch_Seq. apply rmatch_Lit_fail.
      cbn [after]. now apply (closing_tag_suffix pre c post tail).
Qed.

Lemma item_accepts_newline (k : cont) (bef t rest final : jsstring) :
  one_line t ->
  accepts k (10 :: rev (li t) ++ bef) rest final ->
  accepts (rmatch item_re k) bef (li t ++ 10 :: rest) final.
Proof.
  intros Ht Hk cs. unfold item_re, li.
  rewrite rmatch_Group, rmatch_Seq. rewrite <- !app_assoc. rewrite rmatch_Lit.
  rewrite rmatch_Seq, rmatch_star_greedy. cbn [after before caps].
  set (k' := fun s' : mstate => k (set_cap 1 _ s')).
  destruct (Hk ((1%nat, js "<li>" ++ t ++ js "</li>" ++ [10]) :: cs)) as (e & He & Hfinal).
  exists e. split; [|exact Hfinal].
  apply item_greedy; [easy|reflexivity|reflexivity|].
  rewrite rmatch_Seq, rmatch_Lit, rmatch_Opt.
  change (groups (Chr (N.eqb 10))) with (@nil nat). rewrite clear_caps_nil.
  rewrite rmatch_Chr. cbn [N.eqb]. rewrite N.eqb_refl.
  rewrite progressed_shorter by (cbn [after List.length]; lia).
  match goal with
  | |- match ?x with Some _ => _ | None => _ end = _ =>
      replace x with (Some e); [reflexivity|symmetry]
  end.
  unfold k', set_cap. cbn [after before caps].
  rewrite <- He. f_equal. f_equal.
  - unfold li. rewrite !rev_app_distr. now rewrite <- !app_assoc.
  - f_equal. f_equal.
    exact (firstn_app_minus4 (js "<li>") t (js "</li>") 10 rest).
Qed.

Lemma item_accepts_last (k : cont) (bef t tail final : jsstring) :
  one_line t ->
  stops isDot tail -> stops (N.eqb 10) tail ->
  accepts k (rev (li t) ++ bef) tail final ->
  accepts (rmatch item_re k) bef (li t ++ tail) final.
Proof.
  intros Ht Hstop Hnl Hk cs. unfold item_re, li.
  rewrite rmatch_Group, rmatch_Seq. rewrite <- !app_assoc. rewrite rmatch_Lit.
  rewrite rmatch_Seq, rmatch_star_greedy. cbn [after before caps].
  set (k' := fun s' : mstate => k (set_cap 1 _ s')).
  destruct (Hk ((1%nat, js "<li>" ++ t ++ js "</li>") :: cs)) as (e & He & Hfinal).
  exists e. split; [|exact Hfinal].
  assert (Htail : is_prefix (js "<li>") tail = false).
  { destruct tail as [|d tail]; [reflexivity|]. cbn in Hstop.
    unfold isDot in Hstop. apply negb_false_iff in Hstop.
    change (is_prefix (js "<li>") (d :: tail)) with ((60 =? d) && is_prefix (js "li>") tail).
    destruct (60 =? d) eqn:E; [|reflexivity].
    apply N.eqb_eq in E. subst d. discriminate. }
  apply item_greedy; [easy|easy|easy|].
  rewrite rmatch_Seq, rmatch_Lit, rmatch_Opt.
  change (groups (Chr (N.eqb 10))) with (@nil nat). rewrite clear_caps_nil.
  assert (Hopt : forall k0, rmatch (Chr (N.eqb 10)) k0
                   (MState (rev (js "</li>") ++ rev t ++ rev (js "<li>") ++ bef) tail cs)
                 = None).
  { intros k0. destruct tail as [|d tail]; [reflexivity|].
    rewrite rmatch_Chr. cbn in Hnl. now rewrite Hnl. }
  rewrite Hopt.
  unfold k', set_cap. cbn [after before caps].
  rewrite <- He. f_equal. f_equal.
  - unfold li. rewrite !rev_app_distr. now rewrite <- !app_assoc.
  - f_equal. f_equal.
    exact (firstn_app_minus3 (js "<li>") t (js "</li>") tail).
Qed.

(** Further iterations: the lines of a run, then whatever ends it. *)
Lemma run_accepts (gs : list nat) (ts : list jsstring) (tail final : jsstring) :
  Forall one_line ts ->
  (forall fuel bef,
      (List.length tail <= fuel)%nat ->
      accepts (star_loop (rmatch item_re) gs true Some fuel) bef tail final) ->
  forall fuel bef,
    (List.length (li_lines ts ++ tail) <= fuel)%nat ->
    accepts (star_loop (rmatch item_re) gs true Some fuel) bef (li_lines ts ++ tail) final.
Proof.
  intros Hts Hbase. induction Hts as [|t ts Ht Hts IH]; intros fuel bef Hfuel.
  - now apply Hbase.
  - unfold li_lines in *. cbn [flat_map] in *. rewrite <- !app_assoc in *.
    cbn [app] in *.
    destruct fuel as [|n].
    { rewrite !length_app in Hfuel. cbn in Hfuel. lia. }
    intros cs. cbn [star_loop].
    assert (Hitem : accepts
              (rmatch item_re
                 (fun s' =>
                    if progressed (MState bef (li t ++ 10 :: flat_map (fun t => li t ++ [10]) ts ++ tail) cs) s'
                    then star_loop (rmatch item_re) gs true Some n s' else None))
              bef (li t ++ 10 :: flat_map (fun t => li t ++ [10]) ts ++ tail) final).
    { apply item_accepts_newline; [easy|]. intros cs'.
      rewrite progressed_shorter.
      - apply IH. rewrite (length_app (li t)) in Hfuel. cbn [List.length] in Hfuel. lia.
      - cbn [after]. rewrite (length_app (li t)). cbn [List.length]. lia. }
    destruct (Hitem (caps (clear_caps gs (MState bef (li t ++ 10 :: flat_map (fun t => li t ++ [10]) ts ++ tail) cs))))
      as (e & He & Hfinal).
    exists e. split; [|exact Hfinal].
    match goal with
    | |- match ?x with Some _ => _ | None => _ end = _ =>
        replace x with (Some e) by (symmetry; exact He); reflexivity
    end.
Qed.

(** The iteration stops where no item starts. *)
Lemma run_stops (gs : list nat) (tail : jsstring) :
  is_prefix (js "<li>") tail = false ->
  forall fuel bef, accepts (star_loop (rmatch item_re) gs true Some fuel) bef tail tail.
Proof.
  intros Htail fuel bef cs. destruct fuel as [|n]; cbn [star_loop].
  - eexists. split; reflexivity.
  - rewrite item_no_prefix by exact Htail. eexists. split; reflexivity.
Qed.

(** A run of whole lines, ended by a line that is no item. *)
Lemma list_run_match (bef : jsstring) (t : jsstring) (ts : list jsstring) (tail : jsstring) :
  one_line t -> Forall one_line ts ->
  is_prefix (js "<li>") tail = false ->
  exists cs,
    match_here list_run_re bef (li_lines (t :: ts) ++ tail)
    = Some (MResult (li_lines (t :: ts)) cs tail).
Proof.
  intros Ht Hts Htail.
  assert (H : accepts (rmatch list_run_re Some) bef (li_lines (t :: ts) ++ tail) tail).
  { change list_run_re with (Seq item_re (Star true item_re)).
    unfold li_lines. cbn [flat_map]. rewrite <- !app_assoc. cbn [app].
    intros cs. rewrite rmatch_Seq. apply item_accepts_newline; [easy|].
    intros cs'. cbn [rmatch after].
    apply (run_accepts (groups item_re) ts tail tail Hts); [|reflexivity].
    intros fuel bef0 _. now apply run_stops. }
  destruct (H []) as (e & He & Hfinal).
  exists (caps e). unfold match_here. rewrite He, Hfinal.
  now rewrite firstn_app_minus.
Qed.

(** The last line of a run that ends the text, without a line feed. *)
Lemma run_last (gs : list nat) (t : jsstring) :
  one_line t ->
  forall fuel bef,
    (List.length (li t) <= fuel)%nat ->
    accepts (star_loop (rmatch item_re) gs true Some fuel) bef (li t) [].
Proof.
  intros Ht fuel bef Hfuel cs. destruct fuel as [|n].
  { unfold li in Hfuel. rewrite !length_app in Hfuel. cbn in Hfuel. lia. }
  cbn [star_loop].
  assert (Hitem : accepts
            (rmatch item_re
               (fun s' =>
                  if progressed (MState bef (li t) cs) s'
                  then star_loop (rmatch item_re) gs true Some n s' else None))
            bef (li t ++ []) []).
  { apply item_accepts_last; [easy|exact I|exact I|]. intros cs'.
    rewrite progressed_shorter.
    - now apply run_stops.
    - cbn [after]. unfold li. rewrite !length_app. cbn. lia. }
  rewrite app_nil_r in Hitem.
  destruct (Hitem (caps (clear_caps gs (MState bef (li t) cs)))) as (e & He & Hfinal).
  exists e. split; [|exact Hfinal].
  match goal with
  | |- match ?x with Some _ => _ | None => _ end = _ =>
      replace x with (Some e) by (symmetry; exact He); reflexivity
  end.
Qed.

(** A run of whole lines that ends the text, the last line without a line
    feed. *)
Lemma list_run_match_end (bef : jsstring) (ts : list jsstring) (t : jsstring) :
  Forall one_line ts -> one_line t ->
  exists cs,
    match_here list_run_re bef (li_lines ts ++ li t)
    = Some (MResult (li_lines ts ++ li t) cs []).
Proof.
  intros Hts Ht.
  assert (H : accepts (rmatch list_run_re Some) bef (li_lines ts ++ li t) []).
  { change list_run_re with (Seq item_re (Star true item_re)).
    intros cs. rewrite rmatch_Seq.
    destruct Hts as [|t0 ts Ht0 Hts].
    - cbn [li_lines flat_map app]. rewrite <- (app_nil_r (li t)).
      apply item_accepts_last; [easy|exact I|exact I|].
      intros cs'. cbn [rmatch after]. now apply run_stops.
    - unfold li_lines. cbn [flat_map]. rewrite <- !app_assoc. cbn [app].
      apply item_accepts_newline; [easy|].
      intros cs'. cbn [rmatch after].
      apply (run_accepts (groups item_re) ts (li t) [] Hts); [|reflexivity].
      intros fuel bef0. now apply run_last. }
  destruct (H []) as (e & He & Hfinal).
  exists (caps e). unfold match_here. rewrite He, Hfinal.
  cbn [List.length]. rewrite Nat.sub_0_r. now rewrite firstn_all.
Qed.

(** ** Grouping *)

Lemma no_li_tag_prefix (s : jsstring) :
  no_li_tag s = true -> is_prefix (js "<li>") s = false.
Proof.
  destruct s as [|c s]; [reflexivity|]. intros H.
  exact (clean_pair_prefix 60 108 [105; 62] None c s H).
Qed.

Lemma replace_loop_no_li_app f prev (bef pre rest : jsstring) :
  clean tag_li prev pre = true ->
  stops (N.eqb 108) rest ->
  replace_loop list_run_re f bef (pre ++ rest) 0
  = pre ++ replace_loop list_run_re f (rev pre ++ bef) rest 0.
Proof.
  intros Hpre Hrest. revert prev bef Hpre.
  induction pre as [|c pre IH]; intros prev bef Hpre; [reflexivity|].
  cbn [clean] in Hpre. apply andb_prop in Hpre as [_ Hpre].
  cbn [app replace_loop]. rewrite match_here_list_run.
  - f_equal. rewrite (IH (Some c) (c :: bef) Hpre).
    cbn [rev]. now rewrite <- app_assoc.
  - change (is_prefix (js "<li>") (c :: pre ++ rest))
      with ((60 =? c) && is_prefix (js "li>") (pre ++ rest)).
    destruct (60 =? c) eqn:E; [|reflexivity]. cbn [andb].
    apply N.eqb_eq in E. subst c.
    destruct pre as [|d pre].
    + destruct rest as [|r rest]; [reflexivity|]. cbn in Hrest.
      change (is_prefix (js "li>") ([] ++ r :: rest))
        with ((108 =? r) && is_prefix (js "i>") rest).
      now rewrite Hrest.
    + cbn [clean tag_li] in Hpre. apply andb_prop in Hpre as [Hd _].
      apply negb_true_iff in Hd. rewrite N.eqb_refl in Hd. cbn [andb] in Hd.
      change (is_prefix (js "li>") ((d :: pre) ++ rest))
        with ((108 =? d) && is_prefix (js "i>") (pre ++ rest)).
      now rewrite N.eqb_sym, Hd.
Qed.

(** A run of list-item lines, between texts without list items, is wrapped
    in one list container. *)
Lemma wrap_lists_run (pre : jsstring) (t : jsstring) (ts : list jsstring) (post : jsstring) :
  no_li_tag pre = true ->
  one_line t -> Forall one_line ts ->
  no_li_tag post = true ->
  wrap_lists (pre ++ li_lines (t :: ts) ++ post)
  = pre ++ js "<ul>" ++ li_lines (t :: ts) ++ js "</ul>" ++ post.
Proof.
  intros Hpre Ht Hts Hpost. unfold wrap_lists, replace_fn.
  rewrite (replace_loop_no_li_app _ None [] pre) by (exact Hpre || reflexivity).
  f_equal.
  destruct (list_run_match (rev pre ++ []) t ts post Ht Hts (no_li_tag_prefix post Hpost))
    as [cs Hm].
  rewrite (replace_loop_match _ _ _ (li_lines (t :: ts)) post _ ltac:(discriminate) Hm eq_refl).
  cbn [m_text]. rewrite <- !app_assoc. do 3 f_equal.
  now apply (replace_loop_no_li _ None).
Qed.

(** The same for a run that ends the text. *)
Lemma wrap_lists_run_end (pre : jsstring) (ts : list jsstring) (t : jsstring) :
  no_li_tag pre = true ->
  Forall one_line ts -> one_line t ->
  wrap_lists (pre ++ li_lines ts ++ li t)
  = pre ++ js "<ul>" ++ li_lines ts ++ li t ++ js "</ul>".
Proof.
  intros Hpre Hts Ht. unfold wrap_lists, replace_fn.
  assert (Hstart : stops (N.eqb 108) (li_lines ts ++ li t)).
  { destruct ts; reflexivity. }
  rewrite (replace_loop_no_li_app _ None [] pre _ Hpre Hstart).
  f_equal.
  destruct (list_run_match_end (rev pre ++ []) ts t Hts Ht) as [cs Hm].
  rewrite <- (app_nil_r (li_lines ts ++ li t)) at 1.
  assert (Hm' : match_here list_run_re (rev pre ++ []) ((li_lines ts ++ li t) ++ [])
                = Some (MResult (li_lines ts ++ li t) cs []))
    by (now rewrite (app_nil_r (li_lines ts ++ li t))).
  assert (Hne : li_lines ts ++ li t <> []) by (destruct ts; discriminate).
  rewrite (replace_loop_match _ _ _ (li_lines ts ++ li t) [] _ Hne Hm' eq_refl).
  cbn [m_text replace_loop]. rewrite match_here_list_run by reflexivity.
  now rewrite <- !app_assoc.
Qed.

(** ** Every run of a text *)

Lemma no_li_prefix_app prev (pre rest : jsstring) :
  pre <> [] -> clean tag_li prev pre = true -> stops (N.eqb 108) rest ->
  is_prefix (js "<li>") (pre ++ rest) = false.
Proof.
  intros Hne Hpre Hrest. destruct pre as [|c pre]; [easy|].
  cbn [clean] in Hpre. apply andb_prop in Hpre as [_ Hpre].
  change (is_prefix (js "<li>") ((c :: pre) ++ rest))
    with ((60 =? c) && is_prefix (js "li>") (pre ++ rest)).
  destruct (60 =? c) eqn:E; [|reflexivity]. cbn [andb].
  apply N.eqb_eq in E. subst c.
  destruct pre as [|d pre].
  - destruct rest as [|r rest]; [reflexivity|]. cbn in Hrest.
    change (is_prefix (js "li>") ([] ++ r :: rest))
      with ((108 =? r) && is_prefix (js "i>") rest).
    now rewrite Hrest.
  - cbn [clean tag_li] in Hpre. apply andb_prop in Hpre as [Hd _].
    apply negb_true_iff in Hd. rewrite N.eqb_refl in Hd. cbn [andb] in Hd.
    change (is_prefix (js "li>") ((d :: pre) ++ rest))
      with ((108 =? d) && is_prefix (js "i>") (pre ++ rest)).
    now rewrite N.eqb_sym, Hd.
Qed.

(** After a run comes no list item. *)
Lemma runs_text_no_item (blocks : list run_block) (post : jsstring) :
  Forall run_block_ok blocks -> Forall (fun b => fst b <> []) blocks ->
  no_li_tag post = true ->
  is_prefix (js "<li>") (runs_text blocks post) = false.
Proof.
  intros Hok Hsep Hpost. destruct blocks as [|[pre [t ts]] blocks].
  - now apply no_li_tag_prefix.
  - inversion Hok as [|? ? (Hpre & _) _]; subst.
    inversion Hsep as [|? ? Hne _]; subst.
    cbn [runs_text fst] in *.
    now apply (no_li_prefix_app None).
Qed.

Lemma replace_loop_runs (bef : jsstring) (blocks : list run_block) (post : jsstring) :
  Forall run_block_ok blocks -> separated blocks -> no_li_tag post = true ->
  replace_loop list_run_re (fun _ m => js "<ul>" ++ m_text m ++ js "</ul>")
               bef (runs_text blocks post) 0
  = runs_grouped blocks post.
Proof.
  intros Hok. revert bef.
  induction Hok as [|[pre [t ts]] blocks (Hpre & Ht & Hts) Hok IH];
    intros bef Hsep Hpost; cbn [runs_text runs_grouped].
  - now apply (replace_loop_no_li _ None).
  - unfold separated in Hsep. cbn [tl fst snd] in *.
    rewrite (replace_loop_no_li_app _ None bef pre) by (exact Hpre || reflexivity).
    f_equal.
    destruct (list_run_match (rev pre ++ bef) t ts (runs_text blocks post) Ht Hts
                (runs_text_no_item blocks post Hok Hsep Hpost)) as [cs Hm].
    rewrite (replace_loop_match _ _ _ (li_lines (t :: ts)) (runs_text blocks post) _
               ltac:(discriminate) Hm eq_refl).
    cbn [m_text]. rewrite <- !app_assoc. do 3 f_equal.
    apply IH; [|exact Hpost].
    unfold separated. destruct blocks as [|b blocks]; [constructor|].
    now inversion Hsep.
Qed.

(** Every run of list-item lines of a text is wrapped in a list container
    of its own. *)
Lemma wrap_lists_runs (blocks : list run_block) (post : jsstring) :
  Forall run_block_ok blocks -> separated blocks -> no_li_tag post = true ->
  wrap_lists (runs_text blocks post) = runs_grouped blocks post.
Proof. apply replace_loop_runs. Qed.

(** ** Replacement, line by line *)

Section Linewise.
Variable r : regex.
Variable f : jsstring -> mresult -> jsstring.
Variable out : jsstring -> jsstring.
Variable P : jsstring -> Prop.

Hypothesis on_line :
  forall l bef rest,
    P l -> line_start (hd_error bef) = true -> stops isDot rest ->
    replace_loop r f bef (l ++ rest) 0
    = out l ++ replace_loop r f (rev l ++ bef) rest 0.
Hypothesis on_terminator :
  forall bef t rest,
    isLineTerminator t = true ->
    replace_loop r f bef (t :: rest) 0 = t :: replace_loop r f (t :: bef) rest 0.
Hypothesis on_end : forall bef, replace_loop r f bef [] 0 = [].

Lemma replace_lines (segs : list (jsstring * code_unit)) (last bef : jsstring) :
  Forall (fun lt => P (fst lt) /\ isLineTerminator (snd lt) = true) segs ->
  P last ->
  line_start (hd_error bef) = true ->
  replace_loop r f bef (unlines segs last) 0
  = unlines (map_lines out segs) (out last).
Proof.
  intros Hsegs Hlast. revert bef.
  induction Hsegs as [|[l t] segs [Hl Ht] Hsegs IH]; intros bef Hbol;
    cbn [unlines map_lines map fst snd].
  - rewrite <- (app_nil_r last) at 1.
    rewrite (on_line last bef [] Hlast Hbol I). rewrite on_end. apply app_nil_r.
  - cbn [fst snd] in Hl, Ht.
    rewrite (on_line l bef (t :: unlines segs last) Hl Hbol)
      by (cbn; unfold isDot; now rewrite Ht).
    rewrite on_terminator by exact Ht.
    f_equal. f_equal. apply IH. exact Ht.
Qed.
End Linewise.

(** A guarded pattern steps over a line terminator and stops at the end. *)
Lemma guarded_terminator r f h (bef : jsstring) (t : code_unit) (rest : jsstring) :
  guarded r h -> (forall p, h p t = false) ->
  replace_loop r f bef (t :: rest) 0 = t :: replace_loop r f (t :: bef) rest 0.
Proof.
  intros [Hg _] Ht. cbn [replace_loop]. now rewrite (Hg bef t rest (Ht _)).
Qed.

Lemma guarded_end r f h (bef : jsstring) :
  guarded r h -> replace_loop r f bef [] 0 = [].
Proof. intros [_ Hg]. cbn [replace_loop]. now rewrite Hg. Qed.

Lemma opens_with_terminator (a t : code_unit) :
  isLineTerminator a = false -> isLineTerminator t = true ->
  forall p, opens_with a p t = false.
Proof.
  intros Ha Ht p. unfold opens_with. apply N.eqb_neq. intros ->. congruence.
Qed.

Lemma line_opens_with_terminator q (t : code_unit) :
  q t = false -> forall p, line_opens_with q p t = false.
Proof. intros Hq p. unfold line_opens_with. now rewrite Hq, andb_false_r. Qed.

(** A line whose first code unit opens no match, and the rest is clean. *)
Lemma replace_line_head r f h (bef : jsstring) (c : code_unit) (l rest : jsstring) :
  guarded r h ->
  match_here r bef (c :: l ++ rest) = None ->
  clean h (Some c) l = true ->
  replace_loop r f bef ((c :: l) ++ rest) 0
  = (c :: l) ++ replace_loop r f (rev (c :: l) ++ bef) rest 0.
Proof.
  intros [Hg _] Hm Hl. cbn [app replace_loop]. rewrite Hm. f_equal.
  rewrite (replace_loop_clean_app r f h (c :: bef) l rest Hg Hl).
  cbn [rev]. now rewrite <- app_assoc.
Qed.

(** ** List items: the patterns on their lines *)

Lemma lazy_chars_stop p k (bef rest : jsstring) cs :
  k (MState bef rest cs) = None -> stops p rest ->
  lazy_chars p k bef rest cs = None.
Proof.
  intros Hk Hstop. destruct rest as [|c rest]; cbn [lazy_chars]; rewrite Hk; [reflexivity|].
  cbn in Hstop. now rewrite Hstop.
Qed.

(** The italic pattern finds no closing asterisk on the line of a bullet. *)
Lemma italic_no_match_on_bullet (bef t rest : jsstring) :
  Forall (fun c => c <> 42) t -> one_line t -> stops isDot rest ->
  match_here italic_re bef (js "* " ++ t ++ rest) = None.
Proof.
  intros Hstar Hline Hstop.
  change italic_re with (delimited (js "*") isDot (js "*")).
  change (js "* " ++ t ++ rest) with (js "*" ++ (32 :: t) ++ rest).
  unfold match_here, delimited.
  rewrite rmatch_Seq, rmatch_Lit, rmatch_Seq, rmatch_Group, rmatch_star_lazy.
  cbn [after before caps].
  rewrite lazy_chars_skip.
  - rewrite lazy_chars_stop; [reflexivity| |exact Hstop].
    unfold set_cap. cbn [after before caps]. apply rmatch_Lit_fail. cbn [after].
    destruct rest as [|d rest]; [reflexivity|]. cbn in Hstop.
    unfold isDot in Hstop. apply negb_false_iff in Hstop.
    change (is_prefix (js "*") (d :: rest)) with ((42 =? d) && true).
    destruct (42 =? d) eqn:E; [|reflexivity].
    apply N.eqb_eq in E. subst d. discriminate.
  - constructor; [reflexivity|].
    eapply Forall_impl; [|exact Hline]. intros c Hc. unfold isDot. now rewrite Hc.
  - intros pre c post Hsplit. unfold set_cap. cbn [after before caps].
    apply rmatch_Lit_fail. cbn [after].
    change (is_prefix (js "*") (c :: post ++ rest)) with ((42 =? c) && true).
    assert (Hc : In c (32 :: t)) by (rewrite Hsplit; apply in_elt).
    destruct Hc as [<-|Hc]; [reflexivity|].
    rewrite Forall_forall in Hstar. apply Hstar in Hc.
    apply N.eqb_neq in Hc. now rewrite N.eqb_sym, Hc.
Qed.

(** The bullet pattern on the line of a bullet. *)
Lemma bullet_match (bef t rest : jsstring) :
  line_start (hd_error bef) = true ->
  t <> [] -> one_line t -> stops isDot rest ->
  match_here bullet_re bef (js "* " ++ t ++ rest)
  = Some (MResult (js "* " ++ t) [(1%nat, t)] rest).
Proof.
  intros Hbol Hne Ht Hstop. destruct t as [|c t]; [easy|].
  inversion Ht as [|? ? Hc Ht']; subst.
  unfold match_here, bullet_re, Plus.
  rewrite rmatch_Seq, rmatch_Bol, at_bol_line_start, Hbol.
  rewrite rmatch_Seq, rmatch_Lit, rmatch_Seq, rmatch_Group, rmatch_Seq.
  cbn [after before caps app]. rewrite rmatch_Chr.
  unfold isDot at 1. rewrite Hc. cbn [negb].
  rewrite rmatch_star_greedy.
  rewrite (greedy_chars_all isDot _ _ t rest _
             (MState (rev t ++ c :: rev (js "* ") ++ bef) rest [(1%nat, c :: t)])).
  - cbn [after caps]. f_equal. f_equal.
    exact (firstn_app_minus (js "* " ++ c :: t) rest).
  - eapply Forall_impl; [|exact Ht']. intros d Hd. unfold isDot. now rewrite Hd.
  - exact Hstop.
  - unfold set_cap. cbn [after before caps].
    rewrite rmatch_Eol, at_eol_stops by exact Hstop.
    f_equal. f_equal. f_equal. f_equal.
    exact (firstn_app_minus (c :: t) rest).
Qed.

(** The numbered pattern on the line of a numbered item. *)
Lemma numbered_match (bef ds t rest : jsstring) :
  line_start (hd_error bef) = true ->
  ds <> [] -> Forall (fun c => isDigit c = true) ds ->
  t <> [] -> one_line t -> stops isDot rest ->
  match_here numbered_re bef (ds ++ js ". " ++ t ++ rest)
  = Some (MResult (ds ++ js ". " ++ t) [(1%nat, t)] rest).
Proof.
  intros Hbol Hds Hdigits Hne Ht Hstop.
  destruct ds as [|d ds]; [easy|]. destruct t as [|c t]; [easy|].
  inversion Hdigits as [|? ? Hd Hdigits']; subst.
  inversion Ht as [|? ? Hc Ht']; subst.
  unfold match_here, numbered_re, Plus.
  rewrite rmatch_Seq, rmatch_Bol, at_bol_line_start, Hbol.
  rewrite rmatch_Seq, rmatch_Seq. cbn [app]. rewrite rmatch_Chr, Hd, rmatch_star_greedy.
  rewrite (greedy_chars_all isDigit _ _ ds (js ". " ++ (c :: t) ++ rest) _
             (MState (rev t ++ c :: rev (js ". ") ++ rev ds ++ d :: bef) rest
                     [(1%nat, c :: t)])).
  - cbn [after caps]. f_equal. f_equal.
    change (d :: ds ++ js ". " ++ (c :: t) ++ rest)
      with ((d :: ds) ++ js ". " ++ (c :: t) ++ rest).
    exact (firstn_app_minus3 (d :: ds) (js ". ") (c :: t) rest).
  - exact Hdigits'.
  - reflexivity.
  - rewrite rmatch_Seq, rmatch_Lit, rmatch_Seq, rmatch_Group, rmatch_Seq.
    cbn [after before caps app]. rewrite rmatch_Chr.
    unfold isDot at 1. rewrite Hc. cbn [negb].
    rewrite rmatch_star_greedy.
    apply greedy_chars_all.
    + eapply Forall_impl; [|exact Ht']. intros x Hx. unfold isDot. now rewrite Hx.
    + exact Hstop.
    + unfold set_cap. cbn [after before caps].
      rewrite rmatch_Eol, at_eol_stops by exact Hstop.
      f_equal. f_equal. f_equal. f_equal.
      exact (firstn_app_minus (c :: t) rest).
Qed.

(** ** Documents of list items *)

Section ItemLines.
Context {A : Type}.
Variable r : regex.
Variable f : jsstring -> mresult -> jsstring.
Variables g g' : A -> jsstring.
Variable ok : A -> Prop.

Hypothesis on_line :
  forall a bef rest,
    ok a -> line_start (hd_error bef) = true -> stops isDot rest ->
    replace_loop r f bef (g a ++ rest) 0
    = g' a ++ replace_loop r f (rev (g a) ++ bef) rest 0.
Hypothesis on_newline :
  forall bef rest,
    replace_loop r f bef (10 :: rest) 0 = 10 :: replace_loop r f (10 :: bef) rest 0.
Hypothesis on_end : forall bef, replace_loop r f bef [] 0 = [].

Lemma replace_doc (items : list A) (last : A) (bef : jsstring) :
  Forall ok items -> ok last ->
  line_start (hd_error bef) = true ->
  replace_loop r f bef (doc g items last) 0 = doc g' items last.
Proof.
  intros Hitems Hlast. unfold doc. revert bef.
  induction Hitems as [|a items Ha Hitems IH]; intros bef Hbol; cbn [flat_map app].
  - rewrite <- (app_nil_r (g last)) at 1.
    rewrite (on_line last bef [] Hlast Hbol I), on_end. apply app_nil_r.
  - rewrite <- !app_assoc. cbn [app].
    rewrite (on_line a bef _ Ha Hbol) by reflexivity.
    rewrite on_newline. f_equal. f_equal. now apply IH.
Qed.
End ItemLines.

(** A window that passes nowhere in the lines passes nowhere in the
    document. *)
Lemma clean_doc {A} (h : window) (g : A -> jsstring) (ok : A -> Prop)
  (items : list A) (last : A) (prev : option code_unit) :
  (forall a p, ok a -> line_start p = true -> clean h p (g a) = true) ->
  (forall p, h p 10 = false) ->
  Forall ok items -> ok last ->
  line_start prev = true ->
  clean h prev (doc g items last) = true.
Proof.
  intros Hline Hnl Hitems Hlast. unfold doc. revert prev.
  induction Hitems as [|a items Ha Hitems IH]; intros prev Hprev; cbn [flat_map app].
  - now apply Hline.
  - rewrite <- !app_assoc. rewrite (clean_app h prev (g a)).
    rewrite (Hline a prev Ha Hprev). cbn [andb app clean].
    rewrite Hnl. cbn [negb andb]. now apply IH.
Qed.

(** ** Facts about digits and items *)

Lemma digit_bounds (c : code_unit) : isDigit c = true -> 48 <= c <= 57.
Proof.
  unfold isDigit. intros H. apply andb_prop in H as [H1 H2].
  apply N.leb_le in H1. apply N.leb_le in H2. lia.
Qed.

Lemma digit_neq (c a : code_unit) : isDigit c = true -> a < 48 \/ 57 < a -> c <> a.
Proof. intros H Ha. apply digit_bounds in H. lia. Qed.

Lemma digit_not_terminator (c : code_unit) :
  isDigit c = true -> isLineTerminator c = false.
Proof.
  intros H. apply digit_bounds in H. unfold isLineTerminator.
  repeat (apply orb_false_intro); apply N.eqb_neq; lia.
Qed.

Lemma terminator_not_digit (t : code_unit) :
  isLineTerminator t = true -> isDigit t = false.
Proof.
  intros H. destruct (isDigit t) eqn:E; [|reflexivity].
  apply digit_not_terminator in E. congruence.
Qed.

Lemma item_text_line (it : item) : item_ok it -> one_line (snd it).
Proof. intros (_ & H & _). eapply Forall_impl; [|exact H]. now intros c (Hc & _). Qed.

Lemma item_ok_line (it : item) : item_ok it -> item_line_ok it.
Proof.
  intros H. pose proof (item_text_line it H) as Ht.
  destruct H as (Hne & _ & Hm). now repeat split.
Qed.

Lemma item_text_no (a : code_unit) (it : item) :
  a = 42 \/ a = 96 -> item_ok it -> Forall (fun c => c <> a) (snd it).
Proof.
  intros Ha (_ & H & _). eapply Forall_impl; [|exact H].
  intros c (_ & H42 & H96). destruct Ha; now subst.
Qed.

Lemma digits_line (ds : jsstring) :
  Forall (fun c => isDigit c = true) ds -> one_line ds.
Proof. apply Forall_impl. intros c. apply digit_not_terminator. Qed.

Lemma digits_no (a : code_unit) (ds : jsstring) :
  a < 48 \/ 57 < a -> Forall (fun c => isDigit c = true) ds ->
  Forall (fun c => c <> a) ds.
Proof. intros Ha. apply Forall_impl. intros c Hc. now apply digit_neq. Qed.

Lemma li_line (t : jsstring) : one_line t -> one_line (li t).
Proof. intros H. unfold li. repeat apply one_line_app; try easy; now apply one_line_closed. Qed.

Lemma item_line_line (it : item) : item_line_ok it -> one_line (item_line it).
Proof.
  intros (_ & Ht & Hm). unfold item_line. destruct (fst it) as [|ds].
  - apply one_line_app; [now apply one_line_closed|easy].
  - destruct Hm as [_ Hds]. repeat apply one_line_app; try easy.
    + now apply digits_line.
    + now apply one_line_closed.
Qed.

Lemma item_bulleted_line (it : item) : item_line_ok it -> one_line (item_bulleted it).
Proof.
  intros H. pose proof (item_line_line it H) as Hl.
  destruct H as (_ & Ht & _).
  unfold item_bulleted, item_line in *. destruct (fst it); [now apply li_line|easy].
Qed.

Lemma item_line_no (a : code_unit) (it : item) :
  a = 96 -> item_ok it -> Forall (fun c => c <> a) (item_line it).
Proof.
  intros -> H. pose proof (item_text_no 96 it (or_intror eq_refl) H) as Ht.
  destruct H as (_ & _ & Hm). unfold item_line. destruct (fst it) as [|ds].
  - apply Forall_app. split; [now apply no_char_closed|easy].
  - destruct Hm as [_ Hds]. rewrite !Forall_app. repeat split; try easy.
    + apply digits_no; [lia|easy].
    + now apply no_char_closed.
Qed.

(** The first code unit of an item line: an asterisk or a digit. *)
Lemma item_line_first q (it : item) :
  item_ok it -> q 42 = false -> (forall c, isDigit c = true -> q c = false) ->
  match item_line it with c :: _ => q c = false | [] => True end.
Proof.
  intros (_ & _ & Hm) H42 Hdigit. unfold item_line. destruct (fst it) as [|ds]; [exact H42|].
  destruct Hm as [Hne Hds]. destruct ds as [|d ds]; [easy|].
  inversion Hds; subst. now apply Hdigit.
Qed.

(** ** The stages on a document of list items *)

Section ItemStages.
Variable items : list item.
Variable last : item.
Hypothesis items_ok : Forall item_ok items.
Hypothesis last_ok : item_ok last.

Lemma items_no_fence :
  extract_fences (doc item_line items last) = Ok (doc item_line items last, Fences [] 0).
Proof.
  unfold extract_fences.
  apply (replace_loop_m_clean fence_re fence_callback (opens_with 96) []);
    [exact guarded_fence|].
  apply (clean_doc _ item_line item_ok); try easy.
  intros a p Ha _. apply no_char_clean. now apply item_line_no.
Qed.

Lemma items_anchored_identity r t q :
  guarded r (line_opens_with q) ->
  q 10 = false -> q 42 = false -> (forall c, isDigit c = true -> q c = false) ->
  replace_re r t (doc item_line items last) = doc item_line items last.
Proof.
  intros Hg H10 H42 Hdigit. apply (replace_re_clean r t (line_opens_with q)); [easy|].
  apply (clean_doc _ item_line item_ok); try easy.
  - intros a p Ha Hp. apply clean_line; [now apply item_line_line, item_ok_line|].
    pose proof (item_line_first q a Ha H42 Hdigit) as H.
    destruct (item_line a); [easy|]. unfold line_opens_with. now rewrite H, andb_false_r.
  - intros p. now apply line_opens_with_terminator.
Qed.

Lemma items_headings : headings (doc item_line items last) = doc item_line items last.
Proof.
  assert (Hdigit : forall c, isDigit c = true -> (35 =? c) = false).
  { intros c Hc. apply N.eqb_neq. intros <-. discriminate. }
  unfold headings.
  rewrite (items_anchored_identity h3_re (js "<h3>$1</h3>") (N.eqb 35)
             (guarded_heading (js "## ")) eq_refl eq_refl Hdigit).
  rewrite (items_anchored_identity h2_re (js "<h2>$1</h2>") (N.eqb 35)
             (guarded_heading (js "# ")) eq_refl eq_refl Hdigit).
  exact (items_anchored_identity h1_re (js "<h1>$1</h1>") (N.eqb 35)
           (guarded_heading (js " ")) eq_refl eq_refl Hdigit).
Qed.

Lemma items_hr :
  replace_re hr_re (js "<hr>") (doc item_line items last) = doc item_line items last.
Proof.
  apply (items_anchored_identity hr_re (js "<hr>") (N.eqb 45) guarded_hr eq_refl eq_refl).
  intros c Hc. apply N.eqb_neq. intros <-. discriminate.
Qed.
End ItemStages.

Section ItemInline.
Variable items : list item.
Variable last : item.
Hypothesis items_ok : Forall item_ok items.
Hypothesis last_ok : item_ok last.

(** An emphasis pattern that finds nothing at a bullet finds nothing in the
    document. *)
Lemma items_emphasis_identity r t :
  guarded r (opens_with 42) ->
  (forall bef text rest,
      Forall (fun c => c <> 42) text -> one_line text -> stops isDot rest ->
      match_here r bef (js "* " ++ text ++ rest) = None) ->
  replace_re r t (doc item_line items last) = doc item_line items last.
Proof.
  intros Hg Hbullet. unfold replace_re, replace_fn.
  apply (replace_doc r (template r t) item_line item_line item_ok); try easy.
  - intros a bef rest Ha _ Hstop.
    pose proof (item_text_line a Ha) as Hline.
    pose proof (item_text_no 42 a (or_introl eq_refl) Ha) as Hstar.
    destruct Ha as (_ & _ & Hm). unfold item_line. destruct (fst a) as [|ds].
    + change (js "* " ++ snd a) with (42 :: 32 :: snd a).
      apply (replace_line_head r _ (opens_with 42)); [easy| |].
      * exact (Hbullet bef (snd a) rest Hstar Hline Hstop).
      * apply no_char_clean. constructor; [discriminate|easy].
    + destruct Hm as [_ Hds].
      apply (replace_loop_clean_app r _ (opens_with 42)); [apply Hg|].
      apply no_char_clean. rewrite !Forall_app. repeat split; try easy.
      * apply digits_no; [lia|easy].
      * now apply no_char_closed.
  - intros bef rest. now apply (guarded_terminator r _ (opens_with 42)).
  - intros bef. now apply (guarded_end r _ (opens_with 42)).
Qed.

Lemma items_inline : inline (doc item_line items last) = doc item_line items last.
Proof.
  unfold inline.
  rewrite (items_emphasis_identity bold_re (js "<strong>$1</strong>") guarded_bold).
  2:{ intros bef text rest _ _ _.
      exact (match_here_Lit_first (js "**") _ bef (js "* " ++ text ++ rest) eq_refl). }
  rewrite (items_emphasis_identity italic_re (js "<em>$1</em>") guarded_italic
             italic_no_match_on_bullet).
  apply (replace_re_clean inline_code_re _ (opens_with 96)); [exact guarded_inline_code|].
  apply (clean_doc _ item_line item_ok); try easy.
  intros a p Ha _. apply no_char_clean. now apply item_line_no.
Qed.

End ItemInline.

(** The list stage needs less of the items: asterisks and backticks in the
    texts are as good as any other code unit. *)
Section ItemList.
Variable items : list item.
Variable last : item.
Hypothesis items_ok : Forall item_line_ok items.
Hypothesis last_ok : item_line_ok last.

Lemma items_bullets :
  replace_re bullet_re (js "<li>$1</li>") (doc item_line items last)
  = doc item_bulleted items last.
Proof.
  unfold replace_re, replace_fn.
  apply (replace_doc bullet_re _ item_line item_bulleted item_line_ok); try easy.
  - intros a bef rest Ha Hbol Hstop.
    pose proof (item_line_line a Ha) as Hl.
    destruct Ha as (Hne & Hline & Hm). unfold item_line, item_bulleted in *.
    destruct (fst a) as [|ds].
    + rewrite <- app_assoc.
      rewrite (replace_loop_match bullet_re _ bef (js "* " ++ snd a) rest _
                 ltac:(discriminate)
                 (eq_trans (f_equal _ (eq_sym (app_assoc _ _ _)))
                           (bullet_match bef (snd a) rest Hbol Hne Hline Hstop))
                 eq_refl).
      unfold template. cbn [m_text m_caps m_rest].
      change (ncaps bullet_re) with 1%nat. rewrite template_li. reflexivity.
    + destruct Hm as [Hds Hdigits]. destruct ds as [|d ds]; [easy|].
      inversion Hdigits as [|? ? Hd _]; subst.
      apply (replace_loop_clean_app bullet_re _ (line_opens_with (N.eqb 42)));
        [apply guarded_bullet|].
      apply clean_line; [easy|]. unfold line_opens_with. cbn [app].
      replace (42 =? d) with false; [apply andb_false_r|].
      symmetry. apply N.eqb_neq. intros <-. discriminate.
  - intros bef rest.
    apply (guarded_terminator bullet_re _ (line_opens_with (N.eqb 42)) bef 10 rest
             guarded_bullet).
    now apply line_opens_with_terminator.
  - intros bef. now apply (guarded_end bullet_re _ _ bef guarded_bullet).
Qed.

Lemma items_numbers :
  replace_re numbered_re (js "<li>$1</li>") (doc item_bulleted items last)
  = doc item_element items last.
Proof.
  unfold replace_re, replace_fn.
  apply (replace_doc numbered_re _ item_bulleted item_element item_line_ok); try easy.
  - intros a bef rest Ha Hbol Hstop.
    destruct Ha as (Hne & Hline & Hm). unfold item_bulleted, item_element in *.
    destruct (fst a) as [|ds].
    + apply (replace_loop_clean_app numbered_re _ (line_opens_with isDigit));
        [apply guarded_numbered|].
      apply clean_line; [now apply li_line|]. unfold line_opens_with.
      apply andb_false_r.
    + destruct Hm as [Hds Hdigits].
      assert (Hnil : ds ++ js ". " ++ snd a <> []) by (destruct ds; easy).
      assert (Hm : match_here numbered_re bef ((ds ++ js ". " ++ snd a) ++ rest)
                   = Some (MResult (ds ++ js ". " ++ snd a) [(1%nat, snd a)] rest)).
      { rewrite <- !app_assoc. now apply numbered_match. }
      rewrite (replace_loop_match numbered_re _ bef _ rest _ Hnil Hm eq_refl).
      unfold template. cbn [m_text m_caps m_rest].
      change (ncaps numbered_re) with 1%nat. rewrite template_li. reflexivity.
  - intros bef rest.
    apply (guarded_terminator numbered_re _ (line_opens_with isDigit) bef 10 rest
             guarded_numbered).
    now apply line_opens_with_terminator.
  - intros bef. now apply (guarded_end numbered_re _ _ bef guarded_numbered).
Qed.

Lemma items_list_items :
  list_items (doc item_line items last) = doc item_element items last.
Proof. unfold list_items. now rewrite items_bullets, items_numbers. Qed.
End ItemList.

(** ** From the list stage to the output *)

Lemma doc_elements (items : list item) (last : item) :
  doc item_element items last = li_lines (map snd items) ++ li (snd last).
Proof.
  unfold doc, li_lines, item_element. f_equal.
  induction items as [|a items IH]; [reflexivity|]. cbn [map flat_map]. now rewrite IH.
Qed.

(** A text without two line feeds in a row is one paragraph. *)
Lemma split_loop_no_blank prev (s cur : jsstring) :
  clean (opens_with_pair 10 10) prev s = true ->
  split_loop [10; 10] s 0 cur = [rev cur ++ s].
Proof.
  revert prev cur. induction s as [|c s IH]; intros prev cur H.
  - cbn. now rewrite app_nil_r.
  - cbn [split_loop]. rewrite (clean_pair_prefix 10 10 [] prev c s H).
    cbn [clean] in H. apply andb_prop in H as [_ H].
    rewrite (IH (Some c) (c :: cur) H). cbn [rev]. now rewrite <- app_assoc.
Qed.

Lemma last_of_snoc prev (s : jsstring) (x : code_unit) : last_of prev (s ++ [x]) = Some x.
Proof. unfold last_of. now rewrite rev_app_distr. Qed.

Lemma li_last prev (t : jsstring) : last_of prev (li t) = Some 62.
Proof.
  unfold li. change (js "</li>") with (js "</li" ++ [62]).
  rewrite !app_assoc. apply last_of_snoc.
Qed.

Lemma li_no_blank prev (t : jsstring) :
  one_line t -> clean (opens_with_pair 10 10) prev (li t) = true.
Proof.
  intros Ht. apply clean_by_current with (ok := fun c => negb (isLineTerminator c)).
  - intros p c Hc. apply negb_true_iff in Hc.
    destruct p as [p|]; [|reflexivity]. cbn.
    destruct (c =? 10) eqn:E; [|apply andb_false_r].
    apply N.eqb_eq in E. subst c. discriminate.
  - pose proof (li_line t Ht) as H. eapply Forall_impl; [|exact H].
    intros c Hc. now rewrite Hc.
Qed.

Lemma li_lines_no_blank (ts : list jsstring) (t : jsstring) prev :
  Forall one_line ts -> one_line t ->
  clean (opens_with_pair 10 10) prev (li_lines ts ++ li t) = true.
Proof.
  intros Hts Ht. revert prev.
  induction Hts as [|t0 ts Ht0 Hts IH]; intros prev; cbn [li_lines flat_map app].
  - now apply li_no_blank.
  - rewrite <- !app_assoc. rewrite (clean_app _ prev (li t0)).
    rewrite (li_no_blank prev t0 Ht0), li_last. cbn [andb app clean].
    change (opens_with_pair 10 10 (Some 62) 10) with false. cbn [negb andb].
    apply IH.
Qed.

Lemma element_lines_paragraph (ts : list jsstring) (t : jsstring) :
  Forall one_line ts -> one_line t ->
  paragraphs (li_lines ts ++ li t) = li_lines ts ++ li t.
Proof.
  intros Hts Ht. unfold paragraphs, split.
  rewrite (split_loop_no_blank None _ [] (li_lines_no_blank ts t None Hts Ht)).
  cbn [map join rev app].
  destruct ts as [|t0 ts].
  - exact (wrap_para_block 108 (js "i>" ++ t ++ js "</li>") eq_refl).
  - exact (wrap_para_block 108
             ((((js "i>" ++ t0 ++ js "</li>") ++ [10]) ++ li_lines ts) ++ li t) eq_refl).
Qed.

(** The item lines that reach the list stage leave the pipeline as one list
    of their texts. *)
Lemma items_grouped (items : list item) (last : item) :
  Forall item_line_ok items -> item_line_ok last ->
  wrap_lists (paragraphs (list_items (doc item_line items last)))
  = js "<ul>" ++ li_lines (map snd items) ++ li (snd last) ++ js "</ul>".
Proof.
  intros Hitems Hlast.
  rewrite (items_list_items items last Hitems Hlast), doc_elements.
  assert (Hts : Forall one_line (map snd items)).
  { apply Forall_map. eapply Forall_impl; [|exact Hitems]. now intros a (_ & Ha & _). }
  assert (Ht : one_line (snd last)) by apply Hlast.
  rewrite (element_lines_paragraph _ _ Hts Ht).
  exact (wrap_lists_run_end [] _ _ eq_refl Hts Ht).
Qed.

(** A document of list items is rendered as one list of their texts. *)
Lemma items_rendered (items : list item) (last : item) :
  Forall item_ok items -> item_ok last ->
  markdownToHtml (doc item_line items last)
  = Ok (js "<ul>" ++ li_lines (map snd items) ++ li (snd last) ++ js "</ul>").
Proof.
  intros Hitems Hlast. unfold markdownToHtml.
  rewrite (items_no_fence items last Hitems Hlast).
  cbn [bind fst snd codeBlocks restore]. unfold process.
  rewrite (items_headings items last Hitems Hlast).
  rewrite (items_hr items last Hitems Hlast).
  rewrite (items_inline items last Hitems Hlast).
  apply f_equal, items_grouped; [|now apply item_ok_line].
  eapply Forall_impl; [|exact Hitems]. apply item_ok_line.
Qed.

(** ** Escaping *)

(** C2: the inline-code path does not escape.  The content of a span
    between backticks is copied as it is, by the template
    [<code>$1</code>], while the fence callback, for the same content,
    calls [escapeHtml]. *)
Theorem inline_code_copied_raw :
  markdownToHtml (js "`a<b`") = Ok (js "<p><code>a<b</code></p>") /\
  markdownToHtml (js "```a<b```") = Ok (js "<pre><code>a&lt;b</code></pre>") /\
  escapeHtml (js "a<b") = js "a&lt;b".
Proof. repeat split; vm_compute; reflexivity. Qed.

(** ** List grouping *)

(** C8: a bulleted line whose text has an asterisk is no list item.  The
    italic replacement runs before the list replacements and takes the
    asterisk of the bullet as the opening of a span, while the numbered
    line with the same text is a list item; and two runs of items with a
    blank line between them are put in one list. *)
Theorem bullet_taken_as_emphasis :
  markdownToHtml (js "* a*b") = Ok (js "<p><em> a</em>b</p>") /\
  markdownToHtml (js "1. a*b") = Ok (js "<ul><li>a*b</li></ul>") /\
  markdownToHtml (js ("* a" ++ nl ++ nl ++ "* b"))
  = Ok (js ("<ul><li>a</li>" ++ nl ++ "<li>b</li></ul>")).
Proof. repeat split; vm_compute; reflexivity. Qed.

(** * Further properties of the code *)

(** ** escapeHtml *)

Lemma escape_char_cases (c : code_unit) :
  (c = 38 /\ escape_char c = js "&amp;") \/
  (c = 60 /\ escape_char c = js "&lt;") \/
  (c = 62 /\ escape_char c = js "&gt;") \/
  (c = 34 /\ escape_char c = js "&quot;") \/
  (c = 39 /\ escape_char c = js "&#039;") \/
  (c <> 38 /\ c <> 60 /\ c <> 62 /\ c <> 34 /\ c <> 39 /\ escape_char c = [c]).
Proof.
  unfold escape_char.
  destruct (c =? 38) eqn:E1; [apply N.eqb_eq in E1; now left|right].
  destruct (c =? 60) eqn:E2; [apply N.eqb_eq in E2; now left|right].
  destruct (c =? 62) eqn:E3; [apply N.eqb_eq in E3; now left|right].
  destruct (c =? 34) eqn:E4; [apply N.eqb_eq in E4; now left|right].
  destruct (c =? 39) eqn:E5; [apply N.eqb_eq in E5; now left|right].
  apply N.eqb_neq in E1, E2, E3, E4, E5. now repeat split.
Qed.

(** X1. The output of [escapeHtml] has no less-than sign, greater-than
    sign, double quote or apostrophe, whatever the text is. *)
Theorem escapeHtml_output_safe (text : jsstring) :
  Forall (fun c => c <> 60 /\ c <> 62 /\ c <> 34 /\ c <> 39) (escapeHtml text).
Proof.
  rewrite escapeHtml_flat_map. induction text as [|c text IH]; [constructor|].
  cbn [flat_map]. apply Forall_app. split; [|exact IH].
  destruct (escape_char_cases c)
    as [[_ ->]|[[_ ->]|[[_ ->]|[[_ ->]|[[_ ->]|(_ & H1 & H2 & H3 & H4 & ->)]]]]];
    try (repeat constructor; discriminate).
  now repeat constructor.
Qed.

(** X2. [escapeHtml] loses nothing: two texts with the same escaped form
    are the same text. *)
Theorem escapeHtml_injective (a b : jsstring) :
  escapeHtml a = escapeHtml b -> a = b.
Proof.
  rewrite !escapeHtml_flat_map. revert b.
  induction a as [|c a IH]; intros [|d b] H; cbn [flat_map] in H.
  - reflexivity.
  - exfalso.
    destruct (escape_char_cases d)
      as [[_ E]|[[_ E]|[[_ E]|[[_ E]|[[_ E]|(_ & _ & _ & _ & _ & E)]]]]];
      rewrite E in H; discriminate H.
  - exfalso.
    destruct (escape_char_cases c)
      as [[_ E]|[[_ E]|[[_ E]|[[_ E]|[[_ E]|(_ & _ & _ & _ & _ & E)]]]]];
      rewrite E in H; discriminate H.
  - assert (c = d /\ flat_map escape_char a = flat_map escape_char b) as [-> H'].
    { destruct (escape_char_cases c)
        as [[-> E]|[[-> E]|[[-> E]|[[-> E]|[[-> E]|(C1 & C2 & C3 & C4 & C5 & E)]]]]];
      destruct (escape_char_cases d)
        as [[-> F]|[[-> F]|[[-> F]|[[-> F]|[[-> F]|(D1 & D2 & D3 & D4 & D5 & F)]]]]];
      rewrite ?E, ?F in H;
      try discriminate H;
      try (split; [reflexivity|]; now apply app_inv_head in H);
      try (injection H as H0 _; congruence).
      injection H as -> H. now split. }
    f_equal. now apply IH.
Qed.

Lemma escapeHtml_injective_witness :
  escapeHtml (js "a<b") = js "a&lt;b" /\ js "a<b" = [97; 60; 98].
Proof.
  split; [reflexivity|].
  apply (escapeHtml_injective (js "a<b") [97; 60; 98]). reflexivity.
Defined.

Lemma escape_char_length (c : code_unit) :
  (1 <= List.length (escape_char c))%nat /\
  (List.length (escape_char c) = 1%nat ->
   c <> 38 /\ c <> 60 /\ c <> 62 /\ c <> 34 /\ c <> 39).
Proof.
  destruct (escape_char_cases c)
    as [[_ ->]|[[_ ->]|[[_ ->]|[[_ ->]|[[_ ->]|(H1 & H2 & H3 & H4 & H5 & ->)]]]]];
    (split; [cbn; lia|]); try (cbn; discriminate).
  easy.
Qed.

Lemma escapeHtml_length (text : jsstring) :
  (List.length text <= List.length (escapeHtml text))%nat.
Proof.
  rewrite escapeHtml_flat_map. induction text as [|c text IH]; [easy|].
  cbn [flat_map]. rewrite length_app. cbn [List.length].
  pose proof (proj1 (escape_char_length c)). lia.
Qed.

(** A text is its own escaped form exactly when it has none of the five
    reserved characters. *)
Lemma escapeHtml_fixed (text : jsstring) :
  escapeHtml text = text <->
  Forall (fun c => c <> 38 /\ c <> 60 /\ c <> 62 /\ c <> 34 /\ c <> 39) text.
Proof.
  split.
  - intros H. apply (f_equal (@List.length _)) in H. revert H.
    rewrite escapeHtml_flat_map. induction text as [|c text IH]; [constructor|].
    cbn [flat_map]. rewrite length_app. cbn [List.length]. intros H.
    pose proof (escape_char_length c) as [Hc1 Hc2].
    pose proof (escapeHtml_length text) as Hl. rewrite escapeHtml_flat_map in Hl.
    constructor; [apply Hc2; lia|apply IH; lia].
  - rewrite escapeHtml_flat_map. induction 1 as [|c text (H1 & H2 & H3 & H4 & H5) _ IH];
      [reflexivity|].
    cbn [flat_map]. rewrite IH.
    destruct (escape_char_cases c)
      as [[E _]|[[E _]|[[E _]|[[E _]|[[E _]|(_ & _ & _ & _ & _ & ->)]]]]];
      try contradiction.
    reflexivity.
Qed.

(** X3. [escapeHtml] works code unit by code unit: the escaped form of a
    concatenation is the concatenation of the escaped forms.  It is not
    idempotent: escaping twice gives the same as escaping once only for a
    text without any of the five reserved characters (an ampersand of an
    entity is escaped again). *)
Theorem escapeHtml_compose (a b : jsstring) :
  escapeHtml (a ++ b) = escapeHtml a ++ escapeHtml b /\
  (escapeHtml (escapeHtml a) = escapeHtml a <->
   Forall (fun c => c <> 38 /\ c <> 60 /\ c <> 62 /\ c <> 34 /\ c <> 39) a).
Proof.
  split.
  - rewrite !escapeHtml_flat_map. apply flat_map_app.
  - rewrite escapeHtml_fixed. split.
    + intros H. rewrite escapeHtml_flat_map in H.
      induction a as [|c a IH]; [constructor|].
      cbn [flat_map] in H. apply Forall_app in H as [Hc Ha].
      constructor; [|now apply IH].
      destruct (escape_char_cases c)
        as [[_ E]|[[_ E]|[[_ E]|[[_ E]|[[_ E]|(H1 & H2 & H3 & H4 & H5 & _)]]]]];
        [rewrite E in Hc; inversion Hc as [|? ? (Habs & _) _]; now contradiction Habs ..|].
      now repeat split.
    + intros H. now rewrite (proj2 (escapeHtml_fixed a) H).
Qed.

(** ** Paragraphs: split on blank lines, join with line feeds *)

Lemma split_loop_skip (sep xs s cur : jsstring) :
  split_loop sep (xs ++ s) (List.length xs) cur = split_loop sep s 0 cur.
Proof.
  induction xs as [|x xs IH]; cbn [app List.length].
  - destruct s; reflexivity.
  - cbn [split_loop]. exact IH.
Qed.

Lemma split_loop_not_nil (sep s : jsstring) (skip : nat) (cur : jsstring) :
  split_loop sep s skip cur <> [].
Proof.
  revert skip cur. induction s as [|c s IH]; intros skip cur; cbn [split_loop];
    [discriminate|].
  destruct skip; [|apply IH]. destruct (is_prefix sep (c :: s)); [discriminate|apply IH].
Qed.

Lemma join_cons (sep x : jsstring) (l : list jsstring) :
  l <> [] -> join sep (x :: l) = x ++ sep ++ join sep l.
Proof. destruct l; [easy|reflexivity]. Qed.

Lemma join_split_loop (sep : jsstring) (n : nat) (s cur : jsstring) :
  sep <> [] -> (List.length s <= n)%nat ->
  join sep (split_loop sep s 0 cur) = rev cur ++ s.
Proof.
  intros Hsep. revert s cur. induction n as [|n IH]; intros s cur Hn.
  - destruct s; [|cbn in Hn; lia]. cbn. now rewrite app_nil_r.
  - destruct s as [|c s]; [cbn; now rewrite app_nil_r|].
    cbn [split_loop]. destruct (is_prefix sep (c :: s)) eqn:E.
    + apply is_prefix_spec in E. destruct sep as [|x sep']; [easy|].
      cbn [List.length skipn app] in E. injection E as <- E.
      replace (List.length (c :: sep') - 1)%nat with (List.length sep')
        by (cbn [List.length]; lia).
      rewrite E at 1. rewrite split_loop_skip.
      rewrite join_cons by apply split_loop_not_nil.
      rewrite IH.
      * cbn [rev app]. f_equal. cbn [app]. f_equal. exact (eq_sym E).
      * cbn [List.length] in Hn. rewrite E, length_app in Hn. lia.
    + rewrite IH by (cbn [List.length] in Hn; lia).
      cbn [rev]. now rewrite <- app_assoc.
Qed.

(** X4. Splitting a text at its blank lines and joining the pieces with
    blank lines gives the text back: [split] loses nothing, so all of the
    text reaches the paragraph callback. *)
Theorem join_split (s : jsstring) : join [10; 10] (split [10; 10] s) = s.
Proof.
  unfold split. now rewrite (join_split_loop [10; 10] (List.length s) s []).
Qed.

Lemma split_loop_block prev (p rest cur : jsstring) :
  clean (opens_with_pair 10 10) prev p = true -> last_of None p <> Some 10 ->
  split_loop [10; 10] (p ++ 10 :: 10 :: rest) 0 cur
  = (rev cur ++ p) :: split_loop [10; 10] rest 0 [].
Proof.
  revert prev cur. induction p as [|c p IH]; intros prev cur Hclean Hlast.
  - cbn [app split_loop is_prefix]. rewrite !N.eqb_refl. cbn [andb List.length Nat.sub].
    rewrite app_nil_r. reflexivity.
  - cbn [clean] in Hclean. apply andb_prop in Hclean as [_ Hclean].
    cbn [app split_loop].
    assert (E : is_prefix [10; 10] (c :: p ++ 10 :: 10 :: rest) = false).
    { cbn [is_prefix]. destruct (10 =? c) eqn:Ec; [|reflexivity]. cbn [andb].
      apply N.eqb_eq in Ec. subst c. destruct p as [|d p].
      - now contradiction Hlast.
      - cbn [clean opens_with_pair] in Hclean. apply andb_prop in Hclean as [Hd _].
        apply negb_true_iff in Hd. rewrite N.eqb_refl in Hd. cbn [andb] in Hd.
        cbn [app]. now rewrite N.eqb_sym, Hd. }
    rewrite E. rewrite (IH (Some c) (c :: cur) Hclean).
    + cbn [rev]. now rewrite <- app_assoc.
    + destruct p as [|d p]; [discriminate|].
      intros H. apply Hlast. unfold last_of in *. cbn [rev] in *.
      destruct (rev p ++ [d]) eqn:R; [now destruct (rev p)|].
      cbn [app]. exact H.
Qed.

Lemma split_join_blocks (ps : list jsstring) (last : jsstring) :
  Forall block_text ps ->
  clean (opens_with_pair 10 10) None last = true ->
  split [10; 10] (join [10; 10] (ps ++ [last])) = ps ++ [last].
Proof.
  intros Hps Hlast. unfold split.
  induction Hps as [|p ps [Hp1 Hp2] _ IH]; cbn [app].
  - exact (split_loop_no_blank None last [] Hlast).
  - rewrite join_cons by (now destruct ps).
    cbn [app]. now rewrite (split_loop_block None p _ [] Hp1 Hp2), IH.
Qed.

(** X5. A text made of blocks separated by blank lines is rendered block
    by block: the paragraph stage applies its callback to each block and
    joins the results with single line feeds. *)
Theorem paragraphs_blocks (ps : list jsstring) (last : jsstring) :
  Forall block_text ps ->
  clean (opens_with_pair 10 10) None last = true ->
  paragraphs (join [10; 10] (ps ++ [last]))
  = join [10] (map wrap_para (ps ++ [last])).
Proof.
  intros Hps Hlast. unfold paragraphs.
  now rewrite (split_join_blocks ps last Hps Hlast).
Qed.

Lemma paragraphs_blocks_witness :
  paragraphs (js ("one" ++ nl ++ "line two" ++ nl ++ nl ++ "  " ++ nl ++ nl ++ "<hr>"
                  ++ nl ++ nl ++ "last"))
  = js ("<p>one" ++ nl ++ "line two</p>" ++ nl ++ nl ++ "<hr>" ++ nl ++ "<p>last</p>").
Proof.
  apply (paragraphs_blocks [js ("one" ++ nl ++ "line two"); js "  "; js "<hr>"] (js "last")).
  - repeat constructor; discriminate.
  - reflexivity.
Defined.

(** ** The paragraph callback *)

Lemma dropWhile_nil (p : code_unit -> bool) (s : jsstring) :
  dropWhile p s = [] <-> Forall (fun c => p c = true) s.
Proof.
  induction s as [|c s IH]; cbn [dropWhile]; [easy|].
  destruct (p c) eqn:E.
  - rewrite IH. split; [now constructor|now inversion 1].
  - split; [discriminate|]. inversion 1; congruence.
Qed.

Lemma trim_nil (s : jsstring) : trim s = [] <-> Forall (fun c => isSpace c = true) s.
Proof.
  unfold trim. rewrite <- dropWhile_nil. split.
  - intros H. apply (f_equal (@rev _)) in H. rewrite rev_involutive in H. cbn [rev] in H.
    apply dropWhile_nil in H. apply Forall_rev in H. rewrite rev_involutive in H.
    destruct (dropWhile isSpace s) as [|c r] eqn:E; [reflexivity|].
    exfalso. inversion H as [|? ? Hc _]; subst.
    assert (Hd : isSpace c = false).
    { clear -E. induction s as [|x s IH]; cbn [dropWhile] in E; [discriminate|].
      destruct (isSpace x) eqn:Ex; [now apply IH|]. now injection E as <- _. }
    congruence.
  - now intros ->.
Qed.

Lemma block_tag_starts (para : jsstring) :
  test block_tag_re para = true -> exists s, para = 60 :: s.
Proof.
  destruct para as [|a [|c s]].
  - discriminate.
  - unfold block_tag_re. rewrite test_Bos. unfold match_here.
    rewrite rmatch_Seq, rmatch_Bol. cbn [at_bol before].
    rewrite rmatch_Seq. change (Lit (js "<")) with (Seq (Chr (N.eqb 60)) Eps).
    rewrite rmatch_Seq, rmatch_Chr. destruct (60 =? a); discriminate.
  - rewrite block_tag_test. intros H. apply andb_prop in H as [H _].
    apply N.eqb_eq in H. subst a. eauto.
Qed.

(** X6. The paragraph callback gives the empty string exactly for a block
    of white space (or an empty one); every other block is kept, as it is
    or inside a paragraph tag. *)
Theorem wrap_para_empty (para : jsstring) :
  (wrap_para para = [] <-> Forall (fun c => isSpace c = true) para) /\
  (wrap_para para = [] \/ wrap_para para = para
   \/ wrap_para para = js "<p>" ++ para ++ js "</p>").
Proof.
  unfold wrap_para. split.
  - destruct (test block_tag_re para) eqn:B.
    { apply block_tag_starts in B as [s ->]. split; [discriminate|].
      inversion 1; subst; discriminate. }
    destruct (test placeholder_re para) eqn:P.
    { rewrite placeholder_test in P. apply is_prefix_spec in P.
      rewrite P. split; [discriminate|]. inversion 1; subst; discriminate. }
    rewrite <- trim_nil. destruct (trim para); [easy|]. split; discriminate.
  - destruct (test block_tag_re para); [auto|].
    destruct (test placeholder_re para); [auto|].
    destruct (trim para); auto.
Qed.

(** ** Horizontal rules *)

Lemma hr_match (bef rest : jsstring) :
  line_start (hd_error bef) = true -> stops isDot rest ->
  match_here hr_re bef (js "---" ++ rest) = Some (MResult (js "---") [] rest).
Proof.
  intros Hbol Hstop. unfold match_here, hr_re.
  rewrite rmatch_Seq, rmatch_Bol, at_bol_line_start, Hbol.
  rewrite rmatch_Seq, rmatch_Lit, rmatch_Eol, at_eol_stops by exact Hstop.
  cbn [after caps]. f_equal. f_equal. exact (firstn_app_minus (js "---") rest).
Qed.

Lemma hr_no_match (bef l rest : jsstring) :
  one_line l -> stops isDot rest -> l <> js "---" ->
  match_here hr_re bef (l ++ rest) = None.
Proof.
  intros Hl Hstop Hne. destruct (is_prefix (js "---") l) eqn:E.
  - apply is_prefix_split in E as [more ->].
    destruct more as [|d more]; [now rewrite app_nil_r in Hne|].
    apply Forall_app in Hl as [_ Hl]. inversion Hl as [|? ? Hd _]; subst.
    unfold match_here, hr_re. rewrite <- app_assoc.
    rewrite rmatch_Seq, rmatch_Bol. destruct (at_bol true _); [|reflexivity].
    rewrite rmatch_Seq, rmatch_Lit, rmatch_Eol. cbn [at_eol after app andb].
    now rewrite Hd.
  - apply match_here_Bol_Lit.
    now rewrite (is_prefix_app_stop (js "---") l rest (one_line_closed (js "---") eq_refl)).
Qed.

Lemma hr_on_line (l bef rest : jsstring) :
  one_line l -> line_start (hd_error bef) = true -> stops isDot rest ->
  replace_loop hr_re (template hr_re (js "<hr>")) bef (l ++ rest) 0
  = hr_line l ++ replace_loop hr_re (template hr_re (js "<hr>")) (rev l ++ bef) rest 0.
Proof.
  intros Hl Hbol Hstop. unfold hr_line. destruct (jseqb l (js "---")) eqn:E.
  - apply jseqb_eq in E. subst l.
    now rewrite (replace_loop_match hr_re _ bef (js "---") rest _ ltac:(discriminate)
                   (hr_match bef rest Hbol Hstop) eq_refl).
  - apply jseqb_neq in E. destruct l as [|c l]; [reflexivity|].
    apply (replace_line_head hr_re _ (line_opens_with (N.eqb 45))).
    + exact guarded_hr.
    + exact (hr_no_match bef (c :: l) rest Hl Hstop E).
    + inversion Hl as [|? ? Hc Hl']; subst.
      apply clean_line; [exact Hl'|]. destruct l; [easy|].
      unfold line_opens_with. cbn [line_start]. now rewrite Hc.
Qed.

Lemma hr_line_line (l : jsstring) : one_line l -> one_line (hr_line l).
Proof.
  intros H. unfold hr_line. destruct (jseqb l (js "---")); [|exact H].
  now apply one_line_closed.
Qed.

(** X7. The rule stage works line by line, for every text: a line that is
    exactly three hyphens becomes [<hr>], and every other line, also one
    with more hyphens or with a space after them, is left as it is. *)
Theorem hr_stage_lines (s : jsstring) :
  replace_re hr_re (js "<hr>") s
  = unlines (map_lines hr_line (fst (lines_of s))) (hr_line (snd (lines_of s))).
Proof.
  rewrite <- (unlines_lines_of s) at 1.
  destruct (lines_of_ended s) as [Hsegs Hlast].
  unfold replace_re, replace_fn.
  apply (replace_lines hr_re _ hr_line one_line).
  - exact hr_on_line.
  - intros bef t rest Ht.
    apply (guarded_terminator hr_re _ (line_opens_with (N.eqb 45)) bef t rest guarded_hr).
    apply line_opens_with_terminator. apply N.eqb_neq. intros <-. discriminate.
  - intros bef. exact (guarded_end hr_re _ _ bef guarded_hr).
  - exact Hsegs.
  - exact Hlast.
  - reflexivity.
Qed.

(** ** Bold and italic *)

Lemma replace_loop_clean_pair r f (a b : code_unit) (l : jsstring) prev (bef aft : jsstring) :
  (forall bef aft, is_prefix (a :: b :: l) aft = false -> match_here r bef aft = None) ->
  clean (opens_with_pair a b) prev aft = true ->
  replace_loop r f bef aft 0 = aft.
Proof.
  intros Hr. revert prev bef. induction aft as [|c aft IH]; intros prev bef H.
  - cbn [replace_loop]. now rewrite Hr.
  - cbn [replace_loop].
    rewrite (Hr bef (c :: aft) (clean_pair_prefix a b l prev c aft H)).
    cbn [clean] in H. apply andb_prop in H as [_ H].
    f_equal. exact (IH (Some c) (c :: bef) H).
Qed.

Lemma template_strong matched pre post cs :
  GetSubstitution 1 matched pre post cs (js "<strong>$1</strong>")
  = js "<strong>" ++ cap_text 1 cs ++ js "</strong>".
Proof. reflexivity. Qed.

Lemma template_em matched pre post cs :
  GetSubstitution 1 matched pre post cs (js "<em>$1</em>")
  = js "<em>" ++ cap_text 1 cs ++ js "</em>".
Proof. reflexivity. Qed.

(** A text without backtick goes through fence extraction unchanged. *)
Lemma no_backtick_no_fence (text : jsstring) :
  Forall (fun c => c <> 96) text -> extract_fences text = Ok (text, Fences [] 0).
Proof.
  intros H. apply extract_fences_none.
  apply clean_by_current with (ok := fun c => negb (c =? 96)).
  - intros p c Hc. apply negb_true_iff in Hc.
    destruct p; cbn; [|reflexivity]. now rewrite Hc, andb_false_r.
  - eapply Forall_impl; [|exact H]. intros c Hc.
    apply negb_true_iff. now apply N.eqb_neq.
Qed.

(** From the list stage on, for one line that opens with a tag that is no
    block tag: it becomes a paragraph. *)
Lemma inline_element_paragraph (c : code_unit) (x : jsstring) :
  one_line (60 :: c :: x) ->
  one_of (js "h|l|h|u|o") c = false ->
  clean tag_li None (js "<p>" ++ (60 :: c :: x) ++ js "</p>") = true ->
  wrap_lists (paragraphs (list_items (60 :: c :: x)))
  = js "<p>" ++ (60 :: c :: x) ++ js "</p>".
Proof.
  intros Hline Hc Hli.
  rewrite (list_items_identity (60 :: c :: x) Hline) by now split.
  rewrite (paragraphs_single (60 :: c :: x)) by (now apply one_line_no_newline).
  rewrite (wrap_para_tag c x Hc).
  now apply wrap_lists_no_li.
Qed.

Lemma span_parts (s : jsstring) :
  Forall (fun c => c <> 96 /\ c <> 42 /\ isLineTerminator c = false) s ->
  Forall (fun c => c <> 96) s /\ Forall (fun c => c <> 42) s /\ one_line s.
Proof.
  intros H. repeat split; (eapply Forall_impl; [|exact H]); now intros c (H1 & H2 & H3).
Qed.

(** ** Occurrences of a text *)

Lemma occurs_false (w s : jsstring) :
  occurs w s = false <-> forall a b, s = a ++ b -> is_prefix w b = false.
Proof.
  induction s as [|c s IH]; cbn [occurs]; rewrite orb_false_iff.
  - split.
    + intros [H _] a b E. symmetry in E. apply app_eq_nil in E as [-> ->]. exact H.
    + intros H. split; [apply (H [] []); reflexivity|reflexivity].
  - rewrite IH. split.
    + intros [H1 H2] [|x a] b E; cbn [app] in E.
      * now subst b.
      * injection E as _ E. now apply (H2 a b).
    + intros H. split; [apply (H [] (c :: s)); reflexivity|].
      intros a b ->. apply (H (c :: a) b). reflexivity.
Qed.

Lemma is_prefix_extend (w a b : jsstring) :
  is_prefix w a = true -> is_prefix w (a ++ b) = true.
Proof.
  revert a. induction w as [|x w IH]; intros [|y a] H; cbn [is_prefix app] in *;
    try easy.
  apply andb_prop in H as [H1 H2]. rewrite H1. cbn [andb]. now apply IH.
Qed.

Lemma occurs_app_l (w a b : jsstring) : occurs w (a ++ b) = false -> occurs w a = false.
Proof.
  rewrite !occurs_false. intros H a1 a2 ->.
  specialize (H a1 (a2 ++ b)). rewrite <- app_assoc in H. specialize (H eq_refl).
  destruct (is_prefix w a2) eqn:E; [|reflexivity].
  now rewrite (is_prefix_extend w a2 b E) in H.
Qed.

Lemma occurs_app_r (w a b : jsstring) : occurs w (a ++ b) = false -> occurs w b = false.
Proof.
  rewrite !occurs_false. intros H b1 b2 ->.
  apply (H (a ++ b1) b2). now rewrite <- app_assoc.
Qed.

(** A match of [w] on [a ++ b] that is not one on [a] goes on into [b]:
    it takes all of [a] and starts [b] with a later code unit of [w]. *)
Lemma is_prefix_across (w a b : jsstring) :
  is_prefix w (a ++ b) = true -> is_prefix w a = false ->
  exists w2, w = a ++ w2 /\ w2 <> [] /\ is_prefix w2 b = true.
Proof.
  revert a. induction w as [|x w IH]; intros a H Ha.
  - now destruct a.
  - destruct a as [|y a]; cbn [app] in *.
    + exists (x :: w). now repeat split.
    + cbn [is_prefix] in H, Ha. apply andb_prop in H as [H1 H2].
      rewrite H1 in Ha. cbn [andb] in Ha. apply N.eqb_eq in H1. subst y.
      destruct (IH a H2 Ha) as (w2 & -> & Hne & Hw2). now exists w2.
Qed.

Lemma one_of_In (l : jsstring) (c : code_unit) : one_of l c = true <-> In c l.
Proof.
  unfold one_of. rewrite existsb_exists. split.
  - intros (x & Hx & E). apply N.eqb_eq in E. now subst.
  - intros H. exists c. split; [easy|apply N.eqb_refl].
Qed.

(** Two texts without [w], joined where [w] cannot go across: the second
    starts with a code unit that is not a later one of [w]. *)
Lemma occurs_app_right (w a b : jsstring) :
  occurs w a = false -> occurs w b = false ->
  match b with y :: _ => one_of (tl w) y = false | [] => True end ->
  occurs w (a ++ b) = false.
Proof.
  intros Ha Hb Hy. induction a as [|x a IH]; [exact Hb|].
  cbn [app occurs] in *. apply orb_false_iff in Ha as [Ha1 Ha2].
  rewrite (IH Ha2), orb_false_r.
  destruct (is_prefix w (x :: a ++ b)) eqn:E; [|reflexivity]. exfalso.
  destruct (is_prefix_across w (x :: a) b E Ha1) as (w2 & -> & Hne & Hw2).
  destruct w2 as [|z w2]; [easy|]. destruct b as [|y b]; [discriminate|].
  cbn [is_prefix] in Hw2. apply andb_prop in Hw2 as [Hz _]. apply N.eqb_eq in Hz. subst z.
  cbn [app tl] in Hy.
  assert (Hin : one_of (a ++ y :: w2) y = true)
    by (apply one_of_In, in_or_app; right; now left).
  congruence.
Qed.

(** The same, where the first ends with a code unit that is not an earlier
    one of [w]. *)
Lemma occurs_app_left (w a b : jsstring) :
  occurs w a = false -> occurs w b = false ->
  match rev a with x :: _ => one_of (removelast w) x = false | [] => True end ->
  occurs w (a ++ b) = false.
Proof.
  intros Ha Hb Hx. apply occurs_false. intros u v E.
  destruct (is_prefix w v) eqn:P; [|reflexivity]. exfalso.
  apply app_eq_app in E as [l [[-> ->]|[-> ->]]].
  - (* the split is inside [a] *)
    destruct (is_prefix w l) eqn:Pl.
    { rewrite occurs_false in Ha. specialize (Ha u l eq_refl). congruence. }
    destruct (is_prefix_across w l b P Pl) as (w2 & -> & Hne & Hw2).
    destruct l as [|z l _] using rev_ind.
    + cbn [app] in *. rewrite occurs_false in Hb.
      specialize (Hb [] b eq_refl). congruence.
    + rewrite app_assoc, rev_app_distr in Hx. cbn [rev app] in Hx.
      assert (Hin : one_of (removelast ((l ++ [z]) ++ w2)) z = true).
      { apply one_of_In. rewrite <- app_assoc. cbn [app].
        rewrite removelast_app by discriminate.
        apply in_or_app. right. destruct w2; [easy|now left]. }
      congruence.
  - (* the split is inside [b] *)
    rewrite occurs_false in Hb. specialize (Hb l v eq_refl).
      congruence.
Qed.

(** Replacing a part of a text without [w] by a tag that has none of the
    code units of [w] gives a text without [w]. *)
Lemma occurs_replace (w a m tag b : jsstring) :
  w <> [] -> tag <> [] -> Forall (fun c => one_of w c = false) tag ->
  occurs w (a ++ m ++ b) = false -> occurs w (a ++ tag ++ b) = false.
Proof.
  intros Hw Hne Htag H.
  assert (Ha := occurs_app_l _ _ _ H).
  assert (Hb := occurs_app_r _ _ _ (occurs_app_r _ _ _ H)).
  assert (Hsub : forall l c, one_of w c = false -> one_of l c = true ->
                             (forall x, In x l -> In x w) -> False).
  { intros l c H1 H2 Hl. apply one_of_In in H2. apply Hl in H2.
    apply one_of_In in H2. congruence. }
  assert (Ht : occurs w tag = false).
  { clear -Hw Hne Htag. induction tag as [|c tag IH]; [easy|].
    inversion Htag as [|? ? Hc Htag']; subst. cbn [occurs].
    destruct w as [|x w]; [easy|]. cbn [is_prefix].
    destruct (x =? c) eqn:E.
    { apply N.eqb_eq in E. subst. unfold one_of in Hc. cbn [existsb] in Hc.
      now rewrite N.eqb_refl in Hc. }
    cbn [orb]. destruct tag as [|d tag]; [reflexivity|]. now apply IH. }
  rewrite app_assoc. apply occurs_app_left; [|exact Hb|].
  - apply occurs_app_right; [exact Ha|exact Ht|].
    destruct tag as [|c tag]; [easy|]. inversion Htag as [|? ? Hc _]; subst.
    destruct (one_of (tl w) c) eqn:E; [|reflexivity]. exfalso.
    apply (Hsub (tl w) c Hc E). intros x Hx. destruct w; [easy|now right].
  - rewrite rev_app_distr.
    destruct (rev tag) as [|c r] eqn:R.
    { apply (f_equal (@rev _)) in R. rewrite rev_involutive in R. now subst. }
    cbn [app].
    assert (Hc : one_of w c = false).
    { rewrite Forall_forall in Htag. apply Htag. apply in_rev. rewrite R. now left. }
    destruct (one_of (removelast w) c) eqn:E; [|reflexivity]. exfalso.
    apply (Hsub (removelast w) c Hc E). intros x Hx.
    destruct w as [|y w] using rev_ind; [easy|].
    rewrite removelast_last in Hx. apply in_or_app. now left.
Qed.

(** The list pattern on a text in which [<li>] does not occur. *)
Lemma replace_loop_no_item f (bef aft : jsstring) :
  occurs (js "<li>") aft = false -> replace_loop list_run_re f bef aft 0 = aft.
Proof.
  revert bef. induction aft as [|c aft IH]; intros bef H; cbn [replace_loop].
  - now rewrite match_here_list_run.
  - cbn [occurs] in H. apply orb_false_iff in H as [H1 H2].
    rewrite (match_here_list_run _ _ H1). now rewrite IH.
Qed.

Lemma wrap_lists_no_item (html : jsstring) :
  occurs (js "<li>") html = false -> wrap_lists html = html.
Proof. apply replace_loop_no_item. Qed.

(** ** Bold and italic, rendered *)

Lemma inline_span_paragraph (c : code_unit) (x : jsstring) :
  one_line (60 :: c :: x) ->
  one_of (js "h|l|h|u|o") c = false ->
  occurs (js "<li>") (js "<p>" ++ (60 :: c :: x) ++ js "</p>") = false ->
  wrap_lists (paragraphs (list_items (60 :: c :: x)))
  = js "<p>" ++ (60 :: c :: x) ++ js "</p>".
Proof.
  intros Hline Hc Hli.
  rewrite (list_items_identity (60 :: c :: x) Hline) by now split.
  rewrite (paragraphs_single (60 :: c :: x)) by (now apply one_line_no_newline).
  rewrite (wrap_para_tag c x Hc).
  now apply wrap_lists_no_item.
Qed.

(** A text without [<li>] between two tags that are not [<li>]. *)
Lemma no_item_between (a b s : jsstring) :
  occurs (js "<li>") a = false -> occurs (js "<li>") b = false ->
  match rev a with x :: _ => one_of (js "<li") x = false | [] => True end ->
  match b with y :: _ => one_of (js "li>") y = false | [] => True end ->
  occurs (js "<li>") s = false ->
  occurs (js "<li>") (a ++ s ++ b) = false.
Proof.
  intros Ha Hb Hx Hy Hs.
  apply occurs_app_left; [exact Ha| |exact Hx].
  apply occurs_app_right; [exact Hs|exact Hb|exact Hy].
Qed.

Lemma bold_rendered (s : jsstring) :
  Forall (fun c => c <> 96 /\ c <> 42 /\ isLineTerminator c = false) s ->
  occurs (js "<li>") s = false ->
  markdownToHtml (js "**" ++ s ++ js "**")
  = Ok (js "<p><strong>" ++ s ++ js "</strong></p>").
Proof.
  intros Hs Hli. destruct (span_parts s Hs) as (Htick & Hstar & Hline).
  assert (Hline1 : one_line (js "**" ++ s ++ js "**")).
  { repeat apply one_line_app; try easy; now apply one_line_closed. }
  assert (Hline2 : one_line (js "<strong>" ++ s ++ js "</strong>")).
  { repeat apply one_line_app; try easy; now apply one_line_closed. }
  unfold markdownToHtml. rewrite no_backtick_no_fence.
  2:{ rewrite !Forall_app. repeat split; try easy; now apply no_char_closed. }
  cbn [bind fst snd codeBlocks restore]. unfold process.
  rewrite (headings_identity (js "**" ++ s ++ js "**") Hline1) by reflexivity.
  rewrite (hr_identity (js "**" ++ s ++ js "**") Hline1) by reflexivity.
  unfold inline.
  assert (Hbold : replace_re bold_re (js "<strong>$1</strong>") (js "**" ++ s ++ js "**")
                  = js "<strong>" ++ s ++ js "</strong>").
  { unfold replace_re, replace_fn.
    rewrite <- (app_nil_r (js "**" ++ s ++ js "**")).
    erewrite replace_loop_match;
      [| |rewrite <- !app_assoc;
          apply (delimited_match (js "**") (js "**") s [] [] isDot 42 [42] eq_refl)
         |reflexivity].
    - cbn [replace_loop]. rewrite (proj2 guarded_bold), app_nil_r.
      unfold template. cbn [m_text m_caps m_rest].
      change (ncaps bold_re) with 1%nat. now rewrite template_strong.
    - discriminate.
    - eapply Forall_impl; [|exact Hs]. intros c (_ & H2 & H3).
      split; [unfold isDot; now rewrite H3|exact H2]. }
  rewrite Hbold.
  rewrite (replace_re_clean italic_re _ (opens_with 42)
             (js "<strong>" ++ s ++ js "</strong>") guarded_italic).
  2:{ apply no_char_clean. rewrite !Forall_app.
      repeat split; try easy; now apply no_char_closed. }
  rewrite (replace_re_clean inline_code_re _ (opens_with 96)
             (js "<strong>" ++ s ++ js "</strong>") guarded_inline_code).
  2:{ apply no_char_clean. rewrite !Forall_app.
      repeat split; try easy; now apply no_char_closed. }
  f_equal.
  assert (Hclean : occurs (js "<li>")
                     (js "<p>" ++ (js "<strong>" ++ s ++ js "</strong>") ++ js "</p>") = false).
  { change (occurs (js "<li>") (js "<p><strong>" ++ (s ++ js "</strong>") ++ js "</p>")
            = false).
    rewrite <- app_assoc.
    now apply (no_item_between (js "<p><strong>") (js "</strong></p>") s). }
  etransitivity;
    [exact (inline_span_paragraph 115 (js "trong>" ++ s ++ js "</strong>") Hline2 eq_refl
              Hclean)|].
  change (js "<p><strong>" ++ (s ++ js "</strong>") ++ js "</p>"
          = js "<p><strong>" ++ s ++ js "</strong></p>").
  now rewrite <- app_assoc.
Qed.

Lemma italic_rendered (s : jsstring) :
  s <> [] ->
  Forall (fun c => c <> 96 /\ c <> 42 /\ isLineTerminator c = false) s ->
  occurs (js "<li>") s = false ->
  markdownToHtml (js "*" ++ s ++ js "*") = Ok (js "<p><em>" ++ s ++ js "</em></p>").
Proof.
  intros Hne Hs Hli. destruct (span_parts s Hs) as (Htick & Hstar & Hline).
  assert (Hline1 : one_line (js "*" ++ s ++ js "*")).
  { repeat apply one_line_app; try easy; now apply one_line_closed. }
  assert (Hline2 : one_line (js "<em>" ++ s ++ js "</em>")).
  { repeat apply one_line_app; try easy; now apply one_line_closed. }
  unfold markdownToHtml. rewrite no_backtick_no_fence.
  2:{ rewrite !Forall_app. repeat split; try easy; now apply no_char_closed. }
  cbn [bind fst snd codeBlocks restore]. unfold process.
  rewrite (headings_identity (js "*" ++ s ++ js "*") Hline1) by reflexivity.
  rewrite (hr_identity (js "*" ++ s ++ js "*") Hline1) by reflexivity.
  unfold inline.
  assert (Hbold : replace_re bold_re (js "<strong>$1</strong>") (js "*" ++ s ++ js "*")
                  = js "*" ++ s ++ js "*").
  { unfold replace_re, replace_fn.
    apply (replace_loop_clean_pair bold_re _ 42 42 [] None).
    - intros bef aft Hp. now apply match_here_Lit_first.
    - rewrite !clean_app. apply andb_true_intro. split; [reflexivity|].
      apply andb_true_intro. split.
      + apply clean_by_current with (ok := fun c => negb (c =? 42)).
        * intros p c Hc. apply negb_true_iff in Hc.
          destruct p; cbn; [|reflexivity]. now rewrite Hc, andb_false_r.
        * eapply Forall_impl; [|exact Hstar]. intros c Hc.
          apply negb_true_iff. now apply N.eqb_neq.
      + destruct (last_of_In (last_of None (js "*")) s Hne) as (p & -> & Hp).
        rewrite Forall_forall in Hstar. apply Hstar in Hp.
        apply N.eqb_neq in Hp. cbn. now rewrite Hp. }
  rewrite Hbold.
  assert (Hem : replace_re italic_re (js "<em>$1</em>") (js "*" ++ s ++ js "*")
                = js "<em>" ++ s ++ js "</em>").
  { unfold replace_re, replace_fn.
    rewrite <- (app_nil_r (js "*" ++ s ++ js "*")).
    erewrite replace_loop_match;
      [| |rewrite <- !app_assoc;
          apply (delimited_match (js "*") (js "*") s [] [] isDot 42 [] eq_refl)
         |reflexivity].
    - cbn [replace_loop]. rewrite (proj2 guarded_italic), app_nil_r.
      unfold template. cbn [m_text m_caps m_rest].
      change (ncaps italic_re) with 1%nat. now rewrite template_em.
    - discriminate.
    - eapply Forall_impl; [|exact Hs]. intros c (_ & H2 & H3).
      split; [unfold isDot; now rewrite H3|exact H2]. }
  rewrite Hem.
  rewrite (replace_re_clean inline_code_re _ (opens_with 96)
             (js "<em>" ++ s ++ js "</em>") guarded_inline_code).
  2:{ apply no_char_clean. rewrite !Forall_app.
      repeat split; try easy; now apply no_char_closed. }
  f_equal.
  assert (Hclean : occurs (js "<li>")
                     (js "<p>" ++ (js "<em>" ++ s ++ js "</em>") ++ js "</p>") = false).
  { change (occurs (js "<li>") (js "<p><em>" ++ (s ++ js "</em>") ++ js "</p>") = false).
    rewrite <- app_assoc.
    now apply (no_item_between (js "<p><em>") (js "</em></p>") s). }
  etransitivity;
    [exact (inline_span_paragraph 101 (js "m>" ++ s ++ js "</em>") Hline2 eq_refl Hclean)|].
  change (js "<p><em>" ++ (s ++ js "</em>") ++ js "</p>" = js "<p><em>" ++ s ++ js "</em></p>").
  now rewrite <- app_assoc.
Qed.

(** X8. A span between double asterisks, on its own, is rendered as a
    paragraph with the text in [<strong>]; a non-empty span between single
    asterisks as a paragraph with the text in [<em>].  The text is copied as
    it is: it is any text without asterisk, backtick and line terminator in
    which [<li>] does not occur. *)
Theorem emphasis_rendered (s : jsstring) :
  Forall (fun c => c <> 96 /\ c <> 42 /\ isLineTerminator c = false) s ->
  occurs (js "<li>") s = false ->
  markdownToHtml (js "**" ++ s ++ js "**")
  = Ok (js "<p><strong>" ++ s ++ js "</strong></p>") /\
  (s <> [] ->
   markdownToHtml (js "*" ++ s ++ js "*") = Ok (js "<p><em>" ++ s ++ js "</em></p>")).
Proof.
  intros Hs Hli. split; [now apply bold_rendered|].
  intros Hne. now apply italic_rendered.
Qed.

Lemma emphasis_rendered_witness :
  markdownToHtml (js "**<label> a < b**") = Ok (js "<p><strong><label> a < b</strong></p>") /\
  markdownToHtml (js "*<label> a < b*") = Ok (js "<p><em><label> a < b</em></p>").
Proof.
  assert (Hs : Forall (fun c => c <> 96 /\ c <> 42 /\ isLineTerminator c = false)
                 (js "<label> a < b")).
  { apply (Forall_forallb
             (fun c => negb (c =? 96) && negb (c =? 42) && negb (isLineTerminator c))).
    - intros c Hc. rewrite !andb_true_iff, !negb_true_iff in Hc.
      destruct Hc as ((H1 & H2) & H3).
      repeat split; [now apply N.eqb_neq|now apply N.eqb_neq|easy].
    - vm_compute. reflexivity. }
  split.
  - exact (proj1 (emphasis_rendered (js "<label> a < b") Hs eq_refl)).
  - apply (proj2 (emphasis_rendered (js "<label> a < b") Hs eq_refl)). discriminate.
Defined.

(** ** Inline code across lines *)

(** X9. The inline-code pattern is not bound to a line: a non-empty span
    between two backticks becomes a [<code>] element even when it contains
    line feeds (here for a span without asterisk, which the bold and italic
    patterns leave alone). *)
Theorem inline_code_spans_lines (s : jsstring) :
  s <> [] -> Forall (fun c => c <> 96 /\ c <> 42) s ->
  inline (js "`" ++ s ++ js "`") = js "<code>" ++ s ++ js "</code>".
Proof.
  intros Hne Hs.
  assert (Htick : Forall (fun c => c <> 96) s)
    by (eapply Forall_impl; [|exact Hs]; now intros c [H1 H2]).
  assert (Hstar : Forall (fun c => c <> 42) s)
    by (eapply Forall_impl; [|exact Hs]; now intros c [H1 H2]).
  unfold inline. rewrite (emphasis_identity (js "`" ++ s ++ js "`")).
  2:{ rewrite !Forall_app. repeat split; try easy; now apply no_char_closed. }
  unfold replace_re, replace_fn.
  rewrite <- (app_nil_r (js "`" ++ s ++ js "`")).
  erewrite replace_loop_match;
    [| |rewrite <- !app_assoc; apply inline_code_match; easy|reflexivity].
  - cbn [replace_loop]. rewrite (proj2 guarded_inline_code), app_nil_r.
    unfold template. cbn [m_text m_caps m_rest].
    change (ncaps inline_code_re) with 1%nat. now rewrite template_code.
  - discriminate.
Qed.

Lemma inline_code_spans_lines_witness :
  inline (js ("`first" ++ nl ++ nl ++ "second`"))
  = js ("<code>first" ++ nl ++ nl ++ "second</code>").
Proof.
  apply (inline_code_spans_lines (js ("first" ++ nl ++ nl ++ "second"))).
  - discriminate.
  - apply (Forall_forallb (fun c => negb (c =? 96) && negb (c =? 42))).
    + intros c Hc. rewrite andb_true_iff, !negb_true_iff in Hc.
      destruct Hc as [H1 H2]. split; now apply N.eqb_neq.
    + vm_compute. reflexivity.
Defined.

(** ** Restoring a block that has a dollar sign *)

Lemma GetSubstitution_app_plain m matched pre post cs (t1 t : jsstring) :
  Forall (fun c => c <> 36) t1 ->
  GetSubstitution m matched pre post cs (t1 ++ t)
  = t1 ++ GetSubstitution m matched pre post cs t.
Proof.
  induction 1 as [|c t1 Hc Ht IH]; [reflexivity|].
  cbn [app GetSubstitution].
  apply N.eqb_neq in Hc. rewrite Hc. cbn [negb]. now rewrite IH.
Qed.

Lemma GetSubstitution_matched m matched pre post cs (t : jsstring) :
  GetSubstitution m matched pre post cs (36 :: 38 :: t)
  = matched ++ GetSubstitution m matched pre post cs t.
Proof. reflexivity. Qed.

Lemma flat_map_escape_Forall (P : code_unit -> Prop) (text : jsstring) :
  Forall P (js "&amp;&lt;&gt;&quot;&#039;") -> Forall P text ->
  Forall P (flat_map escape_char text).
Proof. rewrite <- escapeHtml_flat_map. apply escapeHtml_Forall. Qed.

Lemma entity_tail (r : code_unit) (ent : jsstring) :
  escape_char r = 38 :: ent ->
  Forall (fun c => c <> 36 /\ c <> 60) ent /\ r <> 36 /\ r <> 96.
Proof.
  intros E.
  assert (K : forall l, forallb (fun c => negb (c =? 36) && negb (c =? 60)) l = true ->
                        Forall (fun c => c <> 36 /\ c <> 60) l).
  { intros l. apply Forall_forallb. intros c Hc.
    rewrite andb_true_iff, !negb_true_iff in Hc. destruct Hc as [H1 H2].
    split; now apply N.eqb_neq. }
  destruct (escape_char_cases r)
    as [[-> F]|[[-> F]|[[-> F]|[[-> F]|[[-> F]|(H1 & _ & _ & _ & _ & F)]]]]];
    rewrite F in E; injection E as E; subst;
    (split; [apply K; reflexivity|split; discriminate]).
Qed.

Lemma restore_dollar (t1 t2 : jsstring) :
  Forall (fun c => c <> 36) t1 -> Forall (fun c => c <> 36) t2 ->
  restore [t1 ++ 36 :: 38 :: t2] 0%nat (placeholder 0%nat)
  = t1 ++ placeholder 0%nat ++ t2.
Proof.
  intros H1 H2. cbn [restore]. unfold replace_str.
  replace (find_first (placeholder 0%nat) [] (placeholder 0%nat))
    with (Some (@nil N, @nil N)) by (vm_compute; reflexivity).
  rewrite GetSubstitution_app_plain by exact H1.
  rewrite GetSubstitution_matched, GetSubstitution_plain by exact H2.
  cbn [app]. now rewrite app_nil_r.
Qed.

Lemma code_block_dollar (a b : jsstring) (r : code_unit) (ent : jsstring) :
  escape_char r = 38 :: ent ->
  trim (a ++ 36 :: r :: b) = a ++ 36 :: r :: b ->
  code_block (a ++ 36 :: r :: b)
  = (js "<pre><code>" ++ flat_map escape_char a)
    ++ 36 :: 38 :: (ent ++ flat_map escape_char b ++ js "</code></pre>").
Proof.
  intros Hr Htrim. unfold code_block.
  rewrite Htrim, escapeHtml_flat_map, flat_map_app.
  cbn [flat_map]. change (escape_char 36) with [36]. rewrite Hr.
  rewrite <- !app_assoc. reflexivity.
Qed.

(** X10. A dollar sign in a fence is read as a replacement pattern when the
    block is put back: a dollar sign directly followed by one of the five
    reserved characters (whose entity starts with an ampersand) is replaced
    by the text of the placeholder. *)
Theorem fence_dollar_pattern (a b : jsstring) (r : code_unit) (ent : jsstring) :
  Forall (fun c => c <> 96 /\ c <> 36) a ->
  Forall (fun c => c <> 96 /\ c <> 36) b ->
  escape_char r = 38 :: ent ->
  trim (a ++ 36 :: r :: b) = a ++ 36 :: r :: b ->
  markdownToHtml (js "```" ++ (a ++ 36 :: r :: b) ++ js "```")
  = Ok (js "<pre><code>" ++ flat_map escape_char a ++ js "__CODE_BLOCK_0__" ++ ent
        ++ flat_map escape_char b ++ js "</code></pre>").
Proof.
  intros Ha Hb Hr Htrim.
  destruct (entity_tail r ent Hr) as (Hent & Hr36 & Hr96).
  assert (Ha96 : Forall (fun c => c <> 96) a)
    by (eapply Forall_impl; [|exact Ha]; now intros c [H1 H2]).
  assert (Ha36 : Forall (fun c => c <> 36) a)
    by (eapply Forall_impl; [|exact Ha]; now intros c [H1 H2]).
  assert (Hb96 : Forall (fun c => c <> 96) b)
    by (eapply Forall_impl; [|exact Hb]; now intros c [H1 H2]).
  assert (Hb36 : Forall (fun c => c <> 36) b)
    by (eapply Forall_impl; [|exact Hb]; now intros c [H1 H2]).
  assert (Hent36 : Forall (fun c => c <> 36) ent)
    by (eapply Forall_impl; [|exact Hent]; now intros c [H1 H2]).
  assert (Hent60 : Forall (fun c => c <> 60) ent)
    by (eapply Forall_impl; [|exact Hent]; now intros c [H1 H2]).
  assert (Hesc36 : forall t, Forall (fun c => c <> 36) t ->
                             Forall (fun c => c <> 36) (flat_map escape_char t)).
  { intros t. apply flat_map_escape_Forall. apply no_char_closed. vm_compute. reflexivity. }
  assert (Hesc60 : forall t, Forall (fun c => c <> 60) (flat_map escape_char t)).
  { intros t. rewrite <- escapeHtml_flat_map. apply escapeHtml_no_lt. }
  unfold markdownToHtml.
  rewrite (extract_single_fence (a ++ 36 :: r :: b)).
  2:{ apply Forall_app. split; [exact Ha96|].
      constructor; [discriminate|]. now constructor. }
  cbn [bind fst snd codeBlocks]. rewrite process_placeholder_0.
  rewrite (code_block_dollar a b r ent Hr Htrim).
  rewrite restore_dollar.
  2:{ apply Forall_app. split; [apply no_char_closed; vm_compute; reflexivity|].
      now apply Hesc36. }
  2:{ rewrite !Forall_app. repeat split; [exact Hent36|now apply Hesc36|].
      apply no_char_closed. vm_compute. reflexivity. }
  assert (E : (js "<pre><code>" ++ flat_map escape_char a) ++ placeholder 0%nat
              ++ ent ++ flat_map escape_char b ++ js "</code></pre>"
              = js "<pre><code>"
                  ++ (flat_map escape_char a ++ js "__CODE_BLOCK_0__" ++ ent
                      ++ flat_map escape_char b)
                  ++ js "</code></pre>").
  { change (placeholder 0%nat) with (js "__CODE_BLOCK_0__").
    rewrite <- !app_assoc. reflexivity. }
  rewrite E. rewrite wrap_lists_no_li; [now rewrite <- !app_assoc|].
  apply clean_tag_li_between.
  - vm_compute. reflexivity.
  - intros p Hp. vm_compute in Hp. injection Hp as <-. reflexivity.
  - rewrite !Forall_app. repeat split; try easy.
    apply no_char_closed. vm_compute. reflexivity.
  - intros p. apply clean_cons; [now apply tag_li_not_l|].
    vm_compute. reflexivity.
Qed.

Lemma fence_dollar_pattern_witness :
  markdownToHtml (js "```Some '$' -> x```")
  = Ok (js "<pre><code>Some &#039;__CODE_BLOCK_0__#039; -&gt; x</code></pre>").
Proof.
  assert (K : forall l, forallb (fun c => negb (c =? 96) && negb (c =? 36)) l = true ->
                        Forall (fun c => c <> 96 /\ c <> 36) l).
  { intros l. apply Forall_forallb. intros c Hc.
    rewrite andb_true_iff, !negb_true_iff in Hc. destruct Hc as [H1 H2].
    split; now apply N.eqb_neq. }
  apply (fence_dollar_pattern (js "Some '") (js " -> x") 39 (js "#039;")).
  - apply K. reflexivity.
  - apply K. reflexivity.
  - reflexivity.
  - reflexivity.
Defined.

(** ** Placeholders *)

Lemma js_injective (a b : string) : js a = js b -> a = b.
Proof.
  unfold js. intros H.
  rewrite <- (string_of_list_ascii_of_string a), <- (string_of_list_ascii_of_string b).
  f_equal. revert H. generalize (list_ascii_of_string a) (list_ascii_of_string b).
  intros l. induction l as [|x l IH]; intros [|y l']; cbn [map]; try discriminate.
  - reflexivity.
  - intros H. injection H as Hx Hl. f_equal; [|now apply IH].
    unfold chr in Hx. rewrite <- (ascii_N_embedding x), <- (ascii_N_embedding y).
    now rewrite Hx.
Qed.

Lemma nat_to_js_injective (i j : nat) : nat_to_js i = nat_to_js j -> i = j.
Proof.
  unfold nat_to_js. intros H. apply js_injective in H.
  apply Unsigned.to_uint_inj.
  pose proof (NilEmpty.usu (Nat.to_uint i)) as Hi.
  pose proof (NilEmpty.usu (Nat.to_uint j)) as Hj.
  rewrite H in Hi. congruence.
Qed.

Lemma nat_to_js_digits (n : nat) : Forall (fun c => isDigit c = true) (nat_to_js n).
Proof.
  unfold nat_to_js. generalize (Nat.to_uint n). intros d.
  induction d; cbn [NilEmpty.string_of_uint]; try constructor;
    try reflexivity; assumption.
Qed.

Lemma is_prefix_same (p a b : jsstring) : is_prefix (p ++ a) (p ++ b) = is_prefix a b.
Proof. induction p as [|c p IH]; [reflexivity|]. cbn [app is_prefix]. now rewrite N.eqb_refl. Qed.

Lemma digits_then_underscores (xs ys rest : jsstring) :
  Forall (fun c => isDigit c = true) xs -> Forall (fun c => isDigit c = true) ys ->
  is_prefix (xs ++ js "__") (ys ++ js "__" ++ rest) = true -> xs = ys.
Proof.
  intros Hxs. revert ys. induction Hxs as [|x xs Hx _ IH]; intros ys Hys H.
  - destruct Hys as [|y ys Hy _]; [reflexivity|].
    cbn [app is_prefix] in H. apply andb_prop in H as [H _].
    apply N.eqb_eq in H. subst y. discriminate.
  - destruct Hys as [|y ys Hy Hys].
    + cbn [app is_prefix] in H. apply andb_prop in H as [H _].
      apply N.eqb_eq in H. subst x. discriminate.
    + cbn [app is_prefix] in H. apply andb_prop in H as [H1 H2].
      apply N.eqb_eq in H1. subst y. f_equal. now apply IH.
Qed.

Lemma placeholder_prefix (i j : nat) (rest : jsstring) :
  is_prefix (placeholder i) (placeholder j ++ rest) = true -> i = j.
Proof.
  unfold placeholder. rewrite <- !app_assoc, is_prefix_same. intros H.
  apply nat_to_js_injective.
  exact (digits_then_underscores _ _ rest (nat_to_js_digits i) (nat_to_js_digits j) H).
Qed.

Lemma find_first_skip (pat bef xs tail : jsstring) (a : code_unit) (pat' : jsstring) :
  pat = a :: pat' -> Forall (fun c => c <> a) xs ->
  find_first pat bef (xs ++ tail) = find_first pat (rev xs ++ bef) tail.
Proof.
  intros -> Hxs. revert bef. induction Hxs as [|x xs Hx _ IH]; intros bef; [reflexivity|].
  cbn [app]. replace (find_first (a :: pat') bef (x :: xs ++ tail))
    with (find_first (a :: pat') (x :: bef) (xs ++ tail)).
  - rewrite IH. cbn [rev]. now rewrite <- app_assoc.
  - cbn [find_first is_prefix]. apply N.eqb_neq in Hx. rewrite N.eqb_sym in Hx.
    now rewrite Hx.
Qed.

Lemma find_first_next (pat bef : jsstring) (c : code_unit) (s : jsstring) :
  is_prefix pat (c :: s) = false ->
  find_first pat bef (c :: s) = find_first pat (c :: bef) s.
Proof. intros H. cbn [find_first]. now rewrite H. Qed.

(** X11. The placeholders of two different blocks are never confused: the
    placeholder of one block does not occur in the placeholder of another,
    so putting a block back leaves the other placeholders as they are. *)
Theorem placeholder_distinct (i j : nat) (block : jsstring) :
  i <> j -> replace_str (placeholder i) block (placeholder j) = placeholder j.
Proof.
  intros Hij. unfold replace_str.
  assert (H0 : is_prefix (placeholder i) (placeholder j) = false).
  { destruct (is_prefix (placeholder i) (placeholder j)) eqn:E; [|reflexivity].
    rewrite <- (app_nil_r (placeholder j)) in E. now apply placeholder_prefix in E. }
  assert (E : find_first (placeholder i) [] (placeholder j) = None); [|now rewrite E].
  assert (Hpat : exists t, placeholder i = 95 :: 95 :: 67 :: t) by (now eexists).
  destruct Hpat as [t Hpat]. revert H0. rewrite Hpat.
  unfold placeholder. intros H0.
  change (js "__CODE_BLOCK_" ++ nat_to_js j ++ js "__")
    with (95 :: 95 :: js "CODE" ++ 95 :: js "BLOCK" ++ 95 :: nat_to_js j ++ js "__") in *.
  assert (Hd : Forall (fun c => c <> 95) (nat_to_js j)).
  { eapply Forall_impl; [|apply nat_to_js_digits]. intros c Hc ->. discriminate. }
  assert (Hlast : is_prefix (95 :: 95 :: 67 :: t) (95 :: nat_to_js j ++ js "__") = false).
  { destruct (nat_to_js j) as [|d ds]; [reflexivity|].
    inversion Hd as [|? ? Hd0 _]; subst. cbn [app is_prefix].
    apply N.eqb_neq in Hd0. rewrite N.eqb_sym in Hd0. rewrite Hd0.
    now rewrite andb_false_r. }
  rewrite (find_first_next _ _ 95 _ H0).
  rewrite find_first_next by reflexivity.
  rewrite (find_first_skip _ _ (js "CODE") _ 95 (95 :: 67 :: t) eq_refl)
    by (apply no_char_closed; reflexivity).
  rewrite find_first_next by reflexivity.
  rewrite (find_first_skip _ _ (js "BLOCK") _ 95 (95 :: 67 :: t) eq_refl)
    by (apply no_char_closed; reflexivity).
  rewrite (find_first_next _ _ 95 _ Hlast).
  rewrite (find_first_skip _ _ (nat_to_js j) _ 95 (95 :: 67 :: t) eq_refl Hd).
  reflexivity.
Qed.

Lemma placeholder_distinct_witness :
  replace_str (placeholder 1) (js "<pre><code>x</code></pre>") (placeholder 10)
  = placeholder 10.
Proof. apply placeholder_distinct. discriminate. Defined.

(** ** The list view: a stable sort *)

Local Open Scope Z_scope.

Section SortStable.
Context {A : Type}.
Variable comparefn : A -> A -> number.
Variable key : A -> Z.
Variable valid : A -> Prop.
Hypothesis comparefn_key :
  forall x y, valid x -> valid y -> SortCompare comparefn x y = key y - key x.

Lemma filter_insert (k : Z) (x : A) (l : list A) :
  valid x -> Forall valid l ->
  filter (fun a => key a =? k) (insert comparefn x l)
  = filter (fun a => key a =? k) (x :: l).
Proof.
  intros Hx. induction 1 as [|y l Hy Hl IH]; [reflexivity|].
  cbn [insert]. rewrite (comparefn_key x y Hx Hy).
  destruct (key y - key x <=? 0) eqn:E; [reflexivity|].
  apply Z.leb_gt in E. cbn [filter] in *. rewrite IH.
  destruct (key x =? k) eqn:Ex; destruct (key y =? k) eqn:Ey; try reflexivity.
  apply Z.eqb_eq in Ex, Ey. lia.
Qed.

Lemma filter_sort (k : Z) (l : list A) :
  Forall valid l ->
  filter (fun a => key a =? k) (sort comparefn l) = filter (fun a => key a =? k) l.
Proof.
  induction 1 as [|x l Hx Hl IH]; [reflexivity|].
  cbn [sort]. rewrite filter_insert.
  - cbn [filter]. now rewrite IH.
  - exact Hx.
  - eapply Permutation_Forall; [apply sort_perm|exact Hl].
Qed.
End SortStable.

Lemma filter_refine {A} (Q T : A -> bool) (l : list A) :
  (forall a, Q a = true -> T a = true) -> filter Q l = filter Q (filter T l).
Proof.
  intros H. induction l as [|a l IH]; [reflexivity|]. cbn [filter].
  destruct (Q a) eqn:Ea.
  - rewrite (H a Ea). cbn [filter]. now rewrite Ea, IH.
  - destruct (T a); [cbn [filter]; now rewrite Ea|exact IH].
Qed.

(** X12. The sort of the list view is stable: entries with the same date
    keep the order they have in the registry. *)
Theorem loadBlogPosts_stable (pg : page) (d : jsstring) :
  Forall dated (registry pg) ->
  filter (fun p => jseqb (date p) d) (registry (loadBlogPosts pg))
  = filter (fun p => jseqb (date p) d) (registry pg).
Proof.
  intros Hd. cbn [loadBlogPosts registry].
  set (t := match Date d with Some t => t | None => 0 end).
  assert (HQ : forall p, jseqb (date p) d = true -> (time p =? t) = true).
  { intros p Hp. apply jseqb_eq in Hp. apply Z.eqb_eq. unfold time, t. now rewrite Hp. }
  rewrite (filter_refine _ (fun p => time p =? t) _ HQ).
  rewrite (filter_refine _ (fun p => time p =? t) (registry pg) HQ).
  f_equal. apply (filter_sort newest_first time dated); [|exact Hd].
  intros x y Hx Hy. now apply newest_first_time.
Qed.

Lemma loadBlogPosts_stable_witness :
  registry (loadBlogPosts (Page (august_1st :: blogPosts) (PostList [])))
  = blogPosts ++ [august_1st] /\
  filter (fun p => jseqb (date p) (js "2025-08-27"))
         (registry (loadBlogPosts (Page (august_1st :: blogPosts) (PostList []))))
  = blogPosts.
Proof.
  split; [reflexivity|].
  refine (loadBlogPosts_stable (Page (august_1st :: blogPosts) (PostList []))
            (js "2025-08-27") _).
  repeat constructor; discriminate.
Defined.

(** ** The loader and the controller *)

(** X13. [loadPost] shows the error message exactly when the fetch rejects
    or the body cannot be read; whenever a body is read, whatever the
    status and the text, an article is shown: the renderer never makes the
    loader fail. *)
Theorem loadPost_outcome (fetch : content_store) (p : post) (pg : page) :
  (container (loadPost fetch p pg) = ErrorMessage <->
   forall status body, fetch (js "posts/" ++ filename p) <> Resolved status (Some body)) /\
  (forall status body,
      fetch (js "posts/" ++ filename p) = Resolved status (Some body) ->
      exists html,
        markdownToHtml body = Ok html /\
        loadPost fetch p pg = Page (registry pg) (Article html)).
Proof.
  unfold loadPost. split.
  - destruct (fetch (js "posts/" ++ filename p)) as [|status [body|]]; cbn [container].
    + split; [discriminate|reflexivity].
    + destruct (markdownToHtml_total body) as [html ->]. cbn [container].
      split; [discriminate|]. intros H. now contradiction (H status body).
    + split; [discriminate|reflexivity].
  - intros status body ->. destruct (markdownToHtml_total body) as [html ->]. eauto.
Qed.

(** X14. No event adds, removes or duplicates a registry entry: after any
    sequence of events the registry is a permutation of the initial one. *)
Theorem registry_permuted (fetch : content_store) (es : list event) (pg : page) :
  Permutation (registry pg) (registry (run fetch pg es)).
Proof.
  unfold run. revert pg. induction es as [|e es IH]; intros pg; [reflexivity|].
  cbn [fold_left]. rewrite <- IH.
  destruct (handle_cases fetch pg e) as [[-> _]| ->]; [reflexivity|].
  apply sort_perm.
Qed.

(** ** Slugs *)

Lemma md_not_across (b : jsstring) :
  b <> [] -> is_prefix (js ".md") b = false -> is_prefix (js ".md") (b ++ js ".md") = false.
Proof.
  intros Hne H.
  destruct b as [|x [|y [|z b]]]; [easy| | |exact H].
  - change (is_prefix (js ".md") ([x] ++ js ".md")) with ((46 =? x)%N && false).
    apply andb_false_r.
  - change (is_prefix (js ".md") ([x; y] ++ js ".md"))
      with ((46 =? x)%N && ((109 =? y)%N && false)).
    now rewrite !andb_false_r.
Qed.

Lemma find_first_at_end (pat stem bef : jsstring) :
  (forall b, b <> [] -> is_prefix pat b = false -> is_prefix pat (b ++ pat) = false) ->
  find_first pat [] stem = None ->
  find_first pat bef (stem ++ pat) = Some (rev bef ++ stem, []).
Proof.
  intros Hacross Hnone.
  assert (H : forall a b, stem = a ++ b -> is_prefix pat b = false)
    by exact (find_first_none pat [] stem Hnone).
  clear Hnone. revert bef. induction stem as [|c stem IH]; intros bef.
  - cbn [app]. destruct pat as [|x pat].
    + cbn. now rewrite app_nil_r.
    + cbn [find_first]. rewrite <- (app_nil_r (x :: pat)) at 2.
      rewrite is_prefix_app, app_nil_r. now rewrite skipn_all.
  - cbn [app find_first].
    replace (is_prefix pat (c :: stem ++ pat)) with false.
    + rewrite IH.
      * cbn [rev]. now rewrite <- app_assoc.
      * intros a b Hab. apply (H (c :: a) b). now rewrite Hab.
    + symmetry. apply (Hacross (c :: stem)); [discriminate|].
      now apply (H [] (c :: stem)).
Qed.

(** X15. The slug undoes the extension: for a stem in which [.md] does not
    occur, the slug of the file name [stem.md] is the stem; a file name in
    which [.md] does not occur is its own slug. *)
Theorem slug_round_trip (stem : jsstring) :
  find_first (js ".md") [] stem = None ->
  slug (stem ++ js ".md") = stem /\ slug stem = stem.
Proof.
  intros H. unfold slug, replace_str. split.
  - rewrite (find_first_at_end (js ".md") stem [] md_not_across H).
    cbn [rev app GetSubstitution]. now rewrite app_nil_r.
  - now rewrite H.
Qed.

Lemma slug_round_trip_witness :
  slug (js "welcome-to-my-blog" ++ js ".md") = js "welcome-to-my-blog" /\
  slug (js "welcome-to-my-blog") = js "welcome-to-my-blog".
Proof. apply slug_round_trip. reflexivity. Defined.

(** ** formatDate: the local day of a date *)

Lemma year_search_spec (fuel : nat) (y day : Z) :
  DayFromYear y <= day -> day < DayFromYear (y + Z.of_nat fuel) ->
  DayFromYear (year_search fuel y day) <= day
  /\ day < DayFromYear (year_search fuel y day + 1).
Proof.
  revert y. induction fuel as [|n IH]; intros y Hlo Hhi.
  - rewrite Z.add_0_r in Hhi. lia.
  - cbn [year_search]. destruct (DayFromYear (y + 1) <=? day) eqn:E.
    + apply Z.leb_le in E. apply IH; [exact E|].
      replace (y + 1 + Z.of_nat n) with (y + Z.of_nat (S n)) by lia. exact Hhi.
    + apply Z.leb_gt in E. lia.
Qed.

Lemma DayFromYear_lower (y : Z) : 1970 <= y -> 365 * (y - 1970) <= DayFromYear y.
Proof. unfold DayFromYear. intros H. Z.to_euclidean_division_equations. lia. Qed.

Lemma DayFromYear_upper (y : Z) : 1970 <= y -> DayFromYear y <= 366 * (y - 1970).
Proof. unfold DayFromYear. intros H. Z.to_euclidean_division_equations. lia. Qed.

Lemma DayFromYear_before (y : Z) : y <= 1970 -> DayFromYear y <= 365 * (y - 1970).
Proof. unfold DayFromYear. intros H. Z.to_euclidean_division_equations. lia. Qed.

(** [YearFromTime] is the year of ECMAScript: the one whose days hold the
    day of [t]. *)
Lemma YearFromTime_spec (t : Z) :
  DayFromYear (YearFromTime t) <= Day t < DayFromYear (YearFromTime t + 1).
Proof.
  unfold YearFromTime. set (day := Day t).
  apply year_search_spec.
  - destruct (0 <=? day) eqn:E.
    + apply Z.leb_le in E.
      pose proof (DayFromYear_upper (1970 + day / 366)
                    ltac:(Z.to_euclidean_division_equations; lia)).
      Z.to_euclidean_division_equations; lia.
    + apply Z.leb_gt in E.
      pose proof (DayFromYear_before (1970 + day / 365)
                    ltac:(Z.to_euclidean_division_equations; lia)).
      Z.to_euclidean_division_equations; lia.
  - rewrite Z2Nat.id by (Z.to_euclidean_division_equations; lia).
    destruct (0 <=? day) eqn:E.
    + apply Z.leb_le in E. rewrite Z.abs_eq by exact E.
      pose proof (DayFromYear_lower (1970 + day / 366 + (day / 365 + 2))
                    ltac:(Z.to_euclidean_division_equations; lia)).
      Z.to_euclidean_division_equations; lia.
    + apply Z.leb_gt in E. rewrite Z.abs_neq by lia.
      pose proof (DayFromYear_mono 1971 (1970 + day / 365 + (- day / 365 + 2))
                    ltac:(Z.to_euclidean_division_equations; lia)).
      change (DayFromYear 1971) with 365 in *. lia.
Qed.

Lemma year_unique (y y' day : Z) :
  DayFromYear y <= day < DayFromYear (y + 1) ->
  DayFromYear y' <= day < DayFromYear (y' + 1) ->
  y = y'.
Proof.
  intros H H'. destruct (Z.lt_trichotomy y y') as [L|[E|L]]; [|exact E|].
  - pose proof (DayFromYear_mono (y + 1) y' ltac:(lia)). lia.
  - pose proof (DayFromYear_mono (y' + 1) y ltac:(lia)). lia.
Qed.

Lemma days_before_nonneg (y : Z) (k : nat) : 0 <= days_before y k.
Proof. exact (days_before_mono y 0 k (Nat.le_0_l k)). Qed.

Lemma day_of_year_bounds (y m d : Z) :
  valid_day (y, m, d) ->
  0 <= days_before y (Z.to_nat (m - 1)) + (d - 1) < days_in_year y.
Proof.
  intros [Hm Hd].
  pose proof (days_before_nonneg y (Z.to_nat (m - 1))).
  pose proof (days_before_month y m (proj1 Hm)).
  pose proof (days_before_mono y (Z.to_nat m) 12 ltac:(lia)).
  pose proof (days_before_year y). lia.
Qed.

Lemma Day_time_of (y m d delta : Z) :
  0 <= delta < msPerDay ->
  Day (time_of y m d + delta)
  = DayFromYear y + days_before y (Z.to_nat (m - 1)) + (d - 1).
Proof.
  intros H. unfold Day, time_of, msPerDay in *.
  rewrite Z.add_comm, Z.div_add by lia. rewrite Z.div_small by lia. lia.
Qed.

Lemma days_in_month_leap (y y' m : Z) :
  is_leap y' = is_leap y -> days_in_month y' m = days_in_month y m.
Proof. intros H. unfold days_in_month. now rewrite H. Qed.

Lemma days_before_leap (y y' : Z) (k : nat) :
  is_leap y' = is_leap y -> days_before y' k = days_before y k.
Proof.
  intros H. induction k as [|k IH]; [reflexivity|].
  cbn [days_before]. now rewrite IH, (days_in_month_leap y y' _ H).
Qed.

(** The fields of a time value within a day of the calendar: the round
    trip of [time_of]. *)
Lemma local_fields (y m d delta : Z) :
  valid_day (y, m, d) -> 0 <= delta < msPerDay ->
  YearFromTime (time_of y m d + delta) = y /\
  MonthFromTime (time_of y m d + delta) = m - 1 /\
  DateFromTime (time_of y m d + delta) = d.
Proof.
  intros Hv Hdelta.
  pose proof (day_of_year_bounds y m d Hv) as Hb.
  pose proof (Day_time_of y m d delta Hdelta) as HD.
  assert (HY : YearFromTime (time_of y m d + delta) = y).
  { apply (year_unique _ _ (Day (time_of y m d + delta))).
    - apply YearFromTime_spec.
    - rewrite HD, DayFromYear_next. lia. }
  split; [exact HY|].
  unfold DateFromTime, MonthFromTime, DayWithinYear, InLeapYear.
  rewrite HY, HD. clear HY HD Hb Hdelta delta.
  destruct Hv as [Hm Hd].
  replace (DayFromYear y + days_before y (Z.to_nat (m - 1)) + (d - 1) - DayFromYear y)
    with (days_before y (Z.to_nat (m - 1)) + (d - 1)) by lia.
  assert (Hleap : exists y', is_leap y' = is_leap y /\ (y' = 2000 \/ y' = 2001)).
  { destruct (is_leap y) eqn:L; [exists 2000|exists 2001]; split; auto. }
  destruct Hleap as (y' & Hy' & Hcase).
  rewrite <- (days_before_leap y y' _ Hy').
  rewrite <- (days_in_month_leap y y' m Hy') in Hd.
  rewrite <- Hy'. clear Hy' y.
  assert (Hcases : m = 1 \/ m = 2 \/ m = 3 \/ m = 4 \/ m = 5 \/ m = 6 \/ m = 7 \/ m = 8
                   \/ m = 9 \/ m = 10 \/ m = 11 \/ m = 12) by lia.
  clear Hm.
  destruct Hcase as [-> | ->];
    repeat (destruct Hcases as [Hcases|Hcases]); subst m;
    match type of Hd with
    | context [days_in_month ?a ?b] =>
        let v := eval vm_compute in (days_in_month a b) in
        change (days_in_month a b) with v in Hd
    end;
    match goal with
    | |- context [days_before ?a ?b] =>
        let v := eval vm_compute in (days_before a b) in
        change (days_before a b) with v
    end;
    match goal with
    | |- context [is_leap ?a] =>
        let v := eval vm_compute in (is_leap a) in
        change (is_leap a) with v
    end;
    cbv iota;
    repeat match goal with
           | |- context [?a <? ?b] =>
               let E := fresh "E" in
               destruct (a <? b) eqn:E;
               [apply Z.ltb_lt in E|apply Z.ltb_ge in E]; try lia; cbv iota
           end;
    (split; lia).
Qed.

Lemma prev_day_valid (c : Z * Z * Z) : valid_day c -> valid_day (prev_day c).
Proof.
  destruct c as [[y m] d]. unfold valid_day, prev_day. intros [Hm Hd].
  destruct (1 <? d) eqn:Ed; [apply Z.ltb_lt in Ed; lia|apply Z.ltb_ge in Ed].
  destruct (1 <? m) eqn:Em; [apply Z.ltb_lt in Em|apply Z.ltb_ge in Em].
  - pose proof (days_in_month_bounds y (m - 1)). lia.
  - change (days_in_month (y - 1) 12) with 31. lia.
Qed.

Lemma prev_day_time (y m d : Z) :
  valid_day (y, m, d) ->
  (let '(y', m', d') := prev_day (y, m, d) in time_of y' m' d')
  = time_of y m d - msPerDay.
Proof.
  unfold valid_day, prev_day. intros [Hm Hd].
  destruct (1 <? d) eqn:Ed; [apply Z.ltb_lt in Ed|apply Z.ltb_ge in Ed].
  - unfold time_of, msPerDay. lia.
  - destruct (1 <? m) eqn:Em; [apply Z.ltb_lt in Em|apply Z.ltb_ge in Em].
    + pose proof (days_before_month y (m - 1) ltac:(lia)) as H.
      unfold time_of, msPerDay. rewrite H. lia.
    + assert (m = 1) by lia. assert (d = 1) by lia. subst m d.
      pose proof (DayFromYear_next (y - 1)) as H.
      replace (y - 1 + 1) with y in H by lia.
      pose proof (days_before_year (y - 1)) as H12.
      change 12%nat with (S 11) in H12. cbn [days_before] in H12.
      change (days_in_month (y - 1) (Z.of_nat 12)) with 31 in H12.
      unfold time_of, msPerDay. change (Z.to_nat (12 - 1)) with 11%nat.
      change (Z.to_nat (1 - 1)) with 0%nat. cbn [days_before]. lia.
Qed.

(** X16. [formatDate] shows the day of the date string in the local time
    zone: at UTC and east of it (an offset of less than a day) the day of
    the string itself, west of UTC the day before it. *)
Theorem formatDate_local_day (tza : Z -> Z) (fmt : Z -> Z -> Z -> jsstring)
  (dateStr : jsstring) (y m d : Z) :
  calendar dateStr = Some (y, m, d) ->
  (0 <= tza (time_of y m d) < msPerDay ->
   formatDate tza fmt dateStr = fmt y (m - 1) d) /\
  (- msPerDay <= tza (time_of y m d) < 0 ->
   formatDate tza fmt dateStr
   = let '(y', m', d') := prev_day (y, m, d) in fmt y' (m' - 1) d').
Proof.
  intros Hc. pose proof (calendar_valid _ _ Hc) as Hv.
  unfold formatDate, Date. rewrite Hc. cbv zeta. split; intros Hz.
  - destruct (local_fields y m d (tza (time_of y m d)) Hv Hz) as (-> & -> & ->).
    reflexivity.
  - pose proof (prev_day_valid _ Hv) as Hv'. pose proof (prev_day_time y m d Hv) as Ht.
    destruct (prev_day (y, m, d)) as [[y' m'] d'].
    replace (time_of y m d + tza (time_of y m d))
      with (time_of y' m' d' + (tza (time_of y m d) + msPerDay)) by lia.
    destruct (local_fields y' m' d' (tza (time_of y m d) + msPerDay) Hv' ltac:(lia))
      as (-> & -> & ->).
    reflexivity.
Qed.

Lemma formatDate_local_day_witness :
  formatDate (fun _ => 7200000) en_US_long (js "2025-08-27") = js "August 27, 2025" /\
  formatDate (fun _ => -14400000) en_US_long (js "2025-08-27") = js "August 26, 2025" /\
  formatDate (fun _ => -18000000) en_US_long (js "2025-01-01") = js "December 31, 2024".
Proof.
  assert (H1 : calendar (js "2025-08-27") = Some (2025, 8, 27)) by (vm_compute; reflexivity).
  assert (H2 : calendar (js "2025-01-01") = Some (2025, 1, 1)) by (vm_compute; reflexivity).
  split; [|split].
  - rewrite (proj1 (formatDate_local_day (fun _ => 7200000) en_US_long _ _ _ _ H1)).
    + vm_compute. reflexivity.
    + unfold msPerDay. lia.
  - rewrite (proj2 (formatDate_local_day (fun _ => -14400000) en_US_long _ _ _ _ H1)).
    + vm_compute. reflexivity.
    + unfold msPerDay. lia.
  - rewrite (proj2 (formatDate_local_day (fun _ => -18000000) en_US_long _ _ _ _ H2)).
    + vm_compute. reflexivity.
    + unfold msPerDay. lia.
Defined.

Local Open Scope N_scope.

(** * Texts that no pattern matches *)

Lemma block_tag_short (b : jsstring) :
  (List.length b <= 1)%nat -> test block_tag_re b = false.
Proof.
  destruct b as [|a [|c s]]; cbn [List.length]; intros H; [reflexivity| |lia].
  unfold block_tag_re. rewrite test_Bos. unfold match_here.
  rewrite rmatch_Seq, rmatch_Bol. cbn [at_bol before].
  rewrite rmatch_Seq. change (Lit (js "<")) with (Seq (Chr (N.eqb 60)) Eps).
  rewrite rmatch_Seq, rmatch_Chr. now destruct (60 =? a).
Qed.

Lemma block_tag_set (c : code_unit) :
  one_of (js "h|l|h|u|o") c = one_of (js "hluo|") c.
Proof.
  unfold one_of.
  change (js "h|l|h|u|o") with [104; 124; 108; 124; 104; 124; 117; 124; 111].
  change (js "hluo|") with [104; 108; 117; 111; 124].
  cbn [existsb].
  destruct (c =? 104), (c =? 124), (c =? 108), (c =? 117), (c =? 111); reflexivity.
Qed.

Lemma starts_with_block_tag_test (b : jsstring) :
  test block_tag_re b = starts_with_block_tag b.
Proof.
  destruct b as [|a [|c s]].
  - reflexivity.
  - now rewrite block_tag_short.
  - rewrite block_tag_test, block_tag_set. cbn [starts_with_block_tag].
    now rewrite (N.eqb_sym 60 a).
Qed.

Lemma wrap_para_literal (b : jsstring) : wrap_para b = literal_paragraph b.
Proof.
  unfold wrap_para, literal_paragraph.
  rewrite starts_with_block_tag_test, placeholder_test.
  destruct (starts_with_block_tag b); [reflexivity|].
  destruct (is_prefix (js "__CODE_BLOCK_") b); [reflexivity|]. cbn [orb].
  destruct (forallb isSpace b) eqn:E.
  - assert (H : trim b = []).
    { apply trim_nil. apply (Forall_forallb isSpace); [easy|exact E]. }
    now rewrite H.
  - destruct (trim b) as [|x t] eqn:T; [|reflexivity].
    apply trim_nil in T. exfalso.
    assert (H : forallb isSpace b = true)
      by (apply forallb_forall; now apply Forall_forall).
    congruence.
Qed.

(** Every text is a sequence of blocks separated by blank lines. *)
Lemma no_blank_line prev (s : jsstring) :
  (forall a b, s = a ++ b -> is_prefix [10; 10] b = false) ->
  match s with c :: _ => opens_with_pair 10 10 prev c = false | [] => True end ->
  clean (opens_with_pair 10 10) prev s = true.
Proof.
  revert prev. induction s as [|c s IH]; intros prev H H0; [reflexivity|].
  cbn [clean]. rewrite H0. cbn [negb andb]. apply IH.
  - intros a b ->. apply (H (c :: a)). reflexivity.
  - destruct s as [|d s]; [exact I|]. cbn [opens_with_pair].
    specialize (H [] (c :: d :: s) eq_refl). cbn [is_prefix] in H.
    destruct (10 =? c) eqn:E1; destruct (10 =? d) eqn:E2;
      try (apply N.eqb_eq in E1; subst c); try (apply N.eqb_eq in E2; subst d);
      try discriminate H.
    + rewrite (N.eqb_sym d 10), E2. apply andb_false_r.
    + rewrite (N.eqb_sym c 10), E1. reflexivity.
    + rewrite (N.eqb_sym c 10), E1. reflexivity.
Qed.

Lemma text_blocks (n : nat) (s : jsstring) :
  (List.length s <= n)%nat ->
  exists ps last,
    s = join [10; 10] (ps ++ [last]) /\
    Forall block_text ps /\
    clean (opens_with_pair 10 10) None last = true.
Proof.
  revert s. induction n as [|n IH]; intros s Hn.
  - destruct s; [|cbn in Hn; lia]. exists [], []. now repeat split.
  - destruct (find_first [10; 10] [] s) as [[pre post]|] eqn:E.
    + apply find_first_minimal in E as (body & -> & -> & Hmin). cbn [rev app] in *.
      destruct (IH post) as (ps & last & Hpost & Hps & Hlast).
      { rewrite !length_app in Hn. cbn [List.length] in Hn. lia. }
      exists (body :: ps), last. repeat split; [|constructor; [|exact Hps]|exact Hlast].
      * cbn [app]. rewrite join_cons by now destruct ps. now rewrite <- Hpost.
      * split.
        -- apply no_blank_line; [|now destruct body].
           intros a b ->. destruct b as [|c b]; [reflexivity|].
           specialize (Hmin a c b eq_refl). cbn [is_prefix] in *.
           destruct (10 =? c); [|reflexivity]. cbn [andb] in *.
           destruct b as [|d b]; [reflexivity|]. exact Hmin.
        -- intros Hl. destruct (rev body) as [|c r] eqn:R.
           { unfold last_of in Hl. now rewrite R in Hl. }
           unfold last_of in Hl. rewrite R in Hl. injection Hl as ->.
           apply (f_equal (@rev _)) in R. rewrite rev_involutive in R. cbn [rev] in R.
           specialize (Hmin (rev r) 10 [] R). discriminate Hmin.
    + exists [], s. repeat split; [constructor|].
      apply no_blank_line; [|now destruct s].
      intros a b ->. now apply (find_first_none _ _ _ E a b).
Qed.




(** * Deep links: the view *)





(** * Fences through the stages *)

(** ** Texts with fences *)

Lemma fill_app tok (x y : list piece) : fill tok (x ++ y) = fill tok x ++ fill tok y.
Proof. apply flat_map_app. Qed.

Lemma fill_plain tok (s : jsstring) : fill tok (plain s) = s.
Proof. induction s as [|c s IH]; [reflexivity|]. cbn. now f_equal. Qed.

Lemma fences_of_app (x y : list piece) : fences_of (x ++ y) = fences_of x ++ fences_of y.
Proof. apply flat_map_app. Qed.

Lemma fences_of_plain (s : jsstring) : fences_of (plain s) = [].
Proof. induction s as [|c s IH]; [reflexivity|exact IH]. Qed.

Lemma plain_app (a b : jsstring) : plain (a ++ b) = plain a ++ plain b.
Proof. apply map_app. Qed.

(** A text without fences is the same however fences are written. *)
Lemma no_fences_plain (x : list piece) :
  fences_of x = [] -> exists s, x = plain s.
Proof.
  induction x as [|[c|i code] x IH]; cbn [fences_of flat_map app]; intros H.
  - now exists [].
  - destruct (IH H) as [s ->]. now exists (c :: s).
  - discriminate.
Qed.

Lemma edits_refl (x : list piece) : edits x x.
Proof. induction x; now constructor. Qed.

Lemma edits_keep_all (g x x' : list piece) : edits x x' -> edits (g ++ x) (g ++ x').
Proof. intros H. induction g; [exact H|]. cbn [app]. now constructor. Qed.

Lemma edits_fences (x x' : list piece) : edits x x' -> fences_of x' = fences_of x.
Proof.
  induction 1 as [|p x x' _ IH|m tag x x' _ _ _ IH|m].
  - reflexivity.
  - change (p :: x') with ([p] ++ x'). change (p :: x) with ([p] ++ x).
    now rewrite !fences_of_app, IH.
  - now rewrite !fences_of_app, !fences_of_plain, IH.
  - now rewrite fences_of_plain.
Qed.

(** An edit makes no occurrence of the placeholder name. *)
Lemma edits_no_name tok (x x' : list piece) :
  edits x x' ->
  forall a, occurs placeholder_name (a ++ fill tok x) = false ->
            occurs placeholder_name (a ++ fill tok x') = false.
Proof.
  induction 1 as [|p x x' _ IH|m tag x x' Hne Htag _ IH|m]; intros a H.
  - exact H.
  - change (p :: x') with ([p] ++ x'). change (p :: x) with ([p] ++ x) in H.
    rewrite fill_app, app_assoc in *. now apply IH.
  - rewrite fill_app, fill_plain in *. rewrite app_assoc. apply IH.
    rewrite <- app_assoc. now apply (occurs_replace placeholder_name a m tag).
  - rewrite fill_plain in H. cbn [fill flat_map]. rewrite app_nil_r.
    now apply occurs_app_l in H.
Qed.

(** ** Cutting a text with fences *)

Section Cut.
Variable tok : nat -> jsstring -> jsstring.
(** [cut_ok u v]: a position, with the text [u] before it and [v] after
    it, at which no fence can be open. *)
Variable cut_ok : jsstring -> jsstring -> Prop.
Hypothesis tok_solid :
  forall i code t1 t2 a b,
    tok i code = t1 ++ t2 -> t1 <> [] -> t2 <> [] -> ~ cut_ok (a ++ t1) (t2 ++ b).

Lemma cut_pieces (x : list piece) (pre u v : jsstring) :
  fill tok x = u ++ v -> cut_ok (pre ++ u) v ->
  exists x1 x2, x = x1 ++ x2 /\ fill tok x1 = u /\ fill tok x2 = v.
Proof.
  revert pre u. induction x as [|[c|i code] x IH]; intros pre u E Hcut.
  - symmetry in E. apply app_eq_nil in E as [-> ->]. now exists [], [].
  - destruct u as [|c' u].
    + exists [], (Plain c :: x). now repeat split.
    + cbn in E. injection E as <- E.
      destruct (IH (pre ++ [c]) u E) as (x1 & x2 & -> & H1 & H2).
      { now rewrite <- app_assoc. }
      exists (Plain c :: x1), x2. repeat split; [|exact H2]. cbn. now f_equal.
  - change (fill tok (Fence i code :: x)) with (tok i code ++ fill tok x) in E.
    apply app_eq_app in E as [l [[E1 E2]|[E1 E2]]].
    + (* the cut is not after the fence *)
      destruct u as [|c u].
      { exists [], (Fence i code :: x). repeat split.
        cbn [app] in E1. now rewrite E2, <- E1. }
      destruct l as [|d l].
      { rewrite app_nil_r in E1. cbn [app] in E2. subst v.
        exists [Fence i code], x. repeat split.
        change (fill tok [Fence i code]) with (tok i code ++ []).
        now rewrite app_nil_r. }
      exfalso. subst v.
      apply (tok_solid i code (c :: u) (d :: l) pre (fill tok x) E1); easy.
    + (* the cut is after the fence *)
      subst u.
      destruct (IH (pre ++ tok i code) l E2) as (x1 & x2 & -> & H1 & H2).
      { now rewrite <- app_assoc. }
      exists (Fence i code :: x1), x2. repeat split; [|exact H2].
      change (fill tok (Fence i code :: x1)) with (tok i code ++ fill tok x1).
      now rewrite H1.
Qed.
End Cut.

(** ** A replacement stage on a text with fences *)

Section Stage.
Variable tok : nat -> jsstring -> jsstring.
Variable r : regex.
Variable f : jsstring -> mresult -> jsstring.

Hypothesis at_end : forall bef, match_here r bef [] = None.

(** No match starts in a fence. *)
Hypothesis over_fence :
  forall i code bef aft,
    replace_loop r f bef (tok i code ++ aft) 0
    = tok i code ++ replace_loop r f (rev (tok i code) ++ bef) aft 0.

(** A match is an opening part [m] of plain text, a part [g] that is
    kept, with its fences, and a closing part [c] of plain text; the
    replacement puts tags for the two parts. *)
Hypothesis on_match :
  forall bef x res,
    match_here r bef (fill tok x) = Some res ->
    exists m g c rest opn cls,
      x = plain m ++ g ++ plain c ++ rest /\
      m_text res = m ++ fill tok g ++ c /\
      m_text res <> [] /\
      f (rev bef) res = opn ++ fill tok g ++ cls /\
      opn <> [] /\
      Forall (fun c => one_of placeholder_name c = false) opn /\
      Forall (fun c => one_of placeholder_name c = false) cls /\
      (cls = [] -> c = []).

Lemma stage_edits (n : nat) (x : list piece) (bef : jsstring) :
  (List.length x <= n)%nat ->
  exists x', replace_loop r f bef (fill tok x) 0 = fill tok x' /\ edits x x'.
Proof.
  revert x bef. induction n as [|n IH]; intros x bef Hn.
  { destruct x; [|cbn in Hn; lia]. exists []. split; [|constructor].
    cbn [fill flat_map replace_loop]. now rewrite at_end. }
  destruct x as [|[c|i code] x].
  - exists []. split; [|constructor].
    cbn [fill flat_map replace_loop]. now rewrite at_end.
  - destruct (match_here r bef (fill tok (Plain c :: x))) as [res|] eqn:M.
    + destruct (on_match bef _ res M)
        as (m & g & c0 & rest & opn & cls & E & Htxt & Hne & Hf & Hopn & Ho & Hc & Hcls).
      assert (Hfill : fill tok (Plain c :: x) = (m ++ fill tok g ++ c0) ++ fill tok rest).
      { rewrite E, !fill_app, !fill_plain. now rewrite <- !app_assoc. }
      assert (Hlen : (List.length rest <= n)%nat).
      { apply (f_equal (@List.length _)) in E.
        rewrite !length_app in E. unfold plain in E. rewrite !length_map in E.
        cbn [List.length] in Hn, E.
        assert (0 < List.length m + List.length g + List.length c0)%nat; [|lia].
        rewrite Htxt in Hne.
        destruct m; [|cbn; lia]. destruct g; [|cbn; lia]. destruct c0; [|cbn; lia].
        now destruct Hne. }
      destruct (IH rest (rev (m ++ fill tok g ++ c0) ++ bef) Hlen) as (rest' & Hr & He).
      exists (plain opn ++ g ++ plain cls ++ rest'). split.
      * rewrite Hfill in M |- *.
        rewrite (replace_loop_match r f bef _ _ res); [|now rewrite <- Htxt|exact M|exact Htxt].
        rewrite Hf, Hr, !fill_app, !fill_plain. now rewrite <- !app_assoc.
      * rewrite E. apply edits_tag; [exact Hopn|exact Ho|].
        apply edits_keep_all.
        destruct cls as [|d cls].
        -- rewrite (Hcls eq_refl). exact He.
        -- now apply edits_tag.
    + assert (Hlen : (List.length x <= n)%nat) by (cbn in Hn; lia).
      destruct (IH x (c :: bef) Hlen) as (x' & Hr & He).
      exists (Plain c :: x'). split; [|now constructor].
      change (fill tok (Plain c :: x)) with (c :: fill tok x) in M |- *.
      change (fill tok (Plain c :: x')) with (c :: fill tok x').
      cbn [replace_loop]. now rewrite M, Hr.
  - assert (Hlen : (List.length x <= n)%nat) by (cbn in Hn; lia).
    destruct (IH x (rev (tok i code) ++ bef) Hlen) as (x' & Hr & He).
    exists (Fence i code :: x'). split; [|now constructor].
    change (fill tok (Fence i code :: x)) with (tok i code ++ fill tok x).
    change (fill tok (Fence i code :: x')) with (tok i code ++ fill tok x').
    now rewrite over_fence, Hr.
Qed.
End Stage.

(** The text around the fences after a stage with a template. *)

(** ** What a match is made of *)

Lemma greedy_chars_inv p k (bef aft : jsstring) cs e :
  greedy_chars p k bef aft cs = Some e ->
  exists xs rest,
    aft = xs ++ rest /\ Forall (fun c => p c = true) xs /\
    k (MState (rev xs ++ bef) rest cs) = Some e.
Proof.
  revert bef. induction aft as [|c aft IH]; intros bef H; cbn [greedy_chars] in H.
  - exists [], []. now repeat split.
  - destruct (p c) eqn:Pc; [|exists [], (c :: aft); now repeat split].
    destruct (greedy_chars p k (c :: bef) aft cs) as [e'|] eqn:G.
    + injection H as ->. destruct (IH _ G) as (xs & rest & -> & Hxs & Hk).
      exists (c :: xs), rest. repeat split; [now constructor|].
      cbn [rev]. now rewrite <- app_assoc.
    + exists [], (c :: aft). now repeat split.
Qed.

Lemma lazy_chars_inv p k (bef aft : jsstring) cs e :
  lazy_chars p k bef aft cs = Some e ->
  exists xs rest,
    aft = xs ++ rest /\ Forall (fun c => p c = true) xs /\
    k (MState (rev xs ++ bef) rest cs) = Some e.
Proof.
  revert bef. induction aft as [|c aft IH]; intros bef H; cbn [lazy_chars] in H.
  - destruct (k (MState bef [] cs)) as [e'|] eqn:K; [|discriminate].
    exists [], []. repeat split; [constructor|]. now rewrite <- H.
  - destruct (k (MState bef (c :: aft) cs)) as [e'|] eqn:K.
    + exists [], (c :: aft). repeat split; [constructor|]. now rewrite <- H.
    + destruct (p c) eqn:Pc; [|discriminate].
      destruct (IH _ H) as (xs & rest & -> & Hxs & Hk).
      exists (c :: xs), rest. repeat split; [now constructor|].
      cbn [rev]. now rewrite <- app_assoc.
Qed.

Lemma rmatch_Chr_inv p k bef aft cs e :
  rmatch (Chr p) k (MState bef aft cs) = Some e ->
  exists c rest, aft = c :: rest /\ p c = true /\ k (MState (c :: bef) rest cs) = Some e.
Proof.
  destruct aft as [|c rest]; [now rewrite rmatch_Chr_nil|].
  rewrite rmatch_Chr. destruct (p c) eqn:Pc; [|discriminate].
  intros H. now exists c, rest.
Qed.

Lemma rmatch_Plus_inv p k bef aft cs e :
  rmatch (Plus (Chr p)) k (MState bef aft cs) = Some e ->
  exists c xs rest,
    aft = (c :: xs) ++ rest /\ Forall (fun c => p c = true) (c :: xs) /\
    k (MState (rev (c :: xs) ++ bef) rest cs) = Some e.
Proof.
  unfold Plus. rewrite rmatch_Seq. intros H.
  apply rmatch_Chr_inv in H as (c & rest & -> & Pc & H).
  rewrite rmatch_star_greedy in H.
  apply greedy_chars_inv in H as (xs & rest' & -> & Hxs & H).
  exists c, xs, rest'. repeat split; [now constructor|].
  cbn [rev]. now rewrite <- app_assoc.
Qed.

Lemma rmatch_Lit_state (l : jsstring) k bef aft cs e :
  rmatch (Lit l) k (MState bef aft cs) = Some e ->
  exists rest, aft = l ++ rest /\ k (MState (rev l ++ bef) rest cs) = Some e.
Proof. intros H. now apply rmatch_Lit_inv in H. Qed.

(** The end of a line: nothing follows, or a line terminator. *)
Lemma at_eol_inv bef rest cs : at_eol true (MState bef rest cs) = true -> stops isDot rest.
Proof.
  unfold at_eol, stops, isDot. cbn [after]. destruct rest as [|c rest]; [easy|].
  cbn [andb]. now intros ->.
Qed.

Lemma delimited_inv (opn cls : jsstring) p (bef aft : jsstring) (res : mresult) :
  match_here (delimited opn p cls) bef aft = Some res ->
  exists g rest,
    aft = opn ++ g ++ cls ++ rest /\
    res = MResult (opn ++ g ++ cls) [(1%nat, g)] rest.
Proof.
  unfold match_here, delimited.
  destruct (rmatch _ Some (MState bef aft [])) as [e|] eqn:M; [|discriminate].
  intros H. injection H as <-.
  rewrite rmatch_Seq in M. apply rmatch_Lit_state in M as (a1 & -> & M).
  rewrite rmatch_Seq, rmatch_Group, rmatch_star_lazy in M. cbn [after] in M.
  apply lazy_chars_inv in M as (g & a2 & -> & _ & M).
  cbn [after] in M. rewrite firstn_app_minus in M. unfold set_cap in M. cbn [before after caps] in M.
  apply rmatch_Lit_state in M as (rest & -> & M). injection M as <-.
  exists g, rest. split; [reflexivity|]. cbn [after caps].
  now rewrite firstn_app_minus3.
Qed.

Lemma inline_code_inv (bef aft : jsstring) (res : mresult) :
  match_here inline_code_re bef aft = Some res ->
  exists g rest,
    aft = js "`" ++ g ++ js "`" ++ rest /\
    res = MResult (js "`" ++ g ++ js "`") [(1%nat, g)] rest.
Proof.
  unfold match_here, inline_code_re.
  destruct (rmatch _ Some (MState bef aft [])) as [e|] eqn:M; [|discriminate].
  intros H. injection H as <-.
  rewrite rmatch_Seq in M. apply rmatch_Lit_state in M as (a1 & -> & M).
  rewrite rmatch_Seq, rmatch_Group in M. cbn [after] in M.
  apply rmatch_Plus_inv in M as (c & xs & a2 & -> & _ & M).
  cbn [after] in M. rewrite firstn_app_minus in M. unfold set_cap in M. cbn [before after caps] in M.
  apply rmatch_Lit_state in M as (rest & -> & M). injection M as <-.
  exists (c :: xs), rest. split; [reflexivity|]. cbn [after caps].
  now rewrite firstn_app_minus3.
Qed.

Lemma firstn_app_minus2 {A} (a b r : list A) :
  firstn (List.length (a ++ b ++ r) - List.length r) (a ++ b ++ r) = a ++ b.
Proof. rewrite app_assoc. apply firstn_app_minus. Qed.

Lemma heading_inv (marker bef aft : jsstring) (res : mresult) :
  match_here (heading_re marker) bef aft = Some res ->
  exists g rest,
    aft = marker ++ g ++ rest /\ stops isDot rest /\
    res = MResult (marker ++ g) [(1%nat, g)] rest.
Proof.
  unfold match_here, heading_re.
  destruct (rmatch _ Some (MState bef aft [])) as [e|] eqn:M; [|discriminate].
  intros H. injection H as <-.
  rewrite rmatch_Seq, rmatch_Bol in M.
  destruct (at_bol true (MState bef aft [])); [|discriminate].
  rewrite rmatch_Seq in M. apply rmatch_Lit_state in M as (a1 & -> & M).
  rewrite rmatch_Group, rmatch_Seq, rmatch_star_greedy in M. cbn [after] in M.
  apply greedy_chars_inv in M as (g & rest & -> & _ & M).
  rewrite rmatch_Eol in M.
  destruct (at_eol true _) eqn:Eol in M; [|discriminate].
  apply at_eol_inv in Eol.
  cbn [after] in M. rewrite firstn_app_minus in M. unfold set_cap in M. cbn [before after caps] in M.
  injection M as <-.
  exists g, rest. split; [reflexivity|]. split; [exact Eol|]. cbn [after caps].
  now rewrite firstn_app_minus2.
Qed.

Lemma hr_inv (bef aft : jsstring) (res : mresult) :
  match_here hr_re bef aft = Some res ->
  exists rest,
    aft = js "---" ++ rest /\ stops isDot rest /\ res = MResult (js "---") [] rest.
Proof.
  unfold match_here, hr_re.
  destruct (rmatch _ Some (MState bef aft [])) as [e|] eqn:M; [|discriminate].
  intros H. injection H as <-.
  rewrite rmatch_Seq, rmatch_Bol in M.
  destruct (at_bol true (MState bef aft [])); [|discriminate].
  rewrite rmatch_Seq in M. apply rmatch_Lit_state in M as (rest & -> & M).
  rewrite rmatch_Eol in M.
  destruct (at_eol true _) eqn:Eol in M; [|discriminate].
  apply at_eol_inv in Eol. injection M as <-.
  exists rest. split; [reflexivity|]. split; [exact Eol|]. cbn [after caps].
  now rewrite firstn_app_minus.
Qed.

Lemma bullet_inv (bef aft : jsstring) (res : mresult) :
  match_here bullet_re bef aft = Some res ->
  exists g rest,
    aft = js "* " ++ g ++ rest /\ stops isDot rest /\
    res = MResult (js "* " ++ g) [(1%nat, g)] rest.
Proof.
  unfold match_here, bullet_re.
  destruct (rmatch _ Some (MState bef aft [])) as [e|] eqn:M; [|discriminate].
  intros H. injection H as <-.
  rewrite rmatch_Seq, rmatch_Bol in M.
  destruct (at_bol true (MState bef aft [])); [|discriminate].
  rewrite rmatch_Seq in M. apply rmatch_Lit_state in M as (a1 & -> & M).
  rewrite rmatch_Seq, rmatch_Group in M. cbn [after] in M.
  apply rmatch_Plus_inv in M as (c & xs & rest & -> & _ & M).
  cbn [after] in M. rewrite firstn_app_minus in M. unfold set_cap in M. cbn [before after caps] in M.
  rewrite rmatch_Eol in M.
  destruct (at_eol true _) eqn:Eol in M; [|discriminate].
  apply at_eol_inv in Eol. injection M as <-.
  exists (c :: xs), rest. split; [reflexivity|]. split; [exact Eol|]. cbn [after caps].
  now rewrite firstn_app_minus2.
Qed.

Lemma numbered_inv (bef aft : jsstring) (res : mresult) :
  match_here numbered_re bef aft = Some res ->
  exists ds g rest,
    aft = ds ++ js ". " ++ g ++ rest /\ stops isDot rest /\
    ds <> [] /\ Forall (fun c => isDigit c = true) ds /\
    res = MResult (ds ++ js ". " ++ g) [(1%nat, g)] rest.
Proof.
  unfold match_here, numbered_re.
  destruct (rmatch _ Some (MState bef aft [])) as [e|] eqn:M; [|discriminate].
  intros H. injection H as <-.
  rewrite rmatch_Seq, rmatch_Bol in M.
  destruct (at_bol true (MState bef aft [])); [|discriminate].
  rewrite rmatch_Seq in M.
  apply rmatch_Plus_inv in M as (d & ds & a1 & -> & Hds & M).
  rewrite rmatch_Seq in M. apply rmatch_Lit_state in M as (a2 & -> & M).
  rewrite rmatch_Seq, rmatch_Group in M. cbn [after] in M.
  apply rmatch_Plus_inv in M as (c & xs & rest & -> & _ & M).
  cbn [after] in M. rewrite firstn_app_minus in M. unfold set_cap in M. cbn [before after caps] in M.
  rewrite rmatch_Eol in M.
  destruct (at_eol true _) eqn:Eol in M; [|discriminate].
  apply at_eol_inv in Eol. injection M as <-.
  exists (d :: ds), (c :: xs), rest.
  split; [reflexivity|]. split; [exact Eol|]. split; [discriminate|]. split; [exact Hds|].
  cbn [after caps]. f_equal. apply firstn_app_minus3.
Qed.

(** ** Placeholders in the stages *)

Lemma placeholder_units (i : nat) : Forall (fun c => name_unit c = true) (placeholder i).
Proof.
  unfold placeholder. rewrite !Forall_app. repeat split.
  - apply (Forall_forallb name_unit); [easy|reflexivity].
  - eapply Forall_impl; [|apply nat_to_js_digits].
    intros c Hc. unfold name_unit. rewrite Hc. apply orb_true_r.
  - apply (Forall_forallb name_unit); [easy|reflexivity].
Qed.

Lemma placeholder_solid i (code t1 t2 a b : jsstring) :
  as_placeholder i code = t1 ++ t2 -> t1 <> [] -> t2 <> [] ->
  ~ outside_name (a ++ t1) (t2 ++ b).
Proof.
  unfold as_placeholder. intros E H1 H2 Hcut.
  pose proof (placeholder_units i) as Hu. rewrite E in Hu.
  apply Forall_app in Hu as [Hu1 Hu2].
  destruct Hcut as [Hcut|Hcut].
  - destruct t2 as [|c t2]; [easy|]. cbn [app] in Hcut.
    inversion Hu2; subst. congruence.
  - rewrite rev_app_distr in Hcut.
    apply Forall_rev in Hu1. destruct (rev t1) as [|c r] eqn:R.
    + apply (f_equal (@rev _)) in R. rewrite rev_involutive in R. now subst.
    + cbn [app] in Hcut. inversion Hu1; subst. congruence.
Qed.

(** Plain text without underscore has no placeholder in it. *)
Lemma fill_plain_inv (x : list piece) (s : jsstring) :
  fill as_placeholder x = s -> Forall (fun c => c <> 95) s -> x = plain s.
Proof.
  revert s. induction x as [|[c|i code] x IH]; intros s E Hs; subst s.
  - reflexivity.
  - cbn in Hs. inversion Hs; subst. cbn. f_equal. now apply IH.
  - exfalso. change (fill as_placeholder (Fence i code :: x))
      with (95 :: (95 :: js "CODE_BLOCK_" ++ nat_to_js i ++ js "__")
               ++ fill as_placeholder x) in Hs.
    inversion Hs; subst. congruence.
Qed.

Lemma name_unit_underscore (s : jsstring) :
  Forall (fun c => name_unit c = false) s -> Forall (fun c => c <> 95) s.
Proof. apply Forall_impl. intros c Hc ->. discriminate. Qed.

(** A match that opens with plain text [m] and closes with plain text
    [c], or at the end of a line, as pieces. *)
Lemma match_pieces (x : list piece) (m g c rest : jsstring) :
  fill as_placeholder x = m ++ g ++ c ++ rest ->
  Forall (fun c => c <> 95) m ->
  match rev m with d :: _ => name_unit d = false | [] => False end ->
  Forall (fun c => name_unit c = false) c ->
  (c = [] -> stops isDot rest) ->
  exists xg xrest,
    x = plain m ++ xg ++ plain c ++ xrest /\
    fill as_placeholder xg = g /\ fill as_placeholder xrest = rest.
Proof.
  intros E Hm Hlast Hc Hrest.
  assert (Hstop : forall u, outside_name u (c ++ rest)).
  { intros u. left. destruct c as [|d c].
    - cbn [app]. specialize (Hrest eq_refl). destruct rest as [|d rest]; [exact I|].
      cbn [stops] in Hrest. unfold isDot in Hrest. apply negb_false_iff in Hrest.
      unfold name_unit, isLineTerminator, isDigit, one_of, placeholder_name in *.
      repeat (apply orb_prop in Hrest as [Hrest|Hrest]);
        apply N.eqb_eq in Hrest; subst d; reflexivity.
    - now inversion Hc. }
  destruct (cut_pieces as_placeholder outside_name placeholder_solid x [] m _ E)
    as (x1 & x2 & -> & H1 & H2).
  { right. cbn [app]. destruct (rev m); [easy|exact Hlast]. }
  apply fill_plain_inv in H1; [|exact Hm]. subst x1.
  destruct (cut_pieces as_placeholder outside_name placeholder_solid x2 m g _ H2)
    as (xg & x3 & -> & Hg & H3); [apply Hstop|].
  destruct (cut_pieces as_placeholder outside_name placeholder_solid x3 (m ++ g) c _ H3)
    as (xc & xrest & -> & Hxc & Hxrest).
  { destruct c as [|d c] using rev_ind.
    - rewrite app_nil_r. apply (Hstop (m ++ g)).
    - right. rewrite !rev_app_distr. cbn [rev app].
      apply Forall_app in Hc as [_ Hd]. now inversion Hd. }
  apply fill_plain_inv in Hxc; [|now apply name_unit_underscore]. subst xc.
  now exists xg, xrest.
Qed.

(** A stage with a template: the pattern has a window that no placeholder
    passes, and a match is an opening part, the text of group 1 and a
    closing part, for which the template gives two tags. *)
Section TemplateStage.
Variable r : regex.
Variable t : jsstring.
Variable h : window.
Variables opn cls : jsstring.

Hypothesis r_guarded : guarded r h.
Hypothesis h_placeholder : forall i prev, clean h prev (placeholder i) = true.
Hypothesis opn_tag : opn <> [] /\ Forall (fun c => one_of placeholder_name c = false) opn.
Hypothesis cls_tag : Forall (fun c => one_of placeholder_name c = false) cls.
Hypothesis r_inv :
  forall bef aft res,
    match_here r bef aft = Some res ->
    exists m g c rest,
      aft = m ++ g ++ c ++ rest /\
      m_text res = m ++ g ++ c /\
      template r t (rev bef) res = opn ++ g ++ cls /\
      Forall (fun c => c <> 95) m /\
      match rev m with d :: _ => name_unit d = false | [] => False end /\
      Forall (fun c => name_unit c = false) c /\
      (c = [] -> stops isDot rest) /\
      (cls = [] -> c = []).

Lemma template_stage_edits (x : list piece) :
  exists x', replace_re r t (fill as_placeholder x) = fill as_placeholder x' /\ edits x x'.
Proof.
  unfold replace_re, replace_fn.
  apply (stage_edits as_placeholder r (template r t)) with (n := List.length x);
    [exact (proj2 r_guarded)| | |lia].
  - intros i code bef aft. unfold as_placeholder.
    apply (replace_loop_clean_app r _ h); [exact (proj1 r_guarded)|apply h_placeholder].
  - intros bef x0 res M.
    destruct (r_inv bef _ res M)
      as (m & g & c & rest & E & Htxt & Hf & Hm & Hlast & Hc & Hrest & Hcls).
    destruct (match_pieces x0 m g c rest E Hm Hlast Hc Hrest) as (xg & xrest & -> & Hg & Hr).
    exists m, xg, c, xrest, opn, cls. rewrite Hg.
    repeat split; try easy; try apply opn_tag.
    rewrite Htxt. destruct m; [easy|discriminate].
Qed.
End TemplateStage.

(** ** The stages, one by one *)

Lemma edits_carried (x x' : list piece) : edits x x' -> carried x x'.
Proof.
  intros H. split; [now apply edits_fences|].
  intros tok a. now apply edits_no_name.
Qed.

Lemma carried_trans (x y z : list piece) : carried x y -> carried y z -> carried x z.
Proof.
  intros [H1 H2] [H3 H4]. split; [congruence|].
  intros tok a H. apply H4, H2, H.
Qed.

(** The windows of the patterns on a placeholder. *)
Lemma placeholder_no_char (a : code_unit) (i : nat) prev :
  name_unit a = false -> clean (opens_with a) prev (placeholder i) = true.
Proof.
  intros Ha. apply no_char_clean.
  eapply Forall_impl; [|apply placeholder_units]. intros c Hc ->. congruence.
Qed.

Lemma placeholder_not_line_start q (i : nat) prev :
  q 95 = false -> clean (line_opens_with q) prev (placeholder i) = true.
Proof.
  intros Hq.
  apply clean_by_previous with (safe := fun c => negb (isLineTerminator c)).
  - intros p c Hp. unfold line_opens_with, line_start.
    apply negb_true_iff in Hp. now rewrite Hp.
  - eapply Forall_impl; [|apply placeholder_units]. intros c Hc.
    unfold name_unit, one_of, placeholder_name, isDigit, isLineTerminator in *.
    apply negb_true_iff.
    destruct (c =? 10) eqn:E1; [apply N.eqb_eq in E1; subst; discriminate|].
    destruct (c =? 13) eqn:E2; [apply N.eqb_eq in E2; subst; discriminate|].
    destruct (c =? 8232) eqn:E3; [apply N.eqb_eq in E3; subst; discriminate|].
    destruct (c =? 8233) eqn:E4; [apply N.eqb_eq in E4; subst; discriminate|].
    reflexivity.
  - change (placeholder i) with (95 :: (95 :: js "CODE_BLOCK_" ++ nat_to_js i ++ js "__")).
    unfold line_opens_with. rewrite Hq. apply andb_false_r.
Qed.

Lemma tag_closed (l : jsstring) :
  forallb (fun c => negb (one_of placeholder_name c)) l = true ->
  Forall (fun c => one_of placeholder_name c = false) l.
Proof.
  apply Forall_forallb. intros c Hc. now apply negb_true_iff in Hc.
Qed.

Lemma no_underscore_closed (l : jsstring) :
  forallb (fun c => negb (c =? 95)) l = true -> Forall (fun c => c <> 95) l.
Proof. apply no_char_closed. Qed.

Lemma heading_edits (marker' tmpl opn cls : jsstring) (x : list piece) :
  (forall matched pre post cs,
      GetSubstitution 1 matched pre post cs tmpl = opn ++ cap_text 1 cs ++ cls) ->
  opn <> [] -> forallb (fun c => negb (one_of placeholder_name c)) opn = true ->
  cls <> [] -> forallb (fun c => negb (one_of placeholder_name c)) cls = true ->
  forallb (fun c => negb (c =? 95)) (35 :: marker') = true ->
  match rev (35 :: marker') with d :: _ => name_unit d = false | [] => False end ->
  exists x',
    replace_re (heading_re (35 :: marker')) tmpl (fill as_placeholder x)
    = fill as_placeholder x' /\ edits x x'.
Proof.
  intros Htmpl Hopn1 Hopn2 Hcls1 Hcls2 Hm Hlast.
  apply (template_stage_edits (heading_re (35 :: marker')) tmpl
           (line_opens_with (N.eqb 35)) opn cls).
  - apply guarded_heading.
  - intros i prev. now apply placeholder_not_line_start.
  - split; [exact Hopn1|now apply tag_closed].
  - now apply tag_closed.
  - intros bef aft res M. apply heading_inv in M as (g & rest & -> & Hstop & ->).
    exists (35 :: marker'), g, [], rest.
    refine (conj _ (conj _ (conj _ (conj _ (conj _ (conj _ (conj _ _))))))).
    + reflexivity.
    + cbn [m_text]. now rewrite app_nil_r.
    + unfold template. rewrite ncaps_heading. cbn [m_caps]. now rewrite Htmpl.
    + now apply no_underscore_closed.
    + exact Hlast.
    + constructor.
    + intros _. exact Hstop.
    + intros E. now destruct Hcls1.
Qed.

Lemma headings_edits (x : list piece) :
  exists x', headings (fill as_placeholder x) = fill as_placeholder x' /\ carried x x'.
Proof.
  unfold headings.
  destruct (heading_edits (js "## ") (js "<h3>$1</h3>") (js "<h3>") (js "</h3>") x)
    as (x3 & E3 & H3);
    [apply template_h3|discriminate|reflexivity|discriminate|reflexivity|reflexivity
    |reflexivity|].
  destruct (heading_edits (js "# ") (js "<h2>$1</h2>") (js "<h2>") (js "</h2>") x3)
    as (x2 & E2 & H2);
    [apply template_h2|discriminate|reflexivity|discriminate|reflexivity|reflexivity
    |reflexivity|].
  destruct (heading_edits (js " ") (js "<h1>$1</h1>") (js "<h1>") (js "</h1>") x2)
    as (x1 & E1 & H1);
    [apply template_h1|discriminate|reflexivity|discriminate|reflexivity|reflexivity
    |reflexivity|].
  exists x1. split.
  - change h3_re with (heading_re (35 :: js "## ")).
    change h2_re with (heading_re (35 :: js "# ")).
    change h1_re with (heading_re (35 :: js " ")).
    now rewrite E3, E2, E1.
  - eapply carried_trans; [apply edits_carried, H3|].
    eapply carried_trans; apply edits_carried; eassumption.
Qed.

Lemma hr_edits (x : list piece) :
  exists x',
    replace_re hr_re (js "<hr>") (fill as_placeholder x) = fill as_placeholder x' /\
    edits x x'.
Proof.
  apply (template_stage_edits hr_re (js "<hr>") (line_opens_with (N.eqb 45)) (js "<hr>") []).
  - apply guarded_hr.
  - intros i prev. now apply placeholder_not_line_start.
  - split; [discriminate|now apply tag_closed].
  - constructor.
  - intros bef aft res M. apply hr_inv in M as (rest & -> & Hstop & ->).
    exists (js "---"), [], [], rest. refine (conj _ (conj _ (conj _ (conj _ (conj _ (conj _ (conj _ _))))))).
    + reflexivity.
    + reflexivity.
    + reflexivity.
    + now apply no_underscore_closed.
    + reflexivity.
    + constructor.
    + intros _. exact Hstop.
    + reflexivity.
Qed.

Lemma delimited_edits (d : jsstring) p (tmpl opn cls : jsstring) (a : code_unit)
  (x : list piece) :
  guarded (delimited d p d) (opens_with a) -> name_unit a = false ->
  ncaps (delimited d p d) = 1%nat ->
  (forall matched pre post cs,
      GetSubstitution 1 matched pre post cs tmpl = opn ++ cap_text 1 cs ++ cls) ->
  opn <> [] -> forallb (fun c => negb (one_of placeholder_name c)) opn = true ->
  cls <> [] -> forallb (fun c => negb (one_of placeholder_name c)) cls = true ->
  d <> [] -> forallb (fun c => negb (name_unit c)) d = true ->
  exists x',
    replace_re (delimited d p d) tmpl (fill as_placeholder x)
    = fill as_placeholder x' /\ edits x x'.
Proof.
  intros Hg Ha Hn Htmpl Hopn1 Hopn2 Hcls1 Hcls2 Hd1 Hd.
  assert (Hd2 : Forall (fun c => name_unit c = false) d).
  { apply (Forall_forallb (fun c => negb (name_unit c))); [|exact Hd].
    intros c Hc. now apply negb_true_iff in Hc. }
  apply (template_stage_edits (delimited d p d) tmpl (opens_with a) opn cls).
  - exact Hg.
  - intros i prev. now apply placeholder_no_char.
  - split; [exact Hopn1|now apply tag_closed].
  - now apply tag_closed.
  - intros bef aft res M. apply delimited_inv in M as (g & rest & -> & ->).
    exists d, g, d, rest.
    refine (conj _ (conj _ (conj _ (conj _ (conj _ (conj _ (conj _ _))))))).
    + reflexivity.
    + reflexivity.
    + unfold template. rewrite Hn. cbn [m_caps]. now rewrite Htmpl.
    + now apply name_unit_underscore.
    + apply Forall_rev in Hd2. destruct (rev d) as [|c r] eqn:R.
      * apply (f_equal (@rev _)) in R. rewrite rev_involutive in R. now subst.
      * now inversion Hd2.
    + exact Hd2.
    + intros E. now destruct Hd1.
    + intros E. now destruct Hcls1.
Qed.

Lemma inline_code_edits (x : list piece) :
  exists x',
    replace_re inline_code_re (js "<code>$1</code>") (fill as_placeholder x)
    = fill as_placeholder x' /\ edits x x'.
Proof.
  apply (template_stage_edits inline_code_re (js "<code>$1</code>") (opens_with 96)
           (js "<code>") (js "</code>")).
  - apply guarded_inline_code.
  - intros i prev. now apply placeholder_no_char.
  - split; [discriminate|now apply tag_closed].
  - now apply tag_closed.
  - intros bef aft res M. apply inline_code_inv in M as (g & rest & -> & ->).
    exists (js "`"), g, (js "`"), rest. refine (conj _ (conj _ (conj _ (conj _ (conj _ (conj _ (conj _ _))))))).
    + reflexivity.
    + reflexivity.
    + unfold template. change (ncaps inline_code_re) with 1%nat. cbn [m_caps].
      now rewrite template_code.
    + now apply no_underscore_closed.
    + reflexivity.
    + now repeat constructor.
    + discriminate.
    + discriminate.
Qed.

Lemma inline_edits (x : list piece) :
  exists x', inline (fill as_placeholder x) = fill as_placeholder x' /\ carried x x'.
Proof.
  unfold inline.
  destruct (delimited_edits (js "**") isDot (js "<strong>$1</strong>")
              (js "<strong>") (js "</strong>") 42 x)
    as (xb & Eb & Hb);
    [apply guarded_bold|reflexivity|reflexivity|apply template_strong
    |discriminate|reflexivity|discriminate|reflexivity|discriminate|reflexivity|].
  destruct (delimited_edits (js "*") isDot (js "<em>$1</em>") (js "<em>") (js "</em>") 42 xb)
    as (xi & Ei & Hi);
    [apply guarded_italic|reflexivity|reflexivity|apply template_em
    |discriminate|reflexivity|discriminate|reflexivity|discriminate|reflexivity|].
  destruct (inline_code_edits xi) as (xc & Ec & Hc).
  exists xc. split.
  - change bold_re with (delimited (js "**") isDot (js "**")).
    change italic_re with (delimited (js "*") isDot (js "*")).
    now rewrite Eb, Ei, Ec.
  - eapply carried_trans; [apply edits_carried, Hb|].
    eapply carried_trans; apply edits_carried; eassumption.
Qed.

Lemma bullet_edits (x : list piece) :
  exists x',
    replace_re bullet_re (js "<li>$1</li>") (fill as_placeholder x)
    = fill as_placeholder x' /\ edits x x'.
Proof.
  apply (template_stage_edits bullet_re (js "<li>$1</li>") (line_opens_with (N.eqb 42))
           (js "<li>") (js "</li>")).
  - apply guarded_bullet.
  - intros i prev. now apply placeholder_not_line_start.
  - split; [discriminate|now apply tag_closed].
  - now apply tag_closed.
  - intros bef aft res M. apply bullet_inv in M as (g & rest & -> & Hstop & ->).
    exists (js "* "), g, [], rest. refine (conj _ (conj _ (conj _ (conj _ (conj _ (conj _ (conj _ _))))))).
    + reflexivity.
    + cbn [m_text]. now rewrite app_nil_r.
    + unfold template. change (ncaps bullet_re) with 1%nat. cbn [m_caps].
      now rewrite template_li.
    + now apply no_underscore_closed.
    + reflexivity.
    + constructor.
    + intros _. exact Hstop.
    + discriminate.
Qed.

Lemma numbered_edits (x : list piece) :
  exists x',
    replace_re numbered_re (js "<li>$1</li>") (fill as_placeholder x)
    = fill as_placeholder x' /\ edits x x'.
Proof.
  apply (template_stage_edits numbered_re (js "<li>$1</li>") (line_opens_with isDigit)
           (js "<li>") (js "</li>")).
  - apply guarded_numbered.
  - intros i prev. now apply placeholder_not_line_start.
  - split; [discriminate|now apply tag_closed].
  - now apply tag_closed.
  - intros bef aft res M.
    apply numbered_inv in M as (ds & g & rest & -> & Hstop & Hne & Hds & ->).
    exists (ds ++ js ". "), g, [], rest. refine (conj _ (conj _ (conj _ (conj _ (conj _ (conj _ (conj _ _))))))).
    + now rewrite <- !app_assoc.
    + cbn [m_text]. now rewrite app_nil_r, <- !app_assoc.
    + unfold template. change (ncaps numbered_re) with 1%nat. cbn [m_caps].
      now rewrite template_li.
    + apply Forall_app. split; [|now apply no_underscore_closed].
      eapply Forall_impl; [|exact Hds]. intros c Hc ->. discriminate.
    + rewrite rev_app_distr. reflexivity.
    + constructor.
    + intros _. exact Hstop.
    + discriminate.
Qed.

Lemma list_items_edits (x : list piece) :
  exists x', list_items (fill as_placeholder x) = fill as_placeholder x' /\ carried x x'.
Proof.
  unfold list_items.
  destruct (bullet_edits x) as (xb & Eb & Hb).
  destruct (numbered_edits xb) as (xn & En & Hn).
  exists xn. split; [now rewrite Eb, En|].
  eapply carried_trans; apply edits_carried; eassumption.
Qed.

(** ** Placeholders in the paragraph stage *)

Lemma cut_at_newline (x : list piece) (u v : jsstring) :
  fill as_placeholder x = u ++ 10 :: v ->
  exists x1 x2,
    x = x1 ++ Plain 10 :: x2 /\ fill as_placeholder x1 = u /\ fill as_placeholder x2 = v.
Proof.
  intros E.
  destruct (cut_pieces as_placeholder outside_name placeholder_solid x [] u _ E)
    as (x1 & x2 & -> & H1 & H2); [now left|].
  destruct (cut_pieces as_placeholder outside_name placeholder_solid x2 u [10] v H2)
    as (y & x3 & -> & Hy & H3).
  { right. rewrite rev_app_distr. reflexivity. }
  apply fill_plain_inv in Hy; [|now repeat constructor]. subst y.
  now exists x1, x3.
Qed.

Lemma space_plain (x : list piece) (s : jsstring) :
  fill as_placeholder x = s -> forallb isSpace s = true -> x = plain s.
Proof.
  intros E Hs. apply fill_plain_inv; [exact E|].
  apply (Forall_forallb isSpace); [|exact Hs]. intros c Hc ->. discriminate.
Qed.

(** One block: kept, put in a paragraph tag, or dropped. *)
Lemma paragraph_edits (x rest rest' : list piece) (sep tag : jsstring) :
  tag <> [] -> Forall (fun c => one_of placeholder_name c = false) tag ->
  edits rest rest' ->
  exists x',
    wrap_para (fill as_placeholder x) ++ tag ++ fill as_placeholder rest'
    = fill as_placeholder x' /\
    edits (x ++ plain sep ++ rest) x'.
Proof.
  intros Hne Htag Hrest. rewrite wrap_para_literal. unfold literal_paragraph.
  destruct (starts_with_block_tag _ || is_prefix _ _).
  - exists (x ++ plain tag ++ rest'). split.
    + now rewrite !fill_app, fill_plain.
    + apply edits_keep_all. now apply edits_tag.
  - destruct (forallb isSpace (fill as_placeholder x)) eqn:S.
    + exists (plain tag ++ rest'). split.
      * now rewrite fill_app, fill_plain.
      * rewrite (space_plain x _ eq_refl S), app_assoc, <- plain_app.
        now apply edits_tag.
    + exists (plain (js "<p>") ++ x ++ plain (js "</p>" ++ tag) ++ rest'). split.
      * rewrite !fill_app, !fill_plain. now rewrite <- !app_assoc.
      * apply (edits_tag [] (js "<p>")); [discriminate|now apply tag_closed|].
        apply edits_keep_all. apply edits_tag; [discriminate| |exact Hrest].
        apply Forall_app. split; [now apply tag_closed|exact Htag].
Qed.

(** The last block. *)
Lemma last_paragraph_edits (x : list piece) :
  exists x', wrap_para (fill as_placeholder x) = fill as_placeholder x' /\ edits x x'.
Proof.
  rewrite wrap_para_literal. unfold literal_paragraph.
  destruct (starts_with_block_tag _ || is_prefix _ _).
  - exists x. split; [reflexivity|apply edits_refl].
  - destruct (forallb isSpace (fill as_placeholder x)) eqn:S.
    + exists []. split; [reflexivity|].
      rewrite (space_plain x _ eq_refl S). constructor.
    + exists (plain (js "<p>") ++ x ++ plain (js "</p>")). split.
      * now rewrite !fill_app, !fill_plain.
      * apply (edits_tag [] (js "<p>")); [discriminate|now apply tag_closed|].
        rewrite <- (app_nil_r x) at 1. apply edits_keep_all.
        apply (edits_tag [] (js "</p>") [] []); [discriminate|now apply tag_closed|constructor].
Qed.

Lemma blocks_edits (ps : list jsstring) (last : jsstring) (x : list piece) :
  fill as_placeholder x = join [10; 10] (ps ++ [last]) ->
  exists x',
    join [10] (map wrap_para (ps ++ [last])) = fill as_placeholder x' /\ edits x x'.
Proof.
  revert x. induction ps as [|p ps IH]; intros x E.
  - cbn [app join map] in *. rewrite <- E. apply last_paragraph_edits.
  - cbn [app] in E. rewrite join_cons in E by now destruct ps.
    cbn [app map]. rewrite join_cons by now destruct ps.
    change ([10; 10] ++ join [10; 10] (ps ++ [last]))
      with (10 :: 10 :: join [10; 10] (ps ++ [last])) in E.
    destruct (cut_at_newline x _ _ E) as (x1 & x2 & -> & H1 & H2).
    destruct (cut_at_newline x2 [] _ H2) as (y & x3 & -> & Hy & H3).
    destruct y as [|[c|i code] y]; [|discriminate Hy|].
    2:{ exfalso. change (fill as_placeholder (Fence i code :: y))
          with (95 :: (95 :: js "CODE_BLOCK_" ++ nat_to_js i ++ js "__")
                   ++ fill as_placeholder y) in Hy. discriminate Hy. }
    destruct (IH x3 H3) as (x3' & E3 & H3').
    destruct (paragraph_edits x1 x3 x3' [10; 10] [10]) as (x' & Ex & Hx);
      [discriminate|now repeat constructor|exact H3'|].
    exists x'. split; [|exact Hx].
    rewrite <- Ex, H1, E3. reflexivity.
Qed.

Lemma paragraphs_edits (x : list piece) :
  exists x', paragraphs (fill as_placeholder x) = fill as_placeholder x' /\ carried x x'.
Proof.
  destruct (text_blocks (List.length (fill as_placeholder x)) (fill as_placeholder x))
    as (ps & last & E & Hps & Hlast); [lia|].
  destruct (blocks_edits ps last x E) as (x' & Ex & Hx).
  exists x'. split; [|now apply edits_carried].
  unfold paragraphs. rewrite E at 1. now rewrite (split_join_blocks ps last Hps Hlast).
Qed.

(** The stages between the extraction of the fences and their
    restoration keep the placeholders. *)
Lemma process_edits (x : list piece) :
  exists x', process (fill as_placeholder x) = fill as_placeholder x' /\ carried x x'.
Proof.
  unfold process.
  destruct (headings_edits x) as (x1 & E1 & H1). rewrite E1.
  destruct (hr_edits x1) as (x2 & E2 & H2). rewrite E2.
  destruct (inline_edits x2) as (x3 & E3 & H3). rewrite E3.
  destruct (list_items_edits x3) as (x4 & E4 & H4). rewrite E4.
  destruct (paragraphs_edits x4) as (x5 & E5 & H5). rewrite E5.
  exists x5. split; [reflexivity|].
  eapply carried_trans; [exact H1|].
  eapply carried_trans; [apply edits_carried, H2|].
  eapply carried_trans; [exact H3|].
  eapply carried_trans; [exact H4|exact H5].
Qed.

(** ** The fences of a text *)

(** The scan of the fences, as pieces: the text with placeholders, the
    fences in order with their indices, and the source. *)
Lemma scan_pieces (fuel : nat) (s : jsstring) (i : nat) :
  exists x,
    fst (spec_scan_fences fuel s i) = fill as_placeholder x /\
    fences_of x
    = combine (seq i (List.length (snd (spec_scan_fences fuel s i))))
              (snd (spec_scan_fences fuel s i)) /\
    fill as_source x = s.
Proof.
  revert s i. induction fuel as [|fuel IH]; intros s i.
  { exists (plain s). cbn [spec_scan_fences fst snd]. rewrite !fill_plain.
    now rewrite fences_of_plain. }
  cbn [spec_scan_fences]. destruct (is_prefix (js "```") s) eqn:P.
  - destruct (find_first (js "```") [] (skipn 3 s)) as [[code rest]|] eqn:F.
    + destruct (IH rest (S i)) as (x & H1 & H2 & H3).
      exists (Fence i code :: x). cbn [fst snd]. repeat split.
      * change (fill as_placeholder (Fence i code :: x))
          with (placeholder i ++ fill as_placeholder x). now rewrite H1.
      * cbn [List.length seq combine]. change (fences_of (Fence i code :: x))
          with ((i, code) :: fences_of x). now rewrite H2.
      * change (fill as_source (Fence i code :: x))
          with ((js "```" ++ code ++ js "```") ++ fill as_source x).
        rewrite H3. apply find_first_spec in F. cbn [rev app] in F.
        apply is_prefix_spec in P. rewrite P.
        change (List.length (js "```")) with 3%nat. rewrite F.
        now rewrite <- !app_assoc.
    + exists (plain s). cbn [fst snd]. rewrite !fill_plain.
      now rewrite fences_of_plain.
  - destruct s as [|c s].
    + exists []. now repeat split.
    + destruct (IH s i) as (x & H1 & H2 & H3).
      exists (Plain c :: x). cbn [fst snd]. repeat split.
      * change (fill as_placeholder (Plain c :: x)) with (c :: fill as_placeholder x).
        now rewrite H1.
      * exact H2.
      * change (fill as_source (Plain c :: x)) with (c :: fill as_source x).
        now rewrite H3.
Qed.

(** [trim] gives a part of the text. *)
Lemma dropWhile_suffix p (s : jsstring) : exists a, s = a ++ dropWhile p s.
Proof.
  induction s as [|c s [a IH]]; [now exists []|]. cbn [dropWhile].
  destruct (p c); [|now exists []]. exists (c :: a). cbn [app]. now f_equal.
Qed.

Lemma trim_inside (s : jsstring) : exists a b, s = a ++ trim s ++ b.
Proof.
  destruct (dropWhile_suffix isSpace s) as [a Ha].
  destruct (dropWhile_suffix isSpace (rev (dropWhile isSpace s))) as [b Hb].
  exists a, (rev b). unfold trim.
  apply (f_equal (@rev _)) in Hb. rewrite rev_involutive, rev_app_distr in Hb.
  now rewrite <- Hb.
Qed.

Lemma trim_no_name (w s : jsstring) : occurs w s = false -> occurs w (trim s) = false.
Proof.
  destruct (trim_inside s) as (a & b & E). intros H. rewrite E in H.
  now apply occurs_app_r, occurs_app_l in H.
Qed.

(** Escaping makes no occurrence of the placeholder name. *)
Lemma escape_no_name (t a : jsstring) :
  occurs placeholder_name (a ++ t) = false ->
  occurs placeholder_name (a ++ flat_map escape_char t) = false.
Proof.
  revert a. induction t as [|c t IH]; intros a H; [exact H|].
  cbn [flat_map]. rewrite app_assoc. apply IH. rewrite <- app_assoc.
  assert (Hent : forall ent, ent <> [] ->
                   forallb (fun c => negb (one_of placeholder_name c)) ent = true ->
                   occurs placeholder_name (a ++ ent ++ t) = false).
  { intros ent Hne Hent. apply (occurs_replace placeholder_name a [c] ent t);
      [discriminate|exact Hne| |exact H].
    apply (Forall_forallb (fun c => negb (one_of placeholder_name c))); [|exact Hent].
    intros d Hd. now apply negb_true_iff in Hd. }
  destruct (escape_char_cases c)
    as [[_ ->]|[[_ ->]|[[_ ->]|[[_ ->]|[[_ ->]|(_ & _ & _ & _ & _ & ->)]]]]];
    try (apply Hent; [discriminate|reflexivity]).
  exact H.
Qed.

Lemma code_block_no_name (code : jsstring) :
  occurs placeholder_name code = false ->
  occurs placeholder_name (code_block code) = false.
Proof.
  intros H. unfold code_block. rewrite escapeHtml_flat_map.
  apply occurs_app_left; [reflexivity| |reflexivity].
  apply occurs_app_right; [|reflexivity|reflexivity].
  apply (escape_no_name (trim code) []). now apply trim_no_name.
Qed.

Lemma code_block_ends (code : jsstring) :
  exists t, code_block code = 60 :: t /\ exists t', code_block code = t' ++ [62].
Proof.
  unfold code_block. eexists. split; [reflexivity|].
  exists (js "<pre><code>" ++ escapeHtml (trim code) ++ js "</code></pre").
  now rewrite <- !app_assoc.
Qed.

(** Without the placeholder name in the source, there is none in the text
    with the blocks. *)
Lemma blocks_no_name (x : list piece) (a : jsstring) :
  occurs placeholder_name (a ++ fill as_source x) = false ->
  occurs placeholder_name (a ++ fill as_block x) = false.
Proof.
  revert a. induction x as [|[c|i code] x IH]; intros a H.
  - exact H.
  - change (fill as_block (Plain c :: x)) with ([c] ++ fill as_block x).
    change (fill as_source (Plain c :: x)) with ([c] ++ fill as_source x) in H.
    rewrite app_assoc in *. now apply IH.
  - change (fill as_block (Fence i code :: x)) with (code_block code ++ fill as_block x).
    change (fill as_source (Fence i code :: x))
      with ((js "```" ++ code ++ js "```") ++ fill as_source x) in H.
    rewrite app_assoc. apply IH.
    assert (Hcode : occurs placeholder_name code = false).
    { apply occurs_app_r, occurs_app_l, occurs_app_r, occurs_app_l in H. exact H. }
    assert (Ha := occurs_app_l _ _ _ H).
    assert (Hb := occurs_app_r _ _ _ (occurs_app_r _ _ _ H)).
    destruct (code_block_ends code) as (t & Et & t' & Et').
    apply occurs_app_left; [|exact Hb|].
    + apply occurs_app_right; [exact Ha|now apply code_block_no_name|].
      now rewrite Et.
    + rewrite rev_app_distr, Et', rev_app_distr. reflexivity.
Qed.

(** ** Restoring the blocks *)

Lemma inert_tail (c : code_unit) (t : jsstring) : inert (c :: t) = true -> inert t = true.
Proof. cbn [inert]. intros H. now apply andb_prop in H as [_ H]. Qed.

Lemma digit_val_no_capture (d : code_unit) :
  ((1 <=? digit_val d) && (digit_val d <=? 0))%nat = false.
Proof. destruct (digit_val d); reflexivity. Qed.

Lemma GetSubstitution_inert matched pre post cs (n : nat) (t : jsstring) :
  (List.length t <= n)%nat -> inert t = true ->
  GetSubstitution 0 matched pre post cs t = t.
Proof.
  revert t. induction n as [|n IH]; intros t Hn Ht.
  { destruct t; [reflexivity|cbn in Hn; lia]. }
  destruct t as [|c t]; [reflexivity|].
  assert (Ht' := inert_tail _ _ Ht).
  cbn [GetSubstitution]. destruct (negb (c =? 36)) eqn:Ec.
  { f_equal. apply IH; [cbn [List.length] in *; lia|exact Ht']. }
  apply negb_false_iff in Ec. cbn [inert] in Ht. rewrite Ec in Ht. cbn [andb] in Ht.
  destruct t as [|d t]; [reflexivity|].
  apply andb_prop in Ht as [Hd _]. apply negb_true_iff in Hd.
  unfold after_dollar in Hd. rewrite !orb_false_iff in Hd.
  destruct Hd as (((H1 & H2) & H3) & H4). rewrite H1, H2, H3, H4.
  assert (Ht'' := inert_tail _ _ Ht').
  assert (E1 : GetSubstitution 0 matched pre post cs t = t)
    by (apply IH; [cbn [List.length] in *; lia|exact Ht'']).
  assert (E0 : GetSubstitution 0 matched pre post cs (d :: t) = d :: t)
    by (apply IH; [cbn [List.length] in *; lia|exact Ht']).
  destruct (isDigit d); [|now rewrite E0].
  rewrite digit_val_no_capture.
  destruct t as [|e t]; [now rewrite E1|].
  destruct (isDigit e); [|now rewrite E1].
  assert (E2 : GetSubstitution 0 matched pre post cs t = t).
  { apply IH; [cbn [List.length] in *; lia|]. now apply inert_tail in Ht''. }
  destruct (0 <? 10 * digit_val d + digit_val e)%nat eqn:L; [now rewrite E1|].
  destruct (1 <=? 10 * digit_val d + digit_val e)%nat eqn:L';
    [|now rewrite E2].
  exfalso. apply Nat.ltb_ge in L. apply Nat.leb_le in L'. lia.
Qed.

Lemma inert_no_dollar (a b : jsstring) :
  Forall (fun c => c <> 36) a -> inert b = true -> inert (a ++ b) = true.
Proof.
  induction 1 as [|c a Hc _ IH]; intros Hb; [exact Hb|].
  cbn [app inert]. apply N.eqb_neq in Hc. rewrite Hc. cbn [andb negb]. now apply IH.
Qed.

Lemma no_dollar_pattern_tail (c : code_unit) (s : jsstring) :
  no_dollar_pattern (c :: s) = true -> no_dollar_pattern s = true.
Proof. cbn [no_dollar_pattern]. intros H. now apply andb_prop in H as [_ H]. Qed.

Lemma no_dollar_pattern_app (a b : jsstring) :
  no_dollar_pattern (a ++ b) = true ->
  no_dollar_pattern a = true /\ no_dollar_pattern b = true.
Proof.
  induction a as [|c a IH]; intros H; [now split|].
  cbn [app] in H. destruct (IH (no_dollar_pattern_tail _ _ H)) as [Ha Hb].
  split; [|exact Hb]. cbn [no_dollar_pattern] in *. rewrite Ha, andb_true_r.
  apply andb_prop in H as [H _]. destruct a as [|d a]; [now rewrite andb_false_r|exact H].
Qed.

(** The escaped text of a content without dollar pattern is inert before
    a tail that is. *)
Lemma inert_escaped (t tail : jsstring) :
  no_dollar_pattern t = true -> inert tail = true ->
  match tail with d :: _ => after_dollar d = false | [] => True end ->
  inert (flat_map escape_char t ++ tail) = true.
Proof.
  intros Ht Htail Hhd. induction t as [|c t IH]; [exact Htail|].
  assert (IH' := IH (no_dollar_pattern_tail _ _ Ht)).
  cbn [flat_map]. rewrite <- app_assoc.
  destruct (escape_char_cases c)
    as [[_ E]|[[_ E]|[[_ E]|[[_ E]|[[_ E]|(C1 & C2 & C3 & C4 & C5 & E)]]]]];
    rewrite E;
    try (apply inert_no_dollar; [now apply no_char_closed|exact IH']).
  cbn [app inert]. rewrite IH', andb_true_r.
  destruct (c =? 36) eqn:Ec; [|reflexivity]. cbn [andb].
  cbn [no_dollar_pattern] in Ht. rewrite Ec in Ht. cbn [andb] in Ht.
  apply andb_prop in Ht as [Ht _].
  destruct t as [|d t].
  - cbn [flat_map app]. destruct tail as [|e tail]; [reflexivity|]. now rewrite Hhd.
  - apply negb_true_iff in Ht. unfold makes_pattern in Ht.
    rewrite !orb_false_iff in Ht. destruct Ht as ((D1 & D2) & D3).
    cbn [flat_map]. rewrite (escape_char_other d D3). cbn [app].
    unfold after_dollar. rewrite D1, D2. cbn [orb].
    unfold one_of in D3. cbn in D3. rewrite !orb_false_iff in D3.
    destruct D3 as (D3 & _ & _ & _ & D4 & _). now rewrite D3, D4.
Qed.

Lemma code_block_inert (code : jsstring) :
  no_dollar_pattern code = true -> inert (code_block code) = true.
Proof.
  intros H. unfold code_block. rewrite escapeHtml_flat_map.
  apply inert_no_dollar; [now apply no_char_closed|].
  apply inert_escaped; [|reflexivity|reflexivity].
  destruct (trim_inside code) as (a & b & E). rewrite E in H.
  apply no_dollar_pattern_app in H as [_ H].
  now apply no_dollar_pattern_app in H as [H _].
Qed.

(** The first occurrence of a pattern that does not begin earlier. *)
Lemma find_first_at (pat pre post bef : jsstring) :
  (forall u v, pre = u ++ v -> v <> [] -> is_prefix pat (v ++ pat ++ post) = false) ->
  find_first pat bef (pre ++ pat ++ post) = Some (rev bef ++ pre, post).
Proof.
  revert bef. induction pre as [|c pre IH]; intros bef H.
  - cbn [app]. rewrite app_nil_r.
    assert (E : find_first pat bef (pat ++ post)
                = Some (rev bef, skipn (List.length pat) (pat ++ post))).
    { destruct (pat ++ post) eqn:Ep; cbn [find_first];
        rewrite <- Ep, is_prefix_app; reflexivity. }
    now rewrite E, skipn_app_exact.
  - cbn [app]. rewrite find_first_next by (apply (H [] (c :: pre)); easy).
    rewrite IH.
    + cbn [rev]. now rewrite <- app_assoc.
    + intros u v -> Hv. apply (H (c :: u) v); easy.
Qed.

Lemma is_prefix_shorter (a b s : jsstring) :
  is_prefix (a ++ b) s = true -> is_prefix a s = true.
Proof.
  revert s. induction a as [|c a IH]; intros s H; [reflexivity|].
  destruct s as [|d s]; [discriminate|]. cbn [app is_prefix] in *.
  apply andb_prop in H as [H1 H2]. rewrite H1. now apply IH.
Qed.

Lemma nat_to_js_nonempty (n : nat) : nat_to_js n <> [].
Proof.
  unfold nat_to_js.
  assert (H : Nat.to_uint n <> Decimal.Nil).
  { rewrite <- (Unsigned.of_to n) at 1. rewrite Unsigned.to_of.
    unfold Decimal.unorm. destruct (Decimal.nzhead (Nat.to_uint n)); discriminate. }
  destruct (Nat.to_uint n); [easy| | | | | | | | | |]; discriminate.
Qed.

(** A placeholder does not begin in a text without the placeholder name
    that is followed by the placeholder. *)
Lemma name_border (v w2 tail post : jsstring) :
  v <> [] ->
  placeholder_name ++ tail = v ++ w2 ->
  is_prefix w2 (placeholder_name ++ tail ++ post) = true ->
  match tail with d :: _ => d <> 95 | [] => False end ->
  is_prefix placeholder_name v = true.
Proof.
  intros Hv E H Htail.
  change placeholder_name with [95; 95; 67; 79; 68; 69; 95; 66; 76; 79; 67; 75; 95] in *.
  destruct v as [|v0 v]; [easy|]. cbn [app] in E. injection E as <- E.
  do 11 (destruct v as [|? v];
         [cbn [app] in E; subst w2; vm_compute in H; discriminate H
         |cbn [app] in E; injection E as <- E]).
  destruct v as [|? v].
  - cbn [app] in E. subst w2. exfalso.
    destruct tail as [|d tail]; [easy|].
    cbn [app is_prefix] in H. apply andb_prop in H as [_ H].
    apply andb_prop in H as [H _]. apply N.eqb_eq in H. now subst d.
  - cbn [app] in E. injection E as <- E. vm_compute. reflexivity.
Qed.

Lemma placeholder_not_before (k : nat) (v post : jsstring) :
  v <> [] -> occurs placeholder_name v = false ->
  is_prefix (placeholder k) (v ++ placeholder k ++ post) = false.
Proof.
  intros Hv Hocc.
  destruct (is_prefix (placeholder k) (v ++ placeholder k ++ post)) eqn:P; [|reflexivity].
  exfalso.
  assert (Hnot : is_prefix placeholder_name v = false).
  { rewrite occurs_false in Hocc. now apply (Hocc [] v). }
  destruct (is_prefix (placeholder k) v) eqn:Pv.
  { unfold placeholder in Pv. apply is_prefix_shorter in Pv.
    unfold placeholder_name in Hnot. congruence. }
  destruct (is_prefix_across _ _ _ P Pv) as (w2 & E & Hne & Hw2).
  assert (Hb : is_prefix placeholder_name v = true).
  { apply (name_border v w2 (nat_to_js k ++ js "__") post Hv).
    - exact E.
    - unfold placeholder in Hw2. rewrite <- !app_assoc in Hw2.
      rewrite <- !app_assoc. exact Hw2.
    - pose proof (nat_to_js_digits k) as Hd. pose proof (nat_to_js_nonempty k) as Hn.
      destruct (nat_to_js k) as [|d ds]; [easy|].
      cbn [app]. inversion Hd; subst. intros ->. discriminate. }
  congruence.
Qed.

(** The text before the first fence is plain. *)
Lemma first_fence (x : list piece) (fc : nat * jsstring) (l : list (nat * jsstring)) :
  fences_of x = fc :: l ->
  exists s x2, x = plain s ++ Fence (fst fc) (snd fc) :: x2 /\ fences_of x2 = l.
Proof.
  induction x as [|[c|i code] x IH]; intros H.
  - discriminate.
  - destruct (IH H) as (s & x2 & -> & H2). now exists (c :: s), x2.
  - change (fences_of (Fence i code :: x)) with ((i, code) :: fences_of x) in H.
    injection H as <- H. now exists [], x.
Qed.

(** Restoration puts every block in the place of its placeholder. *)
Lemma restore_fences (cs : list jsstring) (k : nat) (x : list piece) (a : jsstring) :
  fences_of x = combine (seq k (List.length cs)) cs ->
  occurs placeholder_name (a ++ fill as_block x) = false ->
  Forall (fun code => no_dollar_pattern code = true) cs ->
  restore (map code_block cs) k (a ++ fill as_placeholder x) = a ++ fill as_block x.
Proof.
  revert k x a. induction cs as [|c cs IH]; intros k x a Hf Hocc Hcs.
  - cbn [List.length seq combine] in Hf. apply no_fences_plain in Hf as [s ->].
    cbn [map restore]. now rewrite !fill_plain.
  - cbn [List.length seq combine] in Hf.
    apply first_fence in Hf as (s & x2 & -> & Hf). cbn [fst snd] in *.
    inversion Hcs as [|? ? Hc Hcs']; subst.
    cbn [map restore]. rewrite !fill_app, !fill_plain in *.
    change (fill as_placeholder (Fence k c :: x2))
      with (placeholder k ++ fill as_placeholder x2).
    change (fill as_block (Fence k c :: x2)) with (code_block c ++ fill as_block x2) in *.
    assert (E : replace_str (placeholder k) (code_block c)
                  (a ++ s ++ placeholder k ++ fill as_placeholder x2)
                = (a ++ s ++ code_block c) ++ fill as_placeholder x2).
    { unfold replace_str. rewrite (app_assoc a s).
      rewrite (find_first_at (placeholder k) (a ++ s) _ []).
      - cbn [rev app].
        rewrite (GetSubstitution_inert _ _ _ _ (List.length (code_block c)));
          [|lia|now apply code_block_inert].
        now rewrite <- !app_assoc.
      - intros u v Euv Hv. apply placeholder_not_before; [exact Hv|].
        rewrite (app_assoc a s), Euv in Hocc.
        now apply occurs_app_l, occurs_app_r in Hocc. }
    rewrite E, IH; [now rewrite <- !app_assoc|exact Hf| |exact Hcs'].
    now rewrite <- !app_assoc.
Qed.

(** ** Blocks in the list stage *)

(** One iteration of the list pattern takes a text that ends a list
    item. *)
Lemma item_step (k : cont) (s e : mstate) :
  rmatch item_re k s = Some e ->
  exists s' t, k s' = Some e /\ after s = t ++ after s' /\ item_end t [].
Proof.
  destruct s as [bef aft cs]. unfold item_re.
  rewrite rmatch_Group, rmatch_Seq. intros M.
  apply rmatch_Lit_state in M as (a1 & -> & M).
  rewrite rmatch_Seq, rmatch_star_greedy in M.
  apply greedy_chars_inv in M as (xs & a2 & -> & _ & M).
  rewrite rmatch_Seq in M. apply rmatch_Lit_state in M as (a3 & -> & M).
  rewrite rmatch_Opt in M. cbn [groups] in M. rewrite clear_caps_nil in M.
  match type of M with
  | match ?inner with _ => _ end = _ => destruct inner as [e'|] eqn:O
  end.
  - injection M as ->. apply rmatch_Chr_inv in O as (c & a4 & -> & Hc & O).
    apply N.eqb_eq in Hc. subst c.
    destruct (progressed _ _) in O; [|discriminate].
    eexists _, (js "<li>" ++ xs ++ js "</li>" ++ [10]). split; [exact O|].
    cbn [after set_cap]. split; [now rewrite <- !app_assoc|].
    right. rewrite !rev_app_distr. reflexivity.
  - eexists _, (js "<li>" ++ xs ++ js "</li>"). split; [exact M|].
    cbn [after set_cap]. split; [now rewrite <- !app_assoc|].
    left. rewrite !rev_app_distr. reflexivity.
Qed.

(** The repeat of the list pattern: what it takes ends a list item if
    what was taken before does. *)
Lemma item_loop (gs : list nat) (aft : jsstring) (n : nat) (s e : mstate) :
  (exists t, aft = t ++ after s /\ item_end t []) ->
  star_loop (rmatch item_re) gs true Some n s = Some e ->
  exists t, aft = t ++ after e /\ item_end t [].
Proof.
  revert s. induction n as [|n IH]; intros s Hs M; cbn [star_loop] in M.
  - injection M as <-. exact Hs.
  - match type of M with
    | match ?again with _ => _ end = _ => destruct again as [e'|] eqn:A
    end.
    + injection M as ->.
      apply item_step in A as (s' & t' & A & Ht' & Hend).
      destruct (progressed _ _) in A; [|discriminate].
      apply (IH s'); [|exact A].
      destruct Hs as (t & -> & _). exists (t ++ t'). split.
      * destruct s as [b0 a0 c0]; cbn [clear_caps after] in Ht'. cbn [after].
        now rewrite Ht', app_assoc.
      * destruct Hend as [H|H]; [left|right]; rewrite rev_app_distr;
          now apply is_prefix_extend.
    + injection M as <-. exact Hs.
Qed.

Lemma list_run_inv (bef aft : jsstring) (res : mresult) :
  match_here list_run_re bef aft = Some res ->
  aft = m_text res ++ m_rest res /\ item_end (m_text res) [].
Proof.
  unfold match_here.
  destruct (rmatch list_run_re Some (MState bef aft [])) as [e|] eqn:M; [|discriminate].
  intros H. injection H as <-. cbn [m_text m_rest].
  change list_run_re with (Seq item_re (Star true item_re)) in M.
  rewrite rmatch_Seq in M.
  apply item_step in M as (s' & t & M & Ht & Hend). cbn [after] in Ht.
  cbn [rmatch] in M.
  destruct (item_loop _ aft _ s' e (ex_intro _ t (conj Ht Hend)) M) as (t' & E & Hend').
  assert (F : firstn (List.length aft - List.length (after e)) aft = t')
    by (rewrite E; apply firstn_app_minus).
  rewrite F. now split.
Qed.

Lemma escapeHtml_no_gt (text : jsstring) : Forall (fun c => c <> 62) (escapeHtml text).
Proof.
  rewrite escapeHtml_flat_map. induction text as [|c text IH]; [constructor|].
  cbn [flat_map]. apply Forall_app. split; [|exact IH].
  destruct (escape_char_cases c)
    as [[_ ->]|[[_ ->]|[[_ ->]|[[_ ->]|[[_ ->]|(_ & _ & C & _ & _ & ->)]]]]];
    try (now apply no_char_closed).
  now repeat constructor.
Qed.

(** No list item ends or begins in a block. *)
Lemma code_block_no_close (code : jsstring) :
  clean (opens_with_pair 105 62) None (code_block code) = true.
Proof.
  unfold code_block. rewrite !clean_app.
  apply andb_true_intro. split; [reflexivity|].
  apply andb_true_intro. split.
  - apply clean_by_current with (ok := fun c => negb (c =? 62)).
    + intros p c Hc. apply negb_true_iff in Hc. destruct p; [|reflexivity].
      cbn [opens_with_pair]. rewrite Hc. apply andb_false_r.
    + eapply Forall_impl; [|apply escapeHtml_no_gt].
      intros c Hc. apply negb_true_iff. now apply N.eqb_neq.
  - apply clean_change_prev with (prev := Some 62); [|reflexivity].
    cbn [js list_ascii_of_string map]. unfold opens_with_pair.
    destruct (last_of _ _); [apply andb_false_r|reflexivity].
Qed.

Lemma pair_not_inside (a b : code_unit) (t1 t2 : jsstring) :
  clean (opens_with_pair a b) None (t1 ++ a :: b :: t2) = false.
Proof.
  rewrite clean_app. cbn [clean].
  replace (last_of (last_of None t1) [a]) with (Some a) by reflexivity.
  cbn [opens_with_pair]. rewrite !N.eqb_refl. cbn [andb negb].
  now rewrite andb_false_r, andb_false_r.
Qed.

Lemma code_block_solid i (code t1 t2 a b : jsstring) :
  as_block i code = t1 ++ t2 -> t1 <> [] -> t2 <> [] -> ~ item_end (a ++ t1) (t2 ++ b).
Proof.
  unfold as_block. intros E H1 H2 Hend.
  pose proof (code_block_no_close code) as Hclean. rewrite E in Hclean.
  assert (Hfirst : exists t, t1 ++ t2 = 60 :: 112 :: t)
    by (rewrite <- E; now eexists).
  destruct Hfirst as [t Hfirst].
  assert (Hrev : exists c r, rev t1 = c :: r).
  { destruct (rev t1) as [|c r] eqn:R; [|now eexists _, _].
    apply (f_equal (@rev _)) in R. rewrite rev_involutive in R. now subst. }
  destruct Hrev as (c & r & R).
  assert (Et1 : t1 = rev r ++ [c]).
  { apply (f_equal (@rev _)) in R. now rewrite rev_involutive in R. }
  unfold item_end in Hend. rewrite rev_app_distr, R in Hend.
  change (rev (js "</li>")) with [62; 105; 108; 47; 60] in Hend.
  destruct Hend as [Hend|Hend]; cbn [app is_prefix] in Hend;
    apply andb_prop in Hend as [Hc Hend]; apply N.eqb_eq in Hc; subst c.
  - (* [t1] ends with a greater-than sign *)
    destruct r as [|d r].
    + subst t1. discriminate Hfirst.
    + cbn [app is_prefix] in Hend. apply andb_prop in Hend as [Hd _].
      apply N.eqb_eq in Hd. subst d. subst t1. cbn [rev] in Hclean.
      rewrite <- !app_assoc in Hclean. cbn [app] in Hclean.
      now rewrite pair_not_inside in Hclean.
  - (* [t1] ends with a line feed *)
    destruct r as [|d r]; [subst t1; discriminate Hfirst|].
    cbn [app is_prefix] in Hend. apply andb_prop in Hend as [Hd Hend].
    apply N.eqb_eq in Hd. subst d.
    destruct r as [|d r]; [subst t1; discriminate Hfirst|].
    cbn [app is_prefix] in Hend. apply andb_prop in Hend as [Hd _].
    apply N.eqb_eq in Hd. subst d. subst t1. cbn [rev] in Hclean.
    rewrite <- !app_assoc in Hclean. cbn [app] in Hclean.
    now rewrite pair_not_inside in Hclean.
Qed.

(** No match of the list pattern starts in a block. *)
Lemma code_block_no_item (code aft u v : jsstring) :
  code_block code = u ++ v -> v <> [] -> is_prefix (js "<li>") (v ++ aft) = false.
Proof.
  intros E Hv.
  destruct (is_prefix (js "<li>") (v ++ aft)) eqn:P; [|reflexivity]. exfalso.
  destruct v as [|c v]; [easy|]. cbn [app is_prefix js] in P.
  change (js "<li>") with [60; 108; 105; 62] in P. cbn [is_prefix] in P.
  apply andb_prop in P as [Hc P]. apply N.eqb_eq in Hc. subst c.
  pose proof (code_block_no_li code) as Hclean. rewrite E in Hclean.
  destruct v as [|d v].
  - destruct (code_block_ends code) as (t & _ & t' & Et'). rewrite Et' in E.
    apply (f_equal (@rev _)) in E. rewrite !rev_app_distr in E. discriminate E.
  - cbn [app is_prefix] in P. apply andb_prop in P as [Hd _].
    apply N.eqb_eq in Hd. subst d.
    change tag_li with (opens_with_pair 60 108) in Hclean.
    now rewrite pair_not_inside in Hclean.
Qed.

Lemma skip_no_item f (t aft bef : jsstring) :
  (forall u v, t = u ++ v -> v <> [] -> is_prefix (js "<li>") (v ++ aft) = false) ->
  replace_loop list_run_re f bef (t ++ aft) 0
  = t ++ replace_loop list_run_re f (rev t ++ bef) aft 0.
Proof.
  revert bef. induction t as [|c t IH]; intros bef H; [reflexivity|].
  cbn [app replace_loop].
  rewrite match_here_list_run by (apply (H [] (c :: t)); easy).
  rewrite IH.
  - cbn [rev]. now rewrite <- app_assoc.
  - intros u v -> Hv. apply (H (c :: u) v); easy.
Qed.

(** The list stage keeps the blocks. *)
Lemma wrap_lists_edits (x : list piece) :
  exists x', wrap_lists (fill as_block x) = fill as_block x' /\ edits x x'.
Proof.
  unfold wrap_lists, replace_fn.
  apply (stage_edits as_block list_run_re) with (n := List.length x); [| | |lia].
  - intros bef. now apply match_here_list_run.
  - intros i code bef aft. apply skip_no_item.
    intros u v. apply code_block_no_item.
  - intros bef x0 res M. apply list_run_inv in M as [E Hend].
    destruct (cut_pieces as_block item_end code_block_solid x0 [] _ _ E Hend)
      as (g & rest & -> & Hg & Hrest).
    exists [], g, [], rest, (js "<ul>"), (js "</ul>").
    refine (conj _ (conj _ (conj _ (conj _ (conj _ (conj _ (conj _ _))))))).
    + reflexivity.
    + now rewrite Hg, app_nil_r.
    + intros H0. rewrite H0 in Hend. destruct Hend; discriminate.
    + now rewrite Hg.
    + discriminate.
    + now apply tag_closed.
    + now apply tag_closed.
    + discriminate.
Qed.

(** ** The blocks in the output *)

Lemma fenced_block_code (code : jsstring) : code_block code = fenced_block code.
Proof. unfold code_block, fenced_block. now rewrite escapeHtml_flat_map. Qed.

Lemma fill_interleave (x : list piece) :
  exists segs,
    List.length segs = S (List.length (fences_of x)) /\
    fill as_block x = interleave segs (map (fun ic => code_block (snd ic)) (fences_of x)).
Proof.
  induction x as [|[c|i code] x (segs & Hlen & IH)].
  - now exists [[]].
  - destruct segs as [|s segs]; [discriminate|].
    exists ((c :: s) :: segs). split; [exact Hlen|].
    change (fill as_block (Plain c :: x)) with (c :: fill as_block x).
    change (fences_of (Plain c :: x)) with (fences_of x).
    rewrite IH. cbn [interleave]. now destruct (map _ (fences_of x)).
  - exists ([] :: segs). split; [cbn; now rewrite Hlen|].
    change (fill as_block (Fence i code :: x)) with (code_block code ++ fill as_block x).
    now rewrite IH.
Qed.

Lemma map_snd_indexed {A} (k : nat) (l : list A) :
  map snd (combine (seq k (List.length l)) l) = l.
Proof.
  revert k. induction l as [|a l IH]; intros k; [reflexivity|].
  cbn. now rewrite IH.
Qed.

Lemma rendered_with_blocks (markdown : jsstring) :
  occurs placeholder_name markdown = false ->
  Forall (fun code => no_dollar_pattern code = true) (snd (spec_fences markdown)) ->
  exists x,
    markdownToHtml markdown = Ok (fill as_block x) /\
    map snd (fences_of x) = snd (spec_fences markdown).
Proof.
  intros Hname Hdollar. rewrite markdownToHtml_fences.
  unfold spec_fences in *.
  destruct (scan_pieces (S (List.length markdown)) markdown 0) as (x0 & E0 & F0 & S0).
  set (cs := snd (spec_scan_fences (S (List.length markdown)) markdown 0)) in *.
  rewrite E0.
  destruct (process_edits x0) as (x1 & E1 & F1 & N1). rewrite E1.
  assert (Hocc : occurs placeholder_name ([] ++ fill as_block x1) = false).
  { apply N1. apply blocks_no_name. cbn [app]. now rewrite S0. }
  rewrite (restore_fences cs 0 x1 [] (eq_trans F1 F0) Hocc Hdollar : 
             restore (map code_block cs) 0 (fill as_placeholder x1) = fill as_block x1).
  destruct (wrap_lists_edits x1) as (x2 & E2 & H2). rewrite E2.
  exists x2. split; [reflexivity|].
  rewrite (edits_fences _ _ H2), F1, F0. apply map_snd_indexed.
Qed.

Lemma map_map_snd (l : list (nat * jsstring)) :
  map (fun ic => code_block (snd ic)) l = map fenced_block (map snd l).
Proof.
  rewrite map_map. apply map_ext. intros ic. apply fenced_block_code.
Qed.

(** ** Documents of texts and fences *)

Lemma scan_text (t rest : jsstring) (fuel i : nat) :
  Forall (fun c => c <> 96) t ->
  snd (spec_scan_fences (List.length t + fuel) (t ++ rest) i)
  = snd (spec_scan_fences fuel rest i).
Proof.
  induction 1 as [|c t Hc _ IH]; [reflexivity|].
  cbn [List.length Nat.add app spec_scan_fences].
  change (js "```") with [96; 96; 96]. cbn [is_prefix].
  apply N.eqb_neq in Hc. rewrite N.eqb_sym in Hc. rewrite Hc. cbn [andb snd].
  exact IH.
Qed.

Lemma scan_fence (code rest : jsstring) (fuel i : nat) :
  Forall (fun c => c <> 96) code ->
  snd (spec_scan_fences (S fuel) (js "```" ++ code ++ js "```" ++ rest) i)
  = code :: snd (spec_scan_fences fuel rest (S i)).
Proof.
  intros Hcode. cbn [spec_scan_fences].
  rewrite is_prefix_app.
  change (skipn 3 (js "```" ++ code ++ js "```" ++ rest)) with (code ++ js "```" ++ rest).
  rewrite (find_first_skip (js "```") [] code _ 96 (js "``") eq_refl Hcode).
  assert (E : find_first (js "```") (rev code ++ []) (js "```" ++ rest)
              = Some (rev (rev code ++ []), rest)) by reflexivity.
  rewrite E. cbn [snd]. now rewrite app_nil_r, rev_involutive.
Qed.

Lemma scan_document (cs ts : list jsstring) (fuel i : nat) :
  List.length ts = S (List.length cs) ->
  Forall (Forall (fun c => c <> 96)) ts ->
  Forall (Forall (fun c => c <> 96)) cs ->
  (List.length (interleave ts (map (as_source 0) cs)) < fuel)%nat ->
  snd (spec_scan_fences fuel (interleave ts (map (as_source 0) cs)) i) = cs.
Proof.
  revert ts fuel i. induction cs as [|c cs IH]; intros ts fuel i Hlen Hts Hcs Hfuel.
  - destruct ts as [|t [|? ?]]; try discriminate. cbn [map interleave] in *.
    inversion Hts as [|? ? Ht _]; subst.
    rewrite <- (app_nil_r t). replace fuel with (List.length t + (fuel - List.length t))%nat by lia.
    rewrite scan_text by exact Ht. now destruct (fuel - List.length t)%nat.
  - destruct ts as [|t ts]; [discriminate|]. cbn [map interleave] in *.
    inversion Hts as [|? ? Ht Hts']; subst. inversion Hcs as [|? ? Hc Hcs']; subst.
    rewrite !length_app in Hfuel. unfold as_source in Hfuel at 1.
    rewrite !length_app in Hfuel. change (List.length (js "```")) with 3%nat in Hfuel.
    replace fuel with (List.length t + S (fuel - List.length t - 1))%nat by lia.
    rewrite scan_text by exact Ht. unfold as_source at 1. rewrite <- !app_assoc.
    rewrite scan_fence by exact Hc. f_equal.
    apply IH; [now injection Hlen|exact Hts'|exact Hcs'|lia].
Qed.

Lemma fences_of_document (ts cs : list jsstring) :
  List.length ts = S (List.length cs) ->
  Forall (Forall (fun c => c <> 96)) ts ->
  Forall (Forall (fun c => c <> 96)) cs ->
  snd (spec_fences (interleave ts (map (as_source 0) cs))) = cs.
Proof.
  intros Hlen Hts Hcs. unfold spec_fences. apply scan_document; try easy. lia.
Qed.

(** ** Every fence in the output *)

(** C1 (amended): the content of every fence is reproduced in the output,
    trimmed and escaped, inside [<pre><code>] and [</code></pre>]: the
    output is a sequence of segments with the block of each fence, in the
    order of the source, between them, for every text in which the
    placeholder name does not occur and whose fences have no dollar sign
    directly followed by a dollar sign, a backtick or a reserved character.
    No heading, emphasis, inline-code, list or paragraph stage alters a
    block, whatever the text around the fences and inside them is.  The
    fences of a text are those of the scan; for a document made of texts
    and fences without backtick, they are its fences.  A fence that is the
    whole input renders as exactly its block. *)
Theorem fence_rendered_verbatim :
  (forall markdown,
      occurs placeholder_name markdown = false ->
      Forall (fun code => no_dollar_pattern code = true) (snd (spec_fences markdown)) ->
      exists segs,
        List.length segs = S (List.length (snd (spec_fences markdown))) /\
        markdownToHtml markdown
        = Ok (interleave segs (map fenced_block (snd (spec_fences markdown))))) /\
  (forall texts codes,
      List.length texts = S (List.length codes) ->
      Forall (Forall (fun c => c <> 96)) texts ->
      Forall (Forall (fun c => c <> 96)) codes ->
      occurs placeholder_name
             (interleave texts (map (fun code => js "```" ++ code ++ js "```") codes))
      = false ->
      Forall (fun code => no_dollar_pattern code = true) codes ->
      exists segs,
        List.length segs = List.length texts /\
        markdownToHtml
          (interleave texts (map (fun code => js "```" ++ code ++ js "```") codes))
        = Ok (interleave segs (map fenced_block codes))) /\
  (forall code,
      Forall (fun c => c <> 96) code ->
      Forall (fun c => c <> 36) code ->
      markdownToHtml (js "```" ++ code ++ js "```") = Ok (fenced_block code)).
Proof.
  assert (Hall : forall markdown,
      occurs placeholder_name markdown = false ->
      Forall (fun code => no_dollar_pattern code = true) (snd (spec_fences markdown)) ->
      exists segs,
        List.length segs = S (List.length (snd (spec_fences markdown))) /\
        markdownToHtml markdown
        = Ok (interleave segs (map fenced_block (snd (spec_fences markdown))))).
  { intros markdown Hname Hdollar.
    destruct (rendered_with_blocks markdown Hname Hdollar) as (x & Ex & Fx).
    destruct (fill_interleave x) as (segs & Hlen & Hfill).
    exists segs. split.
    - now rewrite Hlen, <- Fx, length_map.
    - now rewrite Ex, Hfill, map_map_snd, Fx. }
  split; [exact Hall|]. split.
  - intros texts codes Hlen Htexts Hcodes Hname Hdollar.
    pose proof (fences_of_document texts codes Hlen Htexts Hcodes) as E.
    change (map (as_source 0) codes)
      with (map (fun code => js "```" ++ code ++ js "```") codes) in E.
    destruct (Hall _ Hname) as (segs & Hsegs & H); [now rewrite E|].
    rewrite E in Hsegs, H. exists segs. split; [congruence|exact H].
  - intros code H1 H2. rewrite <- fenced_block_code. unfold code_block.
    rewrite escapeHtml_flat_map. now apply single_fence_rendered.
Qed.

(** Three fences between a heading, a list item and emphasis, with
    markdown inside them. *)
Lemma fence_rendered_verbatim_witness :
  (exists segs,
      List.length segs = 4%nat /\
      markdownToHtml
        (js ("# T ```a < b``` x" ++ nl ++ nl ++ "* i ``` **not bold** ```" ++ nl ++ nl
             ++ "**bold** ```" ++ nl ++ "# no heading" ++ nl ++ "* c & d" ++ nl ++ "``` end"))
      = Ok (interleave segs
              [js "<pre><code>a &lt; b</code></pre>";
               js "<pre><code>**not bold**</code></pre>";
               js ("<pre><code># no heading" ++ nl ++ "* c &amp; d</code></pre>")])) /\
  markdownToHtml
    (js ("# T ```a < b``` x" ++ nl ++ nl ++ "* i ``` **not bold** ```" ++ nl ++ nl
         ++ "**bold** ```" ++ nl ++ "# no heading" ++ nl ++ "* c & d" ++ nl ++ "``` end"))
  = Ok (js ("<h1>T <pre><code>a &lt; b</code></pre> x</h1>" ++ nl
            ++ "<ul><li>i <pre><code>**not bold**</code></pre></li>" ++ nl
            ++ "</ul><p><strong>bold</strong> <pre><code># no heading" ++ nl
            ++ "* c &amp; d</code></pre> end</p>")).
Proof.
  split; [|vm_compute; reflexivity].
  destruct (proj1 (proj2 fence_rendered_verbatim)
              [js "# T "; js (" x" ++ nl ++ nl ++ "* i "); js (nl ++ nl ++ "**bold** ");
               js " end"]
              [js "a < b"; js " **not bold** ";
               js (nl ++ "# no heading" ++ nl ++ "* c & d" ++ nl)])
    as (segs & Hlen & H).
  - reflexivity.
  - repeat constructor; discriminate.
  - repeat constructor; discriminate.
  - vm_compute. reflexivity.
  - repeat constructor.
  - exists segs. split; [exact Hlen|exact H].
Defined.
